(** * LINCS constraints on the GPU (SYCL kernel): model and properties

    Shallow embedding of [lincsKernel] from
    [src/gromacs/mdlib/lincs_gpu_internal_sycl.cpp].

    Conventions of the embedding.
    - [float] is read as a real number (exact arithmetic): rounding is not
      modelled.  [cl::sycl::rsqrt] is partial: it has a value only on strictly
      positive arguments (in single precision the other arguments produce
      infinities and NaNs, which have no exact counterpart).
    - [int] is [Z]; every buffer access is checked against the extent of the
      buffer and an access outside of it is an error ([None]).
    - A work-group runs in lock step: the code between two barriers is run for
      every work-item of the group, in the order of the local index, before any
      work-item goes on.  Where the code has no barrier between a load and an
      atomic update of the same cell by two work-items, this is one of the
      possible schedules.
    - The arithmetic of one work-item is also given in binary32, operation by
      operation, to show where the exact equalities of the real numbers stop
      holding in the program (section "One work-item in binary32"). *)

From Stdlib Require Import Reals Lra Lia ZArith List Bool Floats.SpecFloat.
Import ListNotations.

Open Scope R_scope.

(** ** Error monad *)

Definition bind {A B : Type} (m : option A) (f : A -> option B) : option B :=
  match m with
  | Some a => f a
  | None => None
  end.

Notation "x <- m ;; k" := (bind m (fun x => k))
  (at level 61, m at next level, right associativity).
Notation "' pat <- m ;; k" := (bind m (fun x => match x with pat => k end))
  (at level 61, pat pattern, m at next level, right associativity).

Ltac inv_step H :=
  match type of H with
  | bind ?m _ = Some _ =>
      let a := fresh "a" in
      let E := fresh "E" in
      destruct m as [a|] eqn:E; [cbn [bind] in H | discriminate H]
  | Some _ = Some _ => injection H as H
  | None = Some _ => discriminate H
  | (let '(_, _) := ?p in _) = Some _ => destruct p
  end.

Ltac monad_inv H := repeat (inv_step H; cbn beta iota in H).

(** ** Buffers *)

Section Buffers.
Context {A : Type}.

Definition inRange (a : list A) (k : Z) : bool :=
  ((0 <=? k) && (k <? Z.of_nat (length a)))%Z.

Definition load (a : list A) (k : Z) : option A :=
  if inRange a k then nth_error a (Z.to_nat k) else None.

Fixpoint update (n : nat) (v : A) (a : list A) : list A :=
  match a, n with
  | [], _ => []
  | _ :: t, O => v :: t
  | h :: t, S n' => h :: update n' v t
  end.

Definition store (a : list A) (k : Z) (v : A) : option (list A) :=
  if inRange a k then Some (update (Z.to_nat k) v a) else None.
End Buffers.

(** [atomicLoad] and [atomicFetchAdd] of sycl_kernel_utils.h. *)
Definition atomicLoad (a : list R) (k : Z) : option R := load a k.

Definition atomicFetchAdd (a : list R) (k : Z) (v : R) : option (list R) :=
  old <- load a k ;;
  store a k (old + v).

(** [for (int n = lo; n < hi; n++) body]. *)
Fixpoint forLoop {S : Type} (body : Z -> S -> option S) (count : nat) (n : Z) (s : S)
  : option S :=
  match count with
  | O => Some s
  | Datatypes.S count' => s' <- body n s ;; forLoop body count' (n + 1)%Z s'
  end.

Definition forRange {S : Type} (lo hi : Z) (body : Z -> S -> option S) (s : S)
  : option S :=
  forLoop body (Z.to_nat (hi - lo)) lo s.

(** ** Vectors *)

Inductive Dimension := XX | YY | ZZ.

Definition DIM : Z := 3.

Definition dimIndex (d : Dimension) : Z :=
  match d with XX => 0 | YY => 1 | ZZ => 2 end.

Record Float3 := mkFloat3 { f3x : R; f3y : R; f3z : R }.

Definition comp (v : Float3) (d : Dimension) : R :=
  match d with XX => f3x v | YY => f3y v | ZZ => f3z v end.

Notation "v .[ d ]" := (comp v d) (at level 1, left associativity, format "v .[ d ]").

Definition zero3 : Float3 := mkFloat3 0 0 0.

(** [float * Float3] and [Float3 * float]. *)
Definition scale (s : R) (v : Float3) : Float3 :=
  mkFloat3 (s * v.[XX]) (s * v.[YY]) (s * v.[ZZ]).

Definition times (v : Float3) (s : R) : Float3 :=
  mkFloat3 (v.[XX] * s) (v.[YY] * s) (v.[ZZ] * s).

Definition dot3 (a b : Float3) : R :=
  a.[XX] * b.[XX] + a.[YY] * b.[YY] + a.[ZZ] * b.[ZZ].

Definition rsqrt (x : R) : option R :=
  if Rlt_dec 0 x then Some (/ sqrt x) else None.

(** ** Device and work-group memory *)

Record AtomPair := mkAtomPair { pair_i : Z; pair_j : Z }.

Record DeviceBuffers := mkDeviceBuffers {
  a_constraints : list AtomPair;
  a_constraintsTargetLengths : list R;
  a_coupledConstraintsCounts : list Z;
  a_coupledConstraintsIndices : list Z;
  a_massFactors : list R;
  a_matrixA : list R;
  a_inverseMasses : list R;
  a_x : list Float3;
  a_xp : list R;
  a_v : list R;
  a_virialScaled : list R
}.

Definition set_matrixA (d : DeviceBuffers) (m : list R) : DeviceBuffers :=
  mkDeviceBuffers (a_constraints d) (a_constraintsTargetLengths d)
    (a_coupledConstraintsCounts d) (a_coupledConstraintsIndices d) (a_massFactors d)
    m (a_inverseMasses d) (a_x d) (a_xp d) (a_v d) (a_virialScaled d).

Definition set_xp (d : DeviceBuffers) (xp : list R) : DeviceBuffers :=
  mkDeviceBuffers (a_constraints d) (a_constraintsTargetLengths d)
    (a_coupledConstraintsCounts d) (a_coupledConstraintsIndices d) (a_massFactors d)
    (a_matrixA d) (a_inverseMasses d) (a_x d) xp (a_v d) (a_virialScaled d).

Definition set_v (d : DeviceBuffers) (v : list R) : DeviceBuffers :=
  mkDeviceBuffers (a_constraints d) (a_constraintsTargetLengths d)
    (a_coupledConstraintsCounts d) (a_coupledConstraintsIndices d) (a_massFactors d)
    (a_matrixA d) (a_inverseMasses d) (a_x d) (a_xp d) v (a_virialScaled d).

Definition set_virialScaled (d : DeviceBuffers) (w : list R) : DeviceBuffers :=
  mkDeviceBuffers (a_constraints d) (a_constraintsTargetLengths d)
    (a_coupledConstraintsCounts d) (a_coupledConstraintsIndices d) (a_massFactors d)
    (a_matrixA d) (a_inverseMasses d) (a_x d) (a_xp d) (a_v d) w.

(** Local accessors of one work-group. *)
Record LocalMemory := mkLocalMemory {
  sm_r : list Float3;
  sm_rhs : list R;
  sm_threadVirial : list R
}.

Record Memory := mkMemory { loc : LocalMemory; dev : DeviceBuffers }.

Definition set_sm_r (m : Memory) (r : list Float3) : Memory :=
  mkMemory (mkLocalMemory r (sm_rhs (loc m)) (sm_threadVirial (loc m))) (dev m).

Definition set_sm_rhs (m : Memory) (r : list R) : Memory :=
  mkMemory (mkLocalMemory (sm_r (loc m)) r (sm_threadVirial (loc m))) (dev m).

Definition set_sm_threadVirial (m : Memory) (w : list R) : Memory :=
  mkMemory (mkLocalMemory (sm_r (loc m)) (sm_rhs (loc m)) w) (dev m).

Definition set_dev (m : Memory) (d : DeviceBuffers) : Memory :=
  mkMemory (loc m) d.

(** ** Private variables of a work-item

    [ThreadConst] holds what is computed before the first barrier and never
    assigned again; [ThreadVars] what the kernel keeps assigning. *)

Record ThreadConst := mkThreadConst {
  threadIndex : Z;
  threadInBlock : Z;
  atom_i : Z;
  atom_j : Z;
  isDummyThread : bool;
  targetLength : R;
  inverseMassi : R;
  inverseMassj : R;
  sqrtReducedMass : R;
  rc : Float3
}.

Record ThreadVars := mkThreadVars {
  xi : Float3;
  xj : Float3;
  coupledConstraintsCount : Z;
  sol : R;
  lagrangeScaled : R
}.

Definition Thread : Type := ThreadConst * ThreadVars.

(** The code between two barriers, run by every work-item of the group. *)
Definition Step : Type :=
  ThreadConst -> ThreadVars -> Memory -> option (ThreadVars * Memory).

Fixpoint forThreads (step : Step) (ths : list Thread) (m : Memory)
  : option (list Thread * Memory) :=
  match ths with
  | [] => Some ([], m)
  | (c, v) :: rest =>
      '(v', m1) <- step c v m ;;
      '(rest', m2) <- forThreads step rest m1 ;;
      Some ((c, v') :: rest', m2)
  end.

(** The six atomic updates of the two end points of a constraint
    (the same six lines follow each computation of a Lagrange multiplier). *)
Definition addCorrection (a : list R) (c : ThreadConst) (tmp : Float3) : option (list R) :=
  a <- atomicFetchAdd a (atom_i c * DIM + dimIndex XX)%Z (- tmp.[XX] * inverseMassi c) ;;
  a <- atomicFetchAdd a (atom_i c * DIM + dimIndex YY)%Z (- tmp.[YY] * inverseMassi c) ;;
  a <- atomicFetchAdd a (atom_i c * DIM + dimIndex ZZ)%Z (- tmp.[ZZ] * inverseMassi c) ;;
  a <- atomicFetchAdd a (atom_j c * DIM + dimIndex XX)%Z (tmp.[XX] * inverseMassj c) ;;
  a <- atomicFetchAdd a (atom_j c * DIM + dimIndex YY)%Z (tmp.[YY] * inverseMassj c) ;;
  atomicFetchAdd a (atom_j c * DIM + dimIndex ZZ)%Z (tmp.[ZZ] * inverseMassj c).

(** The six atomic loads of the two end points. *)
Definition loadAtom (a : list R) (k : Z) : option Float3 :=
  x <- atomicLoad a (k * DIM + dimIndex XX)%Z ;;
  y <- atomicLoad a (k * DIM + dimIndex YY)%Z ;;
  z <- atomicLoad a (k * DIM + dimIndex ZZ)%Z ;;
  Some (mkFloat3 x y z).

Definition loadEndPoints (c : ThreadConst) (v : ThreadVars) (m : Memory)
  : option (Float3 * Float3) :=
  if isDummyThread c then Some (xi v, xj v)
  else
    pi <- loadAtom (a_xp (dev m)) (atom_i c) ;;
    pj <- loadAtom (a_xp (dev m)) (atom_j c) ;;
    Some (pi, pj).

(** Right-hand side of a centripetal correction (lines 339-352). *)
Definition centripetalProjection (sqrtReducedMass targetLength : R) (dx : Float3)
  : option R :=
  let len2 := targetLength * targetLength in
  let dlen2 := 2 * len2 - (dx.[XX] * dx.[XX] + dx.[YY] * dx.[YY] + dx.[ZZ] * dx.[ZZ]) in
  if Rlt_dec 0 dlen2 then
    r <- rsqrt dlen2 ;;
    Some (sqrtReducedMass * (targetLength - dlen2 * r))
  else
    Some (sqrtReducedMass * targetLength).

(** ** A test system

    The system [two disjoint constraints] of [src/gromacs/mdlib/tests/constr.cpp]:
    four atoms, the constraints 0-1 of length 2 and 2-3 of length 1, the positions
    [x] and [xPrime] and the velocities of the test, laid out for one work-group
    of eight work-items (six of them dummies), without periodic images. *)

Definition noPbcDx (_ : unit) (a b : Float3) : Float3 :=
  mkFloat3 (a.[XX] - b.[XX]) (a.[YY] - b.[YY]) (a.[ZZ] - b.[ZZ]).

Definition twoDisjointMasses : list R := [1 / 2; 1 / 3; 1 / 4; 1].

Definition twoDisjointConstraints : DeviceBuffers :=
  let dummy := mkAtomPair (-1) (-1) in
  {| a_constraints :=
       [mkAtomPair 0 1; mkAtomPair 2 3; dummy; dummy; dummy; dummy; dummy; dummy];
     a_constraintsTargetLengths := [2; 1; 0; 0; 0; 0; 0; 0];
     a_coupledConstraintsCounts := [0; 0; 0; 0; 0; 0; 0; 0]%Z;
     a_coupledConstraintsIndices := [];
     a_massFactors := [];
     a_matrixA := [];
     a_inverseMasses := [2; 3; 4; 1];
     a_x := [mkFloat3 (5 / 2) (- 31 / 10) (157 / 10);
             mkFloat3 (51 / 100) (- 151 / 50) (311 / 20);
             mkFloat3 (- 1 / 2) (- 3) (76 / 5);
             mkFloat3 (- 151 / 100) (- 59 / 20) (301 / 20)];
     a_xp := [5 / 2; - 31 / 10; 157 / 10;
              51 / 100; - 151 / 50; 311 / 20;
              - 1 / 2; - 3; 76 / 5;
              - 151 / 100; - 59 / 20; 301 / 20];
     a_v := [0; 1; 0; 1; 0; 0; 0; 0; 1; 0; 0; 0];
     a_virialScaled := [0; 0; 0; 0; 0; 0] |}.

(** ** The checks of the test

    [ConstraintsTest] of [src/gromacs/mdlib/tests/constr.cpp].  The class
    [ConstraintsTestData] (constrtestdata.h), the expectation
    [EXPECT_REAL_EQ_TOL] with its [FloatingPointTolerance]
    (testutils/testasserts.h), [t_pbc] and [pbc_dx_aiuc] (pbcutil/pbc.h) are
    declared outside of the file: the data are the fields that the checks
    read, the others are taken as they come.  A check gives [true] when all its
    expectations are met; an access outside of a vector gives no result. *)

Definition rvec_sub (a b : Float3) : Float3 :=
  mkFloat3 (a.[XX] - b.[XX]) (a.[YY] - b.[YY]) (a.[ZZ] - b.[ZZ]).

Definition norm (a : Float3) : R := sqrt (dot3 a a).

Definition rvec_inc (a b : Float3) : Float3 :=
  mkFloat3 (a.[XX] + b.[XX]) (a.[YY] + b.[YY]) (a.[ZZ] + b.[ZZ]).

Record ConstraintsTestData := mkConstraintsTestData {
  numAtoms_ : Z;
  masses_ : list R;
  constraints_ : list Z;
  constraintsR0_ : list R;
  x_ : list Float3;
  xPrime_ : list Float3;
  xPrime0_ : list Float3;
  v_ : list Float3;
  v0_ : list Float3
}.

Section ConstraintsTest.
Variable FloatingPointTolerance : Type.
Variable withinTolerance : FloatingPointTolerance -> R -> R -> bool.
Variable t_pbc : Type.
Variable pbcTypeIsXyz : t_pbc -> bool.
Variable pbc_dx_aiuc : t_pbc -> Float3 -> Float3 -> Float3.

(** Lines 390-399 and 433-442: the displacement between two atoms. *)
Definition displacement (pbc : t_pbc) (a b : Float3) : Float3 :=
  if pbcTypeIsXyz pbc then pbc_dx_aiuc pbc a b else rvec_sub a b.

(** Lines 377-413. *)
Definition checkConstrainsLength (tolerance : FloatingPointTolerance)
           (testData : ConstraintsTestData) (pbc : t_pbc) : option bool :=
  forRange 0 (Z.quot (Z.of_nat (length (constraints_ testData))) 3)
    (fun c ok =>
       type <- load (constraints_ testData) (3 * c)%Z ;;
       r0 <- load (constraintsR0_ testData) type ;;
       i <- load (constraints_ testData) (3 * c + 1)%Z ;;
       j <- load (constraints_ testData) (3 * c + 2)%Z ;;
       xi <- load (x_ testData) i ;;
       xj <- load (x_ testData) j ;;
       xPrimei <- load (xPrime_ testData) i ;;
       xPrimej <- load (xPrime_ testData) j ;;
       let xij0 := displacement pbc xi xj in
       let xij1 := displacement pbc xPrimei xPrimej in
       let d0 := norm xij0 in
       let d1 := norm xij1 in
       Some (ok && withinTolerance tolerance r0 d1))
    true.

(** Lines 425-452. *)
Definition checkConstrainsDirection (testData : ConstraintsTestData) (pbc : t_pbc)
  : option bool :=
  forRange 0 (Z.quot (Z.of_nat (length (constraints_ testData))) 3)
    (fun c ok =>
       i <- load (constraints_ testData) (3 * c + 1)%Z ;;
       j <- load (constraints_ testData) (3 * c + 2)%Z ;;
       xi <- load (x_ testData) i ;;
       xj <- load (x_ testData) j ;;
       xPrimei <- load (xPrime_ testData) i ;;
       xPrimej <- load (xPrime_ testData) j ;;
       let xij0 := displacement pbc xi xj in
       let xij1 := displacement pbc xPrimei xPrimej in
       let dot := dot3 xij0 xij1 in
       Some (ok && (if Rge_dec dot 0 then true else false)))
    true.

(** The loops of lines 468-476 and 498-505, which divide the sums by the
    number of atoms. *)
Definition weightedMeans (numAtoms : Z) (masses : list R) (before after : list Float3)
  : option (Float3 * Float3) :=
  '(com0, com) <-
    forRange 0 numAtoms
      (fun i '(com0, com) =>
         m <- load masses i ;;
         p0 <- load before i ;;
         p <- load after i ;;
         Some (rvec_inc com0 (scale m p0), rvec_inc com (scale m p)))
      (zero3, zero3) ;;
  Some (times com0 (/ IZR numAtoms), times com (/ IZR numAtoms)).

(** Lines 465-485. *)
Definition checkCOMCoordinates (tolerance : FloatingPointTolerance)
           (testData : ConstraintsTestData) : option bool :=
  '(comPrime0, comPrime) <-
    weightedMeans (numAtoms_ testData) (masses_ testData)
      (xPrime0_ testData) (xPrime_ testData) ;;
  Some (withinTolerance tolerance comPrime.[XX] comPrime0.[XX]
        && withinTolerance tolerance comPrime.[YY] comPrime0.[YY]
        && withinTolerance tolerance comPrime.[ZZ] comPrime0.[ZZ]).

(** Lines 495-514. *)
Definition checkCOMVelocity (tolerance : FloatingPointTolerance)
           (testData : ConstraintsTestData) : option bool :=
  '(comV0, comV) <-
    weightedMeans (numAtoms_ testData) (masses_ testData)
      (v0_ testData) (v_ testData) ;;
  Some (withinTolerance tolerance comV.[XX] comV0.[XX]
        && withinTolerance tolerance comV.[YY] comV0.[YY]
        && withinTolerance tolerance comV.[ZZ] comV0.[ZZ]).
End ConstraintsTest.

(** ** One work-item in binary32

    The arithmetic of a work-item that is not a dummy, in a kernel without
    coupled constraints and without periodic images, when no other work-item
    touches its two atoms: lines 209-224 (data of the constraint), 251-263
    (projection), 296-315 (first correction), 320-388 (centripetal
    corrections) and 398-410 (velocities).  Every [float] operation is the
    IEEE 754 operation of binary32 (24 bits of precision, round to nearest
    even), in the order of the source; an [atomicFetchAdd] is the addition to
    the value of the cell.  [cl::sycl::rsqrt], whose accuracy is left to the
    implementation, is taken as the rounded quotient of one by the rounded
    square root. *)



















(** ** The kernel

    The template parameters and the scalar arguments of [lincsKernel] are the
    variables of the section.  [c_threadsPerBlock] (lincs_gpu.h), [PbcAiuc] and
    [pbcDxAiucSycl] (pbc_aiuc_sycl.h) are declared outside of the file and are
    taken as they come. *)

Section Kernel.
Variable c_threadsPerBlock : Z.
Variables updateVelocities computeVirial haveCoupledConstraints : bool.
Variable numConstraintsThreads : Z.
Variables numIterations expansionOrder : Z.
Variable invdt : R.
Variable PbcAiuc : Type.
Variable pbcDxAiucSycl : PbcAiuc -> Float3 -> Float3 -> Float3.
Variable pbcAiuc : PbcAiuc.

(** Lines 177-229: the data of the constraint and its direction [rc] at the
    positions [a_x], saved in [sm_r]. *)
Definition collectData (tIndex tInBlock : Z) (m : Memory) : option (Thread * Memory) :=
  pair <- load (a_constraints (dev m)) tIndex ;;
  let i := pair_i pair in
  let j := pair_j pair in
  '(c, v) <-
    (if (i =? -1)%Z then
       Some (mkThreadConst tIndex tInBlock i j true 0 0 0 0 zero3,
             mkThreadVars zero3 zero3 0 0 0)
     else
       tl <- load (a_constraintsTargetLengths (dev m)) tIndex ;;
       imi <- load (a_inverseMasses (dev m)) i ;;
       imj <- load (a_inverseMasses (dev m)) j ;;
       srm <- rsqrt (imi + imj) ;;
       pi <- load (a_x (dev m)) i ;;
       pj <- load (a_x (dev m)) j ;;
       let dx := pbcDxAiucSycl pbcAiuc pi pj in
       rlen <- rsqrt (dx.[XX] * dx.[XX] + dx.[YY] * dx.[YY] + dx.[ZZ] * dx.[ZZ]) ;;
       Some (mkThreadConst tIndex tInBlock i j false tl imi imj srm (scale rlen dx),
             mkThreadVars pi pj 0 0 0)) ;;
  r <- store (sm_r (loc m)) tIndex (rc c) ;;
  Some ((c, v), set_sm_r m r).

Fixpoint collectAll (ids : list (Z * Z)) (m : Memory) : option (list Thread * Memory) :=
  match ids with
  | [] => Some ([], m)
  | (tIndex, tInBlock) :: rest =>
      '(t, m1) <- collectData tIndex tInBlock m ;;
      '(ths, m2) <- collectAll rest m1 ;;
      Some (t :: ths, m2)
  end.

(** Lines 239-247: the row of the coupling matrix. *)
Definition constructMatrixA (c : ThreadConst) (count : Z) (m : Memory) : option Memory :=
  forRange 0 count
    (fun n m =>
       let index := (n * numConstraintsThreads + threadIndex c)%Z in
       c1 <- load (a_coupledConstraintsIndices (dev m)) index ;;
       rc1 <- load (sm_r (loc m)) c1 ;;
       mf <- load (a_massFactors (dev m)) index ;;
       a <- store (a_matrixA (dev m)) index
              (mf * ((rc c).[XX] * rc1.[XX] + (rc c).[YY] * rc1.[YY]
                     + (rc c).[ZZ] * rc1.[ZZ])) ;;
       Some (set_dev m (set_matrixA (dev m) a)))
    m.

(** Lines 234-271: matrix, positions [a_xp], right-hand side in [sm_rhs]. *)
Definition projectionStep : Step := fun c v m =>
  '(count, m) <-
    (if haveCoupledConstraints then
       count <- load (a_coupledConstraintsCounts (dev m)) (threadIndex c) ;;
       m' <- constructMatrixA c count m ;;
       Some (count, m')
     else Some (0%Z, m)) ;;
  '(pi, pj) <- loadEndPoints c v m ;;
  let dx := pbcDxAiucSycl pbcAiuc pi pj in
  let s := sqrtReducedMass c
           * (((rc c).[XX] * dx.[XX] + (rc c).[YY] * dx.[YY] + (rc c).[ZZ] * dx.[ZZ])
              - targetLength c) in
  rhs <- store (sm_rhs (loc m)) (threadInBlock c) s ;;
  Some (mkThreadVars pi pj count s (lagrangeScaled v), set_sm_rhs m rhs).

(** Lines 279-292 and 365-376: one multiplication by the matrix. *)
Definition convolute (rec : Z) (c : ThreadConst) (v : ThreadVars) (m : Memory) : option R :=
  forRange 0 (coupledConstraintsCount v)
    (fun n mvb =>
       let index := (n * numConstraintsThreads + threadIndex c)%Z in
       c1 <- load (a_coupledConstraintsIndices (dev m)) index ;;
       a <- load (a_matrixA (dev m)) index ;;
       r <- load (sm_rhs (loc m)) (c1 + c_threadsPerBlock * (Z.rem rec 2))%Z ;;
       Some (mvb + a * r))
    0.

Definition expansionStep (rec : Z) : Step := fun c v m =>
  mvb <- convolute rec c v m ;;
  rhs <- store (sm_rhs (loc m))
           (threadInBlock c + c_threadsPerBlock * (Z.rem (rec + 1) 2))%Z mvb ;;
  Some (mkThreadVars (xi v) (xj v) (coupledConstraintsCount v) (sol v + mvb)
          (lagrangeScaled v),
        set_sm_rhs m rhs).

Definition expandMatrix (s : list Thread * Memory) : option (list Thread * Memory) :=
  if haveCoupledConstraints then
    forRange 0 expansionOrder
      (fun rec '(ths, m) => forThreads (expansionStep rec) ths m) s
  else Some s.

(** Lines 296-315. *)
Definition correctPositions : Step := fun c v m =>
  let ls := sqrtReducedMass c * sol v in
  let v' := mkThreadVars (xi v) (xj v) (coupledConstraintsCount v) (sol v) ls in
  let tmp := times (rc c) ls in
  if isDummyThread c then Some (v', m)
  else
    xp <- addCorrection (a_xp (dev m)) c tmp ;;
    Some (v', set_dev m (set_xp (dev m) xp)).

(** Lines 324-355. *)
Definition centripetalStep : Step := fun c v m =>
  '(pi, pj) <- loadEndPoints c v m ;;
  let dx := pbcDxAiucSycl pbcAiuc pi pj in
  proj <- centripetalProjection (sqrtReducedMass c) (targetLength c) dx ;;
  rhs <- store (sm_rhs (loc m)) (threadInBlock c) proj ;;
  Some (mkThreadVars pi pj (coupledConstraintsCount v) proj (lagrangeScaled v),
        set_sm_rhs m rhs).

(** Lines 380-395. *)
Definition correctRotation : Step := fun c v m =>
  let sqrtmu_sol := sqrtReducedMass c * sol v in
  let v' := mkThreadVars (xi v) (xj v) (coupledConstraintsCount v) (sol v)
              (lagrangeScaled v + sqrtmu_sol) in
  if isDummyThread c then Some (v', m)
  else
    xp <- addCorrection (a_xp (dev m)) c (times (rc c) sqrtmu_sol) ;;
    Some (v', set_dev m (set_xp (dev m) xp)).

Definition centripetalLoop (s : list Thread * Memory) : option (list Thread * Memory) :=
  forRange 0 numIterations
    (fun iter '(ths, m) =>
       '(ths, m) <- forThreads centripetalStep ths m ;;
       '(ths, m) <- expandMatrix (ths, m) ;;
       forThreads correctRotation ths m)
    s.

(** Lines 399-411. *)
Definition updateVelocityStep : Step := fun c v m =>
  if isDummyThread c then Some (v, m)
  else
    let tmp := times (times (rc c) invdt) (lagrangeScaled v) in
    a <- addCorrection (a_v (dev m)) c tmp ;;
    Some (v, set_dev m (set_v (dev m) a)).

(** Lines 429-435. *)
Definition saveThreadVirial : Step := fun c v m =>
  let mult := targetLength c * lagrangeScaled v in
  let tib := threadInBlock c in
  w <- store (sm_threadVirial (loc m)) (0 * c_threadsPerBlock + tib)%Z
         (mult * (rc c).[XX] * (rc c).[XX]) ;;
  w <- store w (1 * c_threadsPerBlock + tib)%Z (mult * (rc c).[XX] * (rc c).[YY]) ;;
  w <- store w (2 * c_threadsPerBlock + tib)%Z (mult * (rc c).[XX] * (rc c).[ZZ]) ;;
  w <- store w (3 * c_threadsPerBlock + tib)%Z (mult * (rc c).[YY] * (rc c).[YY]) ;;
  w <- store w (4 * c_threadsPerBlock + tib)%Z (mult * (rc c).[YY] * (rc c).[ZZ]) ;;
  w <- store w (5 * c_threadsPerBlock + tib)%Z (mult * (rc c).[ZZ] * (rc c).[ZZ]) ;;
  Some (v, set_sm_threadVirial m w).

(** Lines 455-456: [sm_threadVirial[d * blockSize + tib] +=
    sm_threadVirial[d * blockSize + (tib + dividedAt)]]. *)
Definition reduceCell (dividedAt tib : Z) (d : Z) (w : list R) : option (list R) :=
  let blockSize := c_threadsPerBlock in
  a <- load w (d * blockSize + tib)%Z ;;
  b <- load w (d * blockSize + (tib + dividedAt))%Z ;;
  store w (d * blockSize + tib)%Z (a + b).

(** Lines 450-458: one round of the reduction. *)
Definition reduceStep (dividedAt : Z) : Step := fun c v m =>
  let tib := threadInBlock c in
  if (tib <? dividedAt)%Z then
    w <- forRange 0 6 (reduceCell dividedAt tib) (sm_threadVirial (loc m)) ;;
    Some (v, set_sm_threadVirial m w)
  else Some (v, m).

(** Lines 448-467: [for (divideBy = 2; divideBy <= blockSize; divideBy *= 2)].
    [divideBy] doubles, so [blockSize] rounds of fuel are never used up. *)
Fixpoint reduceLoop (fuel : nat) (divideBy : Z) (s : list Thread * Memory)
  : option (list Thread * Memory) :=
  if (divideBy <=? c_threadsPerBlock)%Z then
    match fuel with
    | O => None
    | S fuel' =>
        s' <- forThreads (reduceStep (Z.quot c_threadsPerBlock divideBy)) (fst s) (snd s) ;;
        reduceLoop fuel' (divideBy * 2)%Z s'
    end
  else Some s.

(** Lines 469-472. *)
Definition addBlockVirial : Step := fun c v m =>
  let tib := threadInBlock c in
  if (tib <? 6)%Z then
    s <- load (sm_threadVirial (loc m)) (tib * c_threadsPerBlock)%Z ;;
    w <- atomicFetchAdd (a_virialScaled (dev m)) tib s ;;
    Some (v, set_dev m (set_virialScaled (dev m) w))
  else Some (v, m).

Definition virialPhase (s : list Thread * Memory) : option (list Thread * Memory) :=
  if computeVirial then
    '(ths, m) <- forThreads saveThreadVirial (fst s) (snd s) ;;
    '(ths, m) <- reduceLoop (Z.to_nat c_threadsPerBlock) 2 (ths, m) ;;
    forThreads addBlockVirial ths m
  else Some s.

Definition velocityPhase (s : list Thread * Memory) : option (list Thread * Memory) :=
  if updateVelocities then forThreads updateVelocityStep (fst s) (snd s) else Some s.

(** Lines 148-171: the local accessors, with their extents. *)
Definition localAccessors : LocalMemory :=
  let n := Z.to_nat c_threadsPerBlock in
  mkLocalMemory (repeat zero3 n) (repeat 0 n)
    (if computeVirial then repeat 0 (Z.to_nat (c_threadsPerBlock * 6)) else []).

Definition workItems (blockIdx : Z) : list (Z * Z) :=
  map (fun t => let tib := Z.of_nat t in ((blockIdx * c_threadsPerBlock + tib)%Z, tib))
    (seq 0 (Z.to_nat c_threadsPerBlock)).

(** Lines 231-396: projection and corrections of the positions. *)
Definition solvePositions (s : list Thread * Memory) : option (list Thread * Memory) :=
  '(ths, m) <- forThreads projectionStep (fst s) (snd s) ;;
  '(ths, m) <- expandMatrix (ths, m) ;;
  '(ths, m) <- forThreads correctPositions ths m ;;
  centripetalLoop (ths, m).

(** The kernel function (lines 173-474) for one work-group. *)
Definition workGroup (blockIdx : Z) (d : DeviceBuffers)
  : option (list Thread * DeviceBuffers) :=
  s <- collectAll (workItems blockIdx) (mkMemory localAccessors d) ;;
  s <- solvePositions s ;;
  s <- velocityPhase s ;;
  s <- virialPhase s ;;
  Some (fst s, dev (snd s)).

(** [launchLincsKernel] (lines 481-499): [nd_range(numConstraintsThreads,
    c_threadsPerBlock)] asks for a global size that the work-group size
    divides.  The work-groups do not synchronise with each other; they are
    run one after the other. *)
Definition launchable : bool :=
  ((0 <? c_threadsPerBlock) && (0 <=? numConstraintsThreads)
   && (Z.rem numConstraintsThreads c_threadsPerBlock =? 0))%Z.

Definition lincsKernelTrace (d : DeviceBuffers) : option (list Thread * DeviceBuffers) :=
  if launchable then
    forRange 0 (Z.quot numConstraintsThreads c_threadsPerBlock)
      (fun blockIdx '(ths, d) =>
         '(ths', d') <- workGroup blockIdx d ;;
         Some (ths ++ ths', d'))
      ([], d)
  else None.

Definition lincsKernel (d : DeviceBuffers) : option DeviceBuffers :=
  option_map snd (lincsKernelTrace d).


(** ** Notions used in the statements *)

Definition State : Type := (list Thread * Memory)%type.

(** The value an atomic addition of [v] to the cell [k] adds to the cell [n]. *)
Definition cellAdd (k : Z) (v : R) (n : nat) : R :=
  if (Z.of_nat n =? k)%Z then v else 0.

(** What [addCorrection a c tmp] adds to the cell [n]. *)
Definition corrOf (c : ThreadConst) (tmp : Float3) (n : nat) : R :=
  cellAdd (atom_i c * DIM + dimIndex XX) (- tmp.[XX] * inverseMassi c) n
  + cellAdd (atom_i c * DIM + dimIndex YY) (- tmp.[YY] * inverseMassi c) n
  + cellAdd (atom_i c * DIM + dimIndex ZZ) (- tmp.[ZZ] * inverseMassi c) n
  + cellAdd (atom_j c * DIM + dimIndex XX) (tmp.[XX] * inverseMassj c) n
  + cellAdd (atom_j c * DIM + dimIndex YY) (tmp.[YY] * inverseMassj c) n
  + cellAdd (atom_j c * DIM + dimIndex ZZ) (tmp.[ZZ] * inverseMassj c) n.

(** Correction of the cell [n] for a unit Lagrange multiplier:
    [- inverseMassi * rc] on the cells of atom i, [+ inverseMassj * rc] on the
    cells of atom j. *)
Definition unitCorrection (c : ThreadConst) (n : nat) : R := corrOf c (rc c) n.

(** Sum, over the work-items, of the corrections of the cell [n] by their
    accumulated multipliers [lagrangeScaled]. *)
Fixpoint totalCorrection (ths : list Thread) (n : nat) : R :=
  match ths with
  | [] => 0
  | (c, v) :: rest => lagrangeScaled v * unitCorrection c n + totalCorrection rest n
  end.

Definition nonDummy (t : Thread) : bool := negb (isDummyThread (fst t)).

(** The read-only accessors. *)
Definition readOnlyKept (d d' : DeviceBuffers) : Prop :=
  a_constraints d' = a_constraints d
  /\ a_constraintsTargetLengths d' = a_constraintsTargetLengths d
  /\ a_coupledConstraintsCounts d' = a_coupledConstraintsCounts d
  /\ a_coupledConstraintsIndices d' = a_coupledConstraintsIndices d
  /\ a_massFactors d' = a_massFactors d
  /\ a_inverseMasses d' = a_inverseMasses d
  /\ a_x d' = a_x d.

(** [keeps wA wXp wV wVir d d']: from [d] to [d'] nothing is written, except in
    the read-write buffers whose flag is set. *)
Definition keeps (wA wXp wV wVir : bool) (d d' : DeviceBuffers) : Prop :=
  readOnlyKept d d'
  /\ (wA = false -> a_matrixA d' = a_matrixA d)
  /\ (wXp = false -> a_xp d' = a_xp d)
  /\ (wV = false -> a_v d' = a_v d)
  /\ (wVir = false -> a_virialScaled d' = a_virialScaled d)
  /\ length (a_matrixA d') = length (a_matrixA d)
  /\ length (a_xp d') = length (a_xp d)
  /\ length (a_v d') = length (a_v d)
  /\ length (a_virialScaled d') = length (a_virialScaled d).

Fixpoint sumBelow (n : nat) (f : nat -> R) : R :=
  match n with
  | O => 0
  | S n' => sumBelow n' f + f n'
  end.

(** Cell of the component [d] of an atom in [a_xp] and [a_v]. *)
Definition cellOf (atom : nat) (d : Dimension) : nat :=
  (atom * 3 + Z.to_nat (dimIndex d))%nat.

(** Mass-weighted sum of the component [d] over all the atoms. *)
Definition massWeightedSum (masses : list R) (a : list R) (d : Dimension) : R :=
  sumBelow (length masses) (fun k => nth k masses 0 * nth (cellOf k d) a 0).

(** The components [XX, XY, XZ, YY, YZ, ZZ] of the virial. *)
Definition virialComponent (k : nat) : Dimension * Dimension :=
  match k with
  | 0%nat => (XX, XX)
  | 1%nat => (XX, YY)
  | 2%nat => (XX, ZZ)
  | 3%nat => (YY, YY)
  | 4%nat => (YY, ZZ)
  | _ => (ZZ, ZZ)
  end.

Definition threadVirial (t : Thread) (k : nat) : R :=
  let c := fst t in
  targetLength c * lagrangeScaled (snd t)
  * (rc c).[fst (virialComponent k)] * (rc c).[snd (virialComponent k)].

Fixpoint virialSum (ths : list Thread) (k : nat) : R :=
  match ths with
  | [] => 0
  | t :: rest => threadVirial t k + virialSum rest k
  end.

(** A step keeps a relation between the states of the work-group, whatever
    the work-items around the one that runs. *)
Definition stepRespects (P P' : Thread -> Prop) (Rel : State -> State -> Prop)
           (step : Step) : Prop :=
  forall pre c v post m v' m',
    P (c, v) -> step c v m = Some (v', m') ->
    P' (c, v') /\ Rel (pre ++ (c, v) :: post, m) (pre ++ (c, v') :: post, m').

(** The private variables of a dummy work-item (lines 197-207). *)
Definition wfConst (c : ThreadConst) : Prop :=
  isDummyThread c = true ->
  atom_i c = (-1)%Z /\ targetLength c = 0 /\ inverseMassi c = 0 /\ inverseMassj c = 0
  /\ sqrtReducedMass c = 0 /\ rc c = zero3.

(** From one state of a work-group to a later one: only [a_matrixA] and [a_xp]
    are written, and [a_xp] moves with the accumulated multipliers. *)
Definition movesPositions (wA : bool) (s s' : State) : Prop :=
  keeps wA true false false (dev (snd s)) (dev (snd s'))
  /\ forall n, nth n (a_xp (dev (snd s'))) 0 + totalCorrection (fst s) n
               = nth n (a_xp (dev (snd s))) 0 + totalCorrection (fst s') n.

(** A property of a work-item that only looks at its constants and at its
    accumulated multiplier. *)
Definition lamPred (Q : ThreadConst -> R -> Prop) (t : Thread) : Prop :=
  Q (fst t) (lagrangeScaled (snd t)).

Definition freshThread : Thread -> Prop :=
  lamPred (fun c l => wfConst c /\ l = 0).

Definition wfThread : Thread -> Prop :=
  lamPred (fun c l => wfConst c /\ (isDummyThread c = true -> l = 0)).

Definition sameConsts (s s' : State) : Prop := map fst (fst s') = map fst (fst s).

Definition movesRel (s s' : State) : Prop :=
  sameConsts s s' /\ movesPositions haveCoupledConstraints s s'.

(** The constants of a work-item are those that lines 177-224 compute from the
    device buffers [d]. *)
Definition describes (d : DeviceBuffers) (c : ThreadConst) : Prop :=
  load (a_constraints d) (threadIndex c) = Some (mkAtomPair (atom_i c) (atom_j c))
  /\ isDummyThread c = (atom_i c =? -1)%Z
  /\ wfConst c
  /\ (isDummyThread c = false ->
      load (a_constraintsTargetLengths d) (threadIndex c) = Some (targetLength c)
      /\ load (a_inverseMasses d) (atom_i c) = Some (inverseMassi c)
      /\ load (a_inverseMasses d) (atom_j c) = Some (inverseMassj c)
      /\ rsqrt (inverseMassi c + inverseMassj c) = Some (sqrtReducedMass c)
      /\ exists pi pj rlen,
          load (a_x d) (atom_i c) = Some pi
          /\ load (a_x d) (atom_j c) = Some pj
          /\ rsqrt (dot3 (pbcDxAiucSycl pbcAiuc pi pj) (pbcDxAiucSycl pbcAiuc pi pj))
             = Some rlen
          /\ rc c = scale rlen (pbcDxAiucSycl pbcAiuc pi pj)).

Definition idOf (t : Thread) : Z * Z := (threadIndex (fst t), threadInBlock (fst t)).

(** From the buffers [d] at the launch to the buffers [d'] after the work-items
    [ths] have run. *)
Definition kernelEffect (d : DeviceBuffers) (ths : list Thread) (d' : DeviceBuffers)
  : Prop :=
  Forall (fun t => describes d (fst t)) ths
  /\ Forall wfThread ths
  /\ keeps haveCoupledConstraints true updateVelocities computeVirial d d'
  /\ (forall n, nth n (a_xp d') 0 = nth n (a_xp d) 0 + totalCorrection ths n)
  /\ (updateVelocities = true ->
      forall n, nth n (a_v d') 0 = nth n (a_v d) 0 + invdt * totalCorrection ths n).

(** The element of [sm_threadVirial] of the component [k] and the work-item [p]
    of the group. *)
Definition seg (w : list R) (k p : nat) : R :=
  nth (k * Z.to_nat c_threadsPerBlock + p) w 0.

Definition tibOf (t : Thread) : Z := threadInBlock (fst t).

(** The local indices of the work-items are [first, first + 1, ...]. *)
Definition tibsFrom (first : nat) (ths : list Thread) : Prop :=
  map tibOf ths = map Z.of_nat (seq first (length ths)).

(** The three cells of an atom in [a_xp] or [a_v]. *)
Definition atomAt (a : list R) (k : Z) : Float3 :=
  mkFloat3 (nth (Z.to_nat (k * DIM + dimIndex XX)) a 0)
           (nth (Z.to_nat (k * DIM + dimIndex YY)) a 0)
           (nth (Z.to_nat (k * DIM + dimIndex ZZ)) a 0).

(** The atoms of the constraints of the work-items: no atom twice. *)
Definition atomsOf (t : Thread) : list Z :=
  if isDummyThread (fst t) then [] else [atom_i (fst t); atom_j (fst t)].

Definition exclusive (ths : list Thread) : Prop := NoDup (concat (map atomsOf ths)).

(** *** A single pair, solved in closed form

    Modelled on the words of the specification (section 4.3, steps 1 and 3 to
    6, for a coupling matrix without off-diagonal terms, and the glossary): the
    solution of [(I - A) s = b] is [s = b].  It is a second definition, to be
    compared with the kernel.  The square root of [dlen2] is the one of the
    standard library, which is [0] on negative numbers. *)

Definition reducedMass (wi wj : R) : R := / (wi + wj).

Definition normalized (u : Float3) : Float3 := scale (/ sqrt (dot3 u u)) u.

Definition applyMultiplier (direction : Float3) (wi wj lambda : R) (p : Float3 * Float3)
  : Float3 * Float3 :=
  (mkFloat3 ((fst p).[XX] - lambda * wi * direction.[XX])
            ((fst p).[YY] - lambda * wi * direction.[YY])
            ((fst p).[ZZ] - lambda * wi * direction.[ZZ]),
   mkFloat3 ((snd p).[XX] + lambda * wj * direction.[XX])
            ((snd p).[YY] + lambda * wj * direction.[YY])
            ((snd p).[ZZ] + lambda * wj * direction.[ZZ])).

Definition naiveCentripetal (mu r0 : R) (direction : Float3) (wi wj : R)
           (s : (Float3 * Float3) * R) : (Float3 * Float3) * R :=
  let dx := pbcDxAiucSycl pbcAiuc (fst (fst s)) (snd (fst s)) in
  let dlen2 := 2 * (r0 * r0) - dot3 dx dx in
  let b := sqrt mu * (r0 - sqrt dlen2) in
  let lambda := sqrt mu * b in
  (applyMultiplier direction wi wj lambda (fst s), snd s + lambda).

Definition naiveSinglePairSolve (wi wj r0 : R) (x_i x_j : Float3) (p : Float3 * Float3)
  : (Float3 * Float3) * R :=
  let mu := reducedMass wi wj in
  let direction := normalized (pbcDxAiucSycl pbcAiuc x_i x_j) in
  let b := sqrt mu * (dot3 direction (pbcDxAiucSycl pbcAiuc (fst p) (snd p)) - r0) in
  let lambda := sqrt mu * b in
  Nat.iter (Z.to_nat numIterations) (naiveCentripetal mu r0 direction wi wj)
    (applyMultiplier direction wi wj lambda p, lambda).

(** The end points of a constraint once its accumulated multiplier is [lam]. *)
Definition endI (c : ThreadConst) (p : Float3) (lam : R) : Float3 :=
  mkFloat3 (p.[XX] + lam * (- (rc c).[XX] * inverseMassi c))
           (p.[YY] + lam * (- (rc c).[YY] * inverseMassi c))
           (p.[ZZ] + lam * (- (rc c).[ZZ] * inverseMassi c)).

Definition endJ (c : ThreadConst) (p : Float3) (lam : R) : Float3 :=
  mkFloat3 (p.[XX] + lam * ((rc c).[XX] * inverseMassj c))
           (p.[YY] + lam * ((rc c).[YY] * inverseMassj c))
           (p.[ZZ] + lam * ((rc c).[ZZ] * inverseMassj c)).

Definition dxAt (xp0 : list R) (c : ThreadConst) (lam : R) : Float3 :=
  pbcDxAiucSycl pbcAiuc (endI c (atomAt xp0 (atom_i c)) lam)
    (endJ c (atomAt xp0 (atom_j c)) lam).

Definition projAt (xp0 : list R) (c : ThreadConst) (lam : R) : R :=
  sqrtReducedMass c
  * (targetLength c
     - sqrt (2 * (targetLength c * targetLength c)
             - dot3 (dxAt xp0 c lam) (dxAt xp0 c lam))).

Fixpoint lamAfter (xp0 : list R) (c : ThreadConst) (n : nat) : R :=
  match n with
  | O => sqrtReducedMass c
         * (sqrtReducedMass c * (dot3 (rc c) (dxAt xp0 c 0) - targetLength c))
  | S n' => lamAfter xp0 c n' + sqrtReducedMass c * projAt xp0 c (lamAfter xp0 c n')
  end.

(** Where a work-item without coupled constraints stands: before the first
    correction, after [n] centripetal corrections, and between the projection
    and the correction of the next one. *)
Definition projected (xp0 : list R) (t : Thread) : Prop :=
  isDummyThread (fst t) = false ->
  lagrangeScaled (snd t) = 0
  /\ sol (snd t)
     = sqrtReducedMass (fst t)
       * (dot3 (rc (fst t)) (dxAt xp0 (fst t) 0) - targetLength (fst t)).

Definition onTrack (xp0 : list R) (n : nat) (t : Thread) : Prop :=
  isDummyThread (fst t) = false ->
  lagrangeScaled (snd t) = lamAfter xp0 (fst t) n.

Definition armed (xp0 : list R) (n : nat) (t : Thread) : Prop :=
  isDummyThread (fst t) = false ->
  lagrangeScaled (snd t) = lamAfter xp0 (fst t) n
  /\ sol (snd t) = projAt xp0 (fst t) (lamAfter xp0 (fst t) n).

(** The end points of a work-item in [xp] are those its multiplier accounts
    for, from the positions [xp0]. *)
Definition placed (xp0 xp : list R) (t : Thread) : Prop :=
  isDummyThread (fst t) = false ->
  atomAt xp (atom_i (fst t))
  = endI (fst t) (atomAt xp0 (atom_i (fst t))) (lagrangeScaled (snd t))
  /\ atomAt xp (atom_j (fst t))
     = endJ (fst t) (atomAt xp0 (atom_j (fst t))) (lagrangeScaled (snd t)).

(** *** Enough room for a run

    The buffers have the extents that [numAtoms] atoms and one work-group ask
    for, and the indices of a work-item fall inside them. *)
Definition roomy (numAtoms : nat) (m : Memory) : Prop :=
  length (a_xp (dev m)) = (3 * numAtoms)%nat
  /\ (updateVelocities = true -> length (a_v (dev m)) = (3 * numAtoms)%nat)
  /\ length (sm_rhs (loc m)) = Z.to_nat c_threadsPerBlock
  /\ (computeVirial = true ->
      length (sm_threadVirial (loc m)) = (6 * Z.to_nat c_threadsPerBlock)%nat
      /\ (6 <= length (a_virialScaled (dev m)))%nat).

Definition inside (numAtoms : nat) (c : ThreadConst) : Prop :=
  (0 <= threadInBlock c < c_threadsPerBlock)%Z
  /\ (isDummyThread c = false ->
      (0 <= atom_i c < Z.of_nat numAtoms)%Z /\ (0 <= atom_j c < Z.of_nat numAtoms)%Z).

Definition settled (numAtoms : nat) (s : State) : Prop :=
  Forall (fun t => inside numAtoms (fst t)) (fst s) /\ roomy numAtoms (snd s).

(** The entry [k] of the constraints can be collected: a dummy, or a pair of
    atoms with inverse masses of positive sum and apart at the positions
    [a_x]. *)
Definition constraintReady (d : DeviceBuffers) (k : Z) : Prop :=
  match load (a_constraints d) k with
  | None => False
  | Some ap =>
      if (pair_i ap =? -1)%Z then True
      else
        match load (a_constraintsTargetLengths d) k,
              load (a_inverseMasses d) (pair_i ap),
              load (a_inverseMasses d) (pair_j ap),
              load (a_x d) (pair_i ap), load (a_x d) (pair_j ap) with
        | Some _, Some wi, Some wj, Some pi, Some pj =>
            0 < wi + wj
            /\ 0 < dot3 (pbcDxAiucSycl pbcAiuc pi pj) (pbcDxAiucSycl pbcAiuc pi pj)
        | _, _, _, _, _ => False
        end
  end.

(** The row [k] of the coupling matrix can be written: its entries of the
    coupled constraints, of the mass factors and of the matrix are inside the
    buffers, and the coupled constraints are work-items of the group. *)
Definition couplingReady (d : DeviceBuffers) (k : Z) : Prop :=
  match load (a_coupledConstraintsCounts d) k with
  | None => False
  | Some count =>
      forall n, (0 <= n < count)%Z ->
        let index := (n * numConstraintsThreads + k)%Z in
        (index < Z.of_nat (length (a_massFactors d)))%Z
        /\ (index < Z.of_nat (length (a_matrixA d)))%Z
        /\ exists c1, load (a_coupledConstraintsIndices d) index = Some c1
                      /\ (0 <= c1 < c_threadsPerBlock)%Z
  end.

(** The buffers as the rows of the matrix and the right-hand side are written:
    what is only read is as in [d], and the extents are those of [numAtoms]
    atoms and of one work-group. *)
Definition rowsWritable (d : DeviceBuffers) (numAtoms : nat) (m : Memory) : Prop :=
  readOnlyKept d (dev m)
  /\ length (a_matrixA (dev m)) = length (a_matrixA d)
  /\ length (a_xp (dev m)) = (3 * numAtoms)%nat
  /\ length (sm_r (loc m)) = Z.to_nat c_threadsPerBlock
  /\ length (sm_rhs (loc m)) = Z.to_nat c_threadsPerBlock.

(** The entry [n] of the row of a work-item in the coupling matrix: the mass
    factor times the product of its direction with the direction, in [r], of
    the coupled constraint (lines 241-246). *)
Definition matrixEntry (d : DeviceBuffers) (r : list Float3) (c : ThreadConst) (n : Z) : R :=
  let index := Z.to_nat (n * numConstraintsThreads + threadIndex c) in
  nth index (a_massFactors d) 0
  * dot3 (rc c)
      (nth (Z.to_nat (nth index (a_coupledConstraintsIndices d) 0%Z)) r zero3).

(** The atoms of the entry [k] of the constraints. *)
Definition atomsAt (d : DeviceBuffers) (k : Z) : list Z :=
  match load (a_constraints d) k with
  | Some ap => if (pair_i ap =? -1)%Z then [] else [pair_i ap; pair_j ap]
  | None => []
  end.

(** *** The expansion of the matrix

    The coupling matrix [A] as the loops of the expansion read it: the row of
    a work-item has [coupledConstraintsCount] entries; the entry [n] is
    [a_matrixA[index]], in the column [a_coupledConstraintsIndices[index]],
    for [index = n * numConstraintsThreads + threadIndex]. *)
Definition coupling (d : DeviceBuffers) (c : ThreadConst) (x : Z -> R) (n : nat) : R :=
  let index := Z.to_nat (Z.of_nat n * numConstraintsThreads + threadIndex c) in
  nth index (a_matrixA d) 0 * x (nth index (a_coupledConstraintsIndices d) 0%Z).

Definition rowTimes (d : DeviceBuffers) (row : ThreadConst * Z) (x : Z -> R) : R :=
  fold_left (fun mvb n => mvb + coupling d (fst row) x n) (seq 0 (Z.to_nat (snd row))) 0.

Definition rowsOf (ths : list Thread) : list (ThreadConst * Z) :=
  map (fun t => (fst t, coupledConstraintsCount (snd t))) ths.

Definition solOf (t : Thread) : R := sol (snd t).

Definition vecOf (l : list R) (p : Z) : R := nth (Z.to_nat p) l 0.

Definition matTimes (d : DeviceBuffers) (rows : list (ThreadConst * Z)) (x : Z -> R)
  : list R :=
  map (fun row => rowTimes d row x) rows.

Definition addVec (x y : list R) : list R :=
  map (fun p => fst p + snd p) (combine x y).

(** The recurrence in the words of the specification (section 4.3, step 4):
    [s_0 = b], [s_{k+1} = b + A s_k]. *)
Fixpoint neumann (d : DeviceBuffers) (rows : list (ThreadConst * Z)) (b : list R)
         (k : nat) : list R :=
  match k with
  | O => b
  | S k' => addVec b (matTimes d rows (vecOf (neumann d rows b k')))
  end.

(** The term [A^k b] of the series. *)
Fixpoint neumannTerm (d : DeviceBuffers) (rows : list (ThreadConst * Z)) (b : list R)
         (k : nat) : list R :=
  match k with
  | O => b
  | S k' => matTimes d rows (vecOf (neumannTerm d rows b k'))
  end.

(** The entries of a row are inside the buffers and name work-items of the
    group. *)
Definition coupledInside (d : DeviceBuffers) (row : ThreadConst * Z) : Prop :=
  forall n, (n < Z.to_nat (snd row))%nat ->
    let index := (Z.of_nat n * numConstraintsThreads + threadIndex (fst row))%Z in
    (0 <= index < Z.of_nat (length (a_matrixA d)))%Z
    /\ (0 <= index < Z.of_nat (length (a_coupledConstraintsIndices d)))%Z
    /\ (0 <= nth (Z.to_nat index) (a_coupledConstraintsIndices d) 0
         < c_threadsPerBlock)%Z.

(** The half [h] of a right-hand-side buffer of two halves. *)
Definition rhsHalf (rhs : list R) (h : Z) (p : Z) : R :=
  nth (Z.to_nat (p + c_threadsPerBlock * h)) rhs 0.

(** The work-items and the buffers after a run ([d] itself, and no work-item,
    where the run has no result). *)
Definition threadsOf (d : DeviceBuffers) : list Thread :=
  match lincsKernelTrace d with
  | Some (ths, _) => ths
  | None => []
  end.

Definition buffersAfter (d : DeviceBuffers) : DeviceBuffers :=
  match lincsKernel d with
  | Some d' => d'
  | None => d
  end.

(** ** The launch from the host

    [launchLincsGpuKernel] (lines 517-552).  The buffers of positions and
    velocities hold [Float3] elements; the kernel gets them reinterpreted as
    buffers of [count * DIM] floats over the same memory.  The fields of
    [kernelParams] are declared in lincs_gpu.h, outside of the file: the device
    buffers are the fields of [LincsGpuKernelParameters] below, the scalars
    ([haveCoupledConstraints], [numConstraintsThreads], [numIterations],
    [expansionOrder], [pbcAiuc]) are the variables of the section, as are the
    arguments [updateVelocities], [invdt] and [computeVirial].  The selection
    of the template instance from the three flags ([launchLincsKernel], lines
    501-514) is the application of the kernel to them. *)

Record LincsGpuKernelParameters := mkLincsGpuKernelParameters {
  d_constraints : list AtomPair;
  d_constraintsTargetLengths : list R;
  d_coupledConstraintsCounts : list Z;
  d_coupledConstraintsIndices : list Z;
  d_massFactors : list R;
  d_matrixA : list R;
  d_inverseMasses : list R;
  d_virialScaled : list R
}.

(** [buffer.reinterpret<float, 1>(count * DIM)]: the floats of the elements,
    one element after the other. *)
Definition reinterpretFloat (b : list Float3) : list R :=
  flat_map (fun p => [p.[XX]; p.[YY]; p.[ZZ]]) b.

(** The elements that a buffer of floats holds, read three floats at a time. *)
Fixpoint viewFloat3 (a : list R) : list Float3 :=
  match a with
  | x :: y :: z :: rest => mkFloat3 x y z :: viewFloat3 rest
  | _ => []
  end.

(** The accessors that the kernel gets. *)
Definition kernelArguments (kernelParams : LincsGpuKernelParameters)
           (d_x d_xp d_v : list Float3) : DeviceBuffers :=
  let d_xpAsFloat := reinterpretFloat d_xp in
  let d_vAsFloat := reinterpretFloat d_v in
  {| a_constraints := d_constraints kernelParams;
     a_constraintsTargetLengths := d_constraintsTargetLengths kernelParams;
     a_coupledConstraintsCounts := d_coupledConstraintsCounts kernelParams;
     a_coupledConstraintsIndices := d_coupledConstraintsIndices kernelParams;
     a_massFactors := d_massFactors kernelParams;
     a_matrixA := d_matrixA kernelParams;
     a_inverseMasses := d_inverseMasses kernelParams;
     a_x := d_x;
     a_xp := d_xpAsFloat;
     a_v := d_vAsFloat;
     a_virialScaled := d_virialScaled kernelParams |}.

(** The buffers once the kernel has run: those of [kernelParams], [d_xp] and
    [d_v]. *)
Definition launchLincsGpuKernel (kernelParams : LincsGpuKernelParameters)
           (d_x d_xp d_v : list Float3)
  : option (LincsGpuKernelParameters * list Float3 * list Float3) :=
  d' <- lincsKernel (kernelArguments kernelParams d_x d_xp d_v) ;;
  Some ({| d_constraints := a_constraints d';
           d_constraintsTargetLengths := a_constraintsTargetLengths d';
           d_coupledConstraintsCounts := a_coupledConstraintsCounts d';
           d_coupledConstraintsIndices := a_coupledConstraintsIndices d';
           d_massFactors := a_massFactors d';
           d_matrixA := a_matrixA d';
           d_inverseMasses := a_inverseMasses d';
           d_virialScaled := a_virialScaled d' |},
        viewFloat3 (a_xp d'), viewFloat3 (a_v d')).

(** The buffers after the launch (those before it, where it has no result). *)
Definition launched (kernelParams : LincsGpuKernelParameters)
           (d_x d_xp d_v : list Float3)
  : LincsGpuKernelParameters * list Float3 * list Float3 :=
  match launchLincsGpuKernel kernelParams d_x d_xp d_v with
  | Some after => after
  | None => (kernelParams, d_xp, d_v)
  end.

(** The sum over the first [n] atoms of mass times position (or velocity). *)
Definition weightedSum (n : nat) (masses : list R) (a : list Float3) : Float3 :=
  mkFloat3 (sumBelow n (fun k => nth k masses 0 * (nth k a zero3).[XX]))
           (sumBelow n (fun k => nth k masses 0 * (nth k a zero3).[YY]))
           (sumBelow n (fun k => nth k masses 0 * (nth k a zero3).[ZZ])).

(** ** Examples

    The test system [two disjoint constraints] as the host has it, before and
    after a launch; a tolerance on the absolute difference; a work-group of
    two constraints coupled to each other, with room for both halves of
    [sm_rhs]. *)

Definition twoDisjointParameters : LincsGpuKernelParameters :=
  {| d_constraints := a_constraints twoDisjointConstraints;
     d_constraintsTargetLengths := a_constraintsTargetLengths twoDisjointConstraints;
     d_coupledConstraintsCounts := a_coupledConstraintsCounts twoDisjointConstraints;
     d_coupledConstraintsIndices := a_coupledConstraintsIndices twoDisjointConstraints;
     d_massFactors := a_massFactors twoDisjointConstraints;
     d_matrixA := a_matrixA twoDisjointConstraints;
     d_inverseMasses := a_inverseMasses twoDisjointConstraints;
     d_virialScaled := a_virialScaled twoDisjointConstraints |}.

Definition twoDisjointX : list Float3 := a_x twoDisjointConstraints.

Definition twoDisjointXPrime : list Float3 := viewFloat3 (a_xp twoDisjointConstraints).

Definition twoDisjointV : list Float3 := viewFloat3 (a_v twoDisjointConstraints).

Definition twoDisjointTestData : ConstraintsTestData :=
  {| numAtoms_ := 4;
     masses_ := twoDisjointMasses;
     constraints_ := [0; 0; 1; 1; 2; 3]%Z;
     constraintsR0_ := [2; 1];
     x_ := twoDisjointX;
     xPrime_ := twoDisjointXPrime;
     xPrime0_ := twoDisjointXPrime;
     v_ := twoDisjointV;
     v0_ := twoDisjointV |}.

(** The data of a test once a launch has constrained its positions and
    velocities. *)
Definition afterLaunch (testData : ConstraintsTestData)
           (kernelParams : LincsGpuKernelParameters) : ConstraintsTestData :=
  let after := launched kernelParams (x_ testData) (xPrime0_ testData) (v0_ testData) in
  {| numAtoms_ := numAtoms_ testData;
     masses_ := masses_ testData;
     constraints_ := constraints_ testData;
     constraintsR0_ := constraintsR0_ testData;
     x_ := x_ testData;
     xPrime_ := snd (fst after);
     xPrime0_ := xPrime0_ testData;
     v_ := snd after;
     v0_ := v0_ testData |}.

Definition withinAbsolute (tolerance a b : R) : bool :=
  if Rle_dec (Rabs (a - b)) tolerance then true else false.

Definition coupledPairThreads : list Thread :=
  [(mkThreadConst 0 0 0 1 false 1 1 1 1 zero3, mkThreadVars zero3 zero3 1 3 0);
   (mkThreadConst 1 1 1 2 false 1 1 1 1 zero3, mkThreadVars zero3 zero3 1 5 0)].

Definition coupledPairMemory : Memory :=
  {| loc := {| sm_r := [zero3; zero3]; sm_rhs := [3; 5; 0; 0]; sm_threadVirial := [] |};
     dev := {| a_constraints := [mkAtomPair 0 1; mkAtomPair 1 2];
               a_constraintsTargetLengths := [1; 1];
               a_coupledConstraintsCounts := [1; 1]%Z;
               a_coupledConstraintsIndices := [1; 0]%Z;
               a_massFactors := [1 / 2; 1 / 4];
               a_matrixA := [1 / 2; 1 / 4];
               a_inverseMasses := [1; 1; 1];
               a_x := [];
               a_xp := [];
               a_v := [];
               a_virialScaled := [] |} |}.

(** A work-item to stand for one that a list does not have. *)
Definition noThread : Thread :=
  (mkThreadConst 0 0 (-1) (-1) true 0 0 0 0 zero3, mkThreadVars zero3 zero3 0 0 0).

(** Two atoms at their target length, for a work-group of two. *)
Definition restingPair : DeviceBuffers :=
  {| a_constraints := [mkAtomPair 0 1; mkAtomPair (-1) (-1)];
     a_constraintsTargetLengths := [1; 0];
     a_coupledConstraintsCounts := [0; 0]%Z;
     a_coupledConstraintsIndices := [];
     a_massFactors := [];
     a_matrixA := [];
     a_inverseMasses := [1; 1];
     a_x := [mkFloat3 1 0 0; mkFloat3 0 0 0];
     a_xp := [1; 0; 0; 0; 0; 0];
     a_v := [0; 0; 0; 0; 0; 0];
     a_virialScaled := [0; 0; 0; 0; 0; 0] |}.

(** Three atoms in a row and the two constraints between them, coupled at the
    atom in the middle, for a work-group of two. *)
Definition coupledTriple : DeviceBuffers :=
  {| a_constraints := [mkAtomPair 0 1; mkAtomPair 1 2];
     a_constraintsTargetLengths := [1; 1];
     a_coupledConstraintsCounts := [1; 1]%Z;
     a_coupledConstraintsIndices := [1; 0]%Z;
     a_massFactors := [1 / 2; 1 / 2];
     a_matrixA := [0; 0];
     a_inverseMasses := [1; 1; 1];
     a_x := [mkFloat3 0 0 0; mkFloat3 1 0 0; mkFloat3 2 0 0];
     a_xp := [0; 0; 0; 11 / 10; 0; 0; 2; 1 / 10; 0];
     a_v := [0; 0; 0; 0; 0; 0; 0; 0; 0];
     a_virialScaled := [0; 0; 0; 0; 0; 0] |}.

(** ** The result of a launch, read off its buffers

    One work-group, no coupled constraints, no atom in two constraints: each
    work-item then works on its two atoms alone, and what it computes is a
    function of the buffers at the launch. *)

(** The indices of the entries of the constraints that the launch runs. *)
Definition entries : list Z := map Z.of_nat (seq 0 (Z.to_nat numConstraintsThreads)).

(** The private constants of the work-item of the entry [k] of the first
    work-group, as lines 177-224 assign them. *)
Definition constAt (d : DeviceBuffers) (k : Z) : ThreadConst :=
  let pair := nth (Z.to_nat k) (a_constraints d) (mkAtomPair (-1) (-1)) in
  let i := pair_i pair in
  let j := pair_j pair in
  if (i =? -1)%Z then mkThreadConst k k i j true 0 0 0 0 zero3
  else
    let imi := nth (Z.to_nat i) (a_inverseMasses d) 0 in
    let imj := nth (Z.to_nat j) (a_inverseMasses d) 0 in
    let dx := pbcDxAiucSycl pbcAiuc (nth (Z.to_nat i) (a_x d) zero3)
                (nth (Z.to_nat j) (a_x d) zero3) in
    mkThreadConst k k i j false
      (nth (Z.to_nat k) (a_constraintsTargetLengths d) 0) imi imj
      (/ sqrt (imi + imj))
      (scale (/ sqrt (dx.[XX] * dx.[XX] + dx.[YY] * dx.[YY] + dx.[ZZ] * dx.[ZZ])) dx).

(** The multiplier [lagrangeScaled] that the work-item of the entry [k] has
    accumulated at the end: [sqrtReducedMass * sol] of the projection (lines
    263 and 297) plus [sqrtReducedMass * sol] of each of the [numIterations]
    centripetal corrections (lines 339-381); zero for a dummy. *)
Definition multiplierAt (d : DeviceBuffers) (k : Z) : R :=
  if isDummyThread (constAt d k) then 0
  else lamAfter (a_xp d) (constAt d k) (Z.to_nat numIterations).


(** What the entries add to the component [k] of the virial (lines 428-434). *)
Definition virialOf (d : DeviceBuffers) (k : nat) : R :=
  fold_right Rplus 0
    (map (fun c => targetLength (constAt d c) * multiplierAt d c
                   * (rc (constAt d c)).[fst (virialComponent k)]
                   * (rc (constAt d c)).[snd (virialComponent k)]) entries).

(** No atom is in two entries of the constraints. *)
Definition exclusiveAt (d : DeviceBuffers) : Prop :=
  NoDup (concat (map (atomsAt d) entries)).

(** The entries of the constraints that are not dummies. *)
Definition realEntries (d : DeviceBuffers) : list Z :=
  filter (fun k => negb (isDummyThread (constAt d k))) entries.









(** * Properties *)

(** ** Buffers *)

Section BufferFacts.
Context {A : Type}.
Implicit Types (a : list A) (k : Z) (n : nat) (v : A).

Lemma inRange_true a k :
  inRange a k = true <-> (0 <= k < Z.of_nat (length a))%Z.
Proof. unfold inRange. rewrite andb_true_iff, Z.leb_le, Z.ltb_lt. tauto. Qed.

Lemma length_update n v a : length (update n v a) = length a.
Proof.
  revert n; induction a as [|h t IH]; intros [|n]; simpl; auto.
Qed.

Lemma nth_update n v a p (dflt : A) :
  nth p (update n v a) dflt
  = if (Nat.eqb p n && Nat.ltb n (length a))%bool then v else nth p a dflt.
Proof.
  revert n p; induction a as [|h t IH]; intros n p.
  - simpl. rewrite andb_false_r. destruct n, p; reflexivity.
  - destruct n as [|n], p as [|p]; simpl; try reflexivity.
    rewrite IH. reflexivity.
Qed.

Lemma load_Some a k v :
  load a k = Some v ->
  (0 <= k < Z.of_nat (length a))%Z /\ forall dflt, nth (Z.to_nat k) a dflt = v.
Proof.
  unfold load. destruct (inRange a k) eqn:E; [|discriminate].
  apply inRange_true in E. intros H. split; [exact E|].
  intros dflt. apply nth_error_nth. exact H.
Qed.

Lemma load_inRange a k (dflt : A) :
  (0 <= k < Z.of_nat (length a))%Z -> load a k = Some (nth (Z.to_nat k) a dflt).
Proof.
  intros H. unfold load. rewrite (proj2 (inRange_true a k) H).
  apply nth_error_nth'. lia.
Qed.

Lemma store_Some a k v a' :
  store a k v = Some a' ->
  (0 <= k < Z.of_nat (length a))%Z /\ a' = update (Z.to_nat k) v a.
Proof.
  unfold store. destruct (inRange a k) eqn:E; [|discriminate].
  apply inRange_true in E. intros H. injection H as <-. auto.
Qed.

Lemma store_outside a k v :
  (Z.of_nat (length a) <= k)%Z -> store a k v = None.
Proof.
  intros H. unfold store, inRange.
  replace (k <? Z.of_nat (length a))%Z with false by (symmetry; apply Z.ltb_ge; lia).
  rewrite andb_false_r. reflexivity.
Qed.

Lemma store_length a k v a' : store a k v = Some a' -> length a' = length a.
Proof. intros H. apply store_Some in H as [_ ->]. apply length_update. Qed.
End BufferFacts.

Lemma atomicFetchAdd_Some a k v a' :
  atomicFetchAdd a k v = Some a' ->
  (0 <= k < Z.of_nat (length a))%Z /\ length a' = length a
  /\ forall n, nth n a' 0 = nth n a 0 + cellAdd k v n.
Proof.
  unfold atomicFetchAdd. intros H. monad_inv H.
  apply load_Some in E as [Hk Hv]. apply store_Some in H as [_ ->].
  split; [exact Hk|]. split; [apply length_update|].
  intros n. rewrite nth_update. unfold cellAdd.
  destruct (Z.of_nat n =? k)%Z eqn:En.
  - apply Z.eqb_eq in En. subst k. rewrite Nat2Z.id in *.
    rewrite Nat.eqb_refl. simpl.
    replace (n <? length a)%nat with true by (symmetry; apply Nat.ltb_lt; lia).
    rewrite (Hv 0). reflexivity.
  - apply Z.eqb_neq in En.
    replace (n =? Z.to_nat k)%nat with false by (symmetry; apply Nat.eqb_neq; lia).
    simpl. lra.
Qed.

(** ** Centripetal projection *)

Lemma rsqrt_pos x : 0 < x -> rsqrt x = Some (/ sqrt x).
Proof. intros H. unfold rsqrt. destruct (Rlt_dec 0 x); [reflexivity | contradiction]. Qed.

Lemma rsqrt_Some x y : rsqrt x = Some y -> 0 < x /\ y = / sqrt x.
Proof.
  unfold rsqrt. destruct (Rlt_dec 0 x); intros H; [|discriminate].
  injection H as <-. auto.
Qed.

Lemma times_rsqrt x : 0 < x -> x * / sqrt x = sqrt x.
Proof.
  intros H. assert (Hs : 0 < sqrt x) by (apply sqrt_lt_R0; exact H).
  rewrite <- (sqrt_sqrt x) at 1 by lra. field. lra.
Qed.

(** C6.  In a centripetal iteration the right-hand side of the projection is
    computed from [dlen2 = 2*r0^2 - |dx|^2]; it is
    [sqrtReducedMass * (r0 - sqrt dlen2)] when [dlen2 > 0] and
    [sqrtReducedMass * r0] otherwise.  The reciprocal square root is only taken
    of a strictly positive [dlen2]: the computation has a value for every
    input. *)
Theorem centripetalProjection_total (sqrtReducedMass r0 : R) (dx : Float3) :
  centripetalProjection sqrtReducedMass r0 dx
  = Some (if Rlt_dec 0 (2 * (r0 * r0) - dot3 dx dx)
          then sqrtReducedMass * (r0 - sqrt (2 * (r0 * r0) - dot3 dx dx))
          else sqrtReducedMass * r0).
Proof.
  unfold centripetalProjection, dot3.
  destruct (Rlt_dec 0 _) as [Hpos|Hneg]; [|reflexivity].
  rewrite (rsqrt_pos _ Hpos). unfold bind.
  rewrite (times_rsqrt _ Hpos). reflexivity.
Qed.

(** ** Induction over the work-items and over the loops *)

Section StepInduction.
Variables P P' : Thread -> Prop.
Variable Rel : State -> State -> Prop.
Hypothesis Rel_refl : forall s, Rel s s.
Hypothesis Rel_trans : forall a b c, Rel a b -> Rel b c -> Rel a c.

Lemma forThreads_pre step :
  stepRespects P P' Rel step ->
  forall ths pre m ths' m',
    Forall P ths -> forThreads step ths m = Some (ths', m') ->
    Forall P' ths' /\ map fst ths' = map fst ths
    /\ Rel (pre ++ ths, m) (pre ++ ths', m').
Proof.
  intros Hstep. induction ths as [|[c v] rest IH]; intros pre m ths' m' HP H.
  - simpl in H. injection H as <- <-. auto.
  - simpl in H. monad_inv H. subst ths' m'.
    inversion HP as [|? ? Hc Hrest]; subst.
    destruct (Hstep pre c v rest m _ _ Hc E) as [Hc' HR].
    destruct (IH (pre ++ [(c, t)]) _ _ _ Hrest E0) as (HF & Hm & HR').
    rewrite <- !app_assoc in HR'. simpl in HR'.
    split; [constructor; assumption|].
    split; [simpl; congruence|].
    eapply Rel_trans; eassumption.
Qed.

Lemma forThreads_ind step ths m ths' m' :
  stepRespects P P' Rel step ->
  Forall P ths -> forThreads step ths m = Some (ths', m') ->
  Forall P' ths' /\ map fst ths' = map fst ths /\ Rel (ths, m) (ths', m').
Proof. intros Hstep HP H. exact (forThreads_pre step Hstep ths [] m ths' m' HP H). Qed.
End StepInduction.

Lemma forLoop_ind {S : Type} (Inv : S -> Prop) (Rl : S -> S -> Prop)
      (body : Z -> S -> option S) :
  (forall s, Rl s s) ->
  (forall a b c, Rl a b -> Rl b c -> Rl a c) ->
  (forall n s s', Inv s -> body n s = Some s' -> Inv s' /\ Rl s s') ->
  forall count n s s',
    Inv s -> forLoop body count n s = Some s' -> Inv s' /\ Rl s s'.
Proof.
  intros Hrefl Htrans Hbody. induction count as [|count IH]; intros n s s' HI H.
  - simpl in H. injection H as <-. auto.
  - simpl in H. monad_inv H.
    destruct (Hbody _ _ _ HI E) as [HI1 HR1].
    destruct (IH _ _ _ HI1 H) as [HI2 HR2].
    split; [assumption|]. eapply Htrans; eassumption.
Qed.

(** ** Frames *)

Ltac keeps_tac := unfold keeps, readOnlyKept in *; simpl in *; intuition congruence.

Lemma keeps_refl wA wXp wV wVir d : keeps wA wXp wV wVir d d.
Proof. keeps_tac. Qed.

Lemma keeps_trans wA wXp wV wVir d1 d2 d3 :
  keeps wA wXp wV wVir d1 d2 -> keeps wA wXp wV wVir d2 d3 -> keeps wA wXp wV wVir d1 d3.
Proof. keeps_tac. Qed.

Lemma keeps_weaken (wA wXp wV wVir wA' wXp' wV' wVir' : bool) d d' :
  keeps wA wXp wV wVir d d' ->
  (wA = true -> wA' = true) -> (wXp = true -> wXp' = true) ->
  (wV = true -> wV' = true) -> (wVir = true -> wVir' = true) ->
  keeps wA' wXp' wV' wVir' d d'.
Proof.
  intros H HA HX HV HR.
  destruct wA, wA'; try (specialize (HA eq_refl); discriminate);
  destruct wXp, wXp'; try (specialize (HX eq_refl); discriminate);
  destruct wV, wV'; try (specialize (HV eq_refl); discriminate);
  destruct wVir, wVir'; try (specialize (HR eq_refl); discriminate);
  keeps_tac.
Qed.

Lemma keeps_same wA wXp wV wVir d d' : d' = d -> keeps wA wXp wV wVir d d'.
Proof. intros ->. apply keeps_refl. Qed.

(** ** The six atomic updates *)

Lemma cellAdd_scale k s x n : cellAdd k (s * x) n = s * cellAdd k x n.
Proof. unfold cellAdd. destruct (Z.of_nat n =? k)%Z; ring. Qed.

Lemma corrOf_times c u s n : corrOf c (times u s) n = s * corrOf c u n.
Proof.
  unfold corrOf, times. simpl.
  replace (- (u.[XX] * s) * inverseMassi c) with (s * (- u.[XX] * inverseMassi c)) by ring.
  replace (- (u.[YY] * s) * inverseMassi c) with (s * (- u.[YY] * inverseMassi c)) by ring.
  replace (- (u.[ZZ] * s) * inverseMassi c) with (s * (- u.[ZZ] * inverseMassi c)) by ring.
  replace (u.[XX] * s * inverseMassj c) with (s * (u.[XX] * inverseMassj c)) by ring.
  replace (u.[YY] * s * inverseMassj c) with (s * (u.[YY] * inverseMassj c)) by ring.
  replace (u.[ZZ] * s * inverseMassj c) with (s * (u.[ZZ] * inverseMassj c)) by ring.
  rewrite !cellAdd_scale. ring.
Qed.

Lemma corrOf_zero c n : corrOf c zero3 n = 0.
Proof.
  unfold corrOf, cellAdd, zero3. simpl.
  repeat match goal with |- context [if ?b then _ else _] => destruct b end; ring.
Qed.

Lemma unitCorrection_dummy c n :
  wfConst c -> isDummyThread c = true -> unitCorrection c n = 0.
Proof.
  intros Hwf Hd. destruct (Hwf Hd) as (_ & _ & _ & _ & _ & Hrc).
  unfold unitCorrection. rewrite Hrc. apply corrOf_zero.
Qed.

Lemma addCorrection_Some a c tmp a' :
  addCorrection a c tmp = Some a' ->
  length a' = length a
  /\ (forall n, nth n a' 0 = nth n a 0 + corrOf c tmp n)
  /\ (0 <= atom_i c /\ atom_i c * DIM + 2 < Z.of_nat (length a))%Z
  /\ (0 <= atom_j c /\ atom_j c * DIM + 2 < Z.of_nat (length a))%Z.
Proof.
  unfold addCorrection. intros H. monad_inv H.
  repeat match goal with
         | H : atomicFetchAdd _ _ _ = Some _ |- _ =>
             apply atomicFetchAdd_Some in H; destruct H as (? & ? & ?)
         end.
  unfold DIM, dimIndex in *.
  split; [congruence|]. split; [|lia].
  intros n. unfold corrOf, DIM, dimIndex.
  repeat match goal with H : forall n, nth n _ 0 = _ |- _ => rewrite (H n); clear H end.
  ring.
Qed.

Lemma totalCorrection_app ths1 ths2 n :
  totalCorrection (ths1 ++ ths2) n = totalCorrection ths1 n + totalCorrection ths2 n.
Proof.
  induction ths1 as [|[c v] rest IH]; simpl; [ring | rewrite IH; ring].
Qed.

Lemma totalCorrection_mid pre c v post n :
  totalCorrection (pre ++ (c, v) :: post) n
  = totalCorrection pre n + lagrangeScaled v * unitCorrection c n + totalCorrection post n.
Proof. rewrite totalCorrection_app. simpl. ring. Qed.

Lemma movesPositions_refl wA s : movesPositions wA s s.
Proof. split; [apply keeps_refl | reflexivity]. Qed.

Lemma movesPositions_trans wA s1 s2 s3 :
  movesPositions wA s1 s2 -> movesPositions wA s2 s3 -> movesPositions wA s1 s3.
Proof.
  intros [K1 H1] [K2 H2]. split; [eapply keeps_trans; eassumption|].
  intros n. specialize (H1 n). specialize (H2 n). lra.
Qed.

(** ** What each step does *)

Lemma constructMatrixA_spec c count m m' :
  constructMatrixA c count m = Some m' ->
  loc m' = loc m /\ keeps true false false false (dev m) (dev m').
Proof.
  unfold constructMatrixA, forRange. intros H.
  apply (forLoop_ind (fun _ => True)
           (fun m m' => loc m' = loc m /\ keeps true false false false (dev m) (dev m')))
    in H; [tauto | | | | exact I].
  - intros s. split; [reflexivity | apply keeps_refl].
  - intros s1 s2 s3 [L1 K1] [L2 K2]. split; [congruence | eapply keeps_trans; eassumption].
  - intros n s s' _ Hb. monad_inv Hb. subst s'. split; [exact I|].
    apply store_length in E2. split; [reflexivity|]. keeps_tac.
Qed.

Lemma projectionStep_spec c v m v' m' :
  projectionStep c v m = Some (v', m') ->
  lagrangeScaled v' = lagrangeScaled v
  /\ keeps haveCoupledConstraints false false false (dev m) (dev m')
  /\ sm_r (loc m') = sm_r (loc m)
  /\ length (sm_rhs (loc m')) = length (sm_rhs (loc m))
  /\ sm_threadVirial (loc m') = sm_threadVirial (loc m).
Proof.
  unfold projectionStep. intros H. monad_inv H. subst v' m'. simpl.
  apply store_length in E1.
  destruct haveCoupledConstraints.
  - monad_inv E. subst. apply constructMatrixA_spec in E3 as [HL HK].
    rewrite HL in *. auto.
  - injection E as <- <-. repeat split; auto; keeps_tac.
Qed.

Lemma expansionStep_spec rec c v m v' m' :
  expansionStep rec c v m = Some (v', m') ->
  lagrangeScaled v' = lagrangeScaled v
  /\ coupledConstraintsCount v' = coupledConstraintsCount v
  /\ dev m' = dev m
  /\ sm_r (loc m') = sm_r (loc m)
  /\ length (sm_rhs (loc m')) = length (sm_rhs (loc m))
  /\ sm_threadVirial (loc m') = sm_threadVirial (loc m).
Proof.
  unfold expansionStep. intros H. monad_inv H. subst v' m'. simpl.
  apply store_length in E0. repeat split; auto.
Qed.

Lemma centripetalStep_spec c v m v' m' :
  centripetalStep c v m = Some (v', m') ->
  lagrangeScaled v' = lagrangeScaled v
  /\ coupledConstraintsCount v' = coupledConstraintsCount v
  /\ dev m' = dev m
  /\ sm_r (loc m') = sm_r (loc m)
  /\ length (sm_rhs (loc m')) = length (sm_rhs (loc m))
  /\ sm_threadVirial (loc m') = sm_threadVirial (loc m).
Proof.
  unfold centripetalStep. intros H. monad_inv H. subst v' m'. simpl.
  apply store_length in E1. repeat split; auto.
Qed.

Lemma correctPositions_spec c v m v' m' :
  wfConst c ->
  correctPositions c v m = Some (v', m') ->
  lagrangeScaled v' = sqrtReducedMass c * sol v
  /\ loc m' = loc m
  /\ keeps false true false false (dev m) (dev m')
  /\ forall n, nth n (a_xp (dev m')) 0
               = nth n (a_xp (dev m)) 0 + lagrangeScaled v' * unitCorrection c n.
Proof.
  unfold correctPositions. intros Hwf H.
  destruct (isDummyThread c) eqn:Hd.
  - injection H as <- <-. simpl.
    split; [reflexivity|]. split; [reflexivity|]. split; [apply keeps_refl|].
    intros n. rewrite (unitCorrection_dummy c n Hwf Hd). ring.
  - monad_inv H. subst v' m'. simpl.
    apply addCorrection_Some in E as (HL & Hn & _).
    split; [reflexivity|]. split; [reflexivity|]. split; [keeps_tac|].
    intros n. rewrite Hn, corrOf_times. reflexivity.
Qed.

Lemma correctRotation_spec c v m v' m' :
  wfConst c ->
  correctRotation c v m = Some (v', m') ->
  lagrangeScaled v' = lagrangeScaled v + sqrtReducedMass c * sol v
  /\ loc m' = loc m
  /\ keeps false true false false (dev m) (dev m')
  /\ forall n, nth n (a_xp (dev m')) 0
               = nth n (a_xp (dev m)) 0
                 + (lagrangeScaled v' - lagrangeScaled v) * unitCorrection c n.
Proof.
  unfold correctRotation. intros Hwf H.
  destruct (isDummyThread c) eqn:Hd.
  - injection H as <- <-. simpl.
    split; [reflexivity|]. split; [reflexivity|]. split; [apply keeps_refl|].
    intros n. rewrite (unitCorrection_dummy c n Hwf Hd). ring.
  - monad_inv H. subst v' m'. simpl.
    apply addCorrection_Some in E as (HL & Hn & _).
    split; [reflexivity|]. split; [reflexivity|]. split; [keeps_tac|].
    intros n. rewrite Hn, corrOf_times. unfold unitCorrection. ring.
Qed.

Lemma updateVelocityStep_spec c v m v' m' :
  wfConst c ->
  updateVelocityStep c v m = Some (v', m') ->
  v' = v
  /\ loc m' = loc m
  /\ keeps false false true false (dev m) (dev m')
  /\ forall n, nth n (a_v (dev m')) 0
               = nth n (a_v (dev m)) 0 + invdt * (lagrangeScaled v * unitCorrection c n).
Proof.
  unfold updateVelocityStep. intros Hwf H.
  destruct (isDummyThread c) eqn:Hd.
  - injection H as <- <-.
    split; [reflexivity|]. split; [reflexivity|]. split; [apply keeps_refl|].
    intros n. rewrite (unitCorrection_dummy c n Hwf Hd). ring.
  - monad_inv H. subst v' m'. simpl.
    apply addCorrection_Some in E as (HL & Hn & _).
    split; [reflexivity|]. split; [reflexivity|]. split; [keeps_tac|].
    intros n. rewrite Hn, !corrOf_times. unfold unitCorrection. ring.
Qed.

(** ** The positions through the phases *)

Lemma movesRel_refl s : movesRel s s.
Proof. split; [reflexivity | apply movesPositions_refl]. Qed.

Lemma movesRel_trans s1 s2 s3 : movesRel s1 s2 -> movesRel s2 s3 -> movesRel s1 s3.
Proof.
  intros [C1 M1] [C2 M2]. split.
  - unfold sameConsts in *. congruence.
  - eapply movesPositions_trans; eassumption.
Qed.

Lemma quietStep (Q : ThreadConst -> R -> Prop) (step : Step) :
  (forall c v m v' m',
      step c v m = Some (v', m') ->
      lagrangeScaled v' = lagrangeScaled v
      /\ keeps haveCoupledConstraints false false false (dev m) (dev m')) ->
  stepRespects (lamPred Q) (lamPred Q) (movesPositions haveCoupledConstraints) step.
Proof.
  intros Hq pre c v post m v' m' HP H.
  destruct (Hq _ _ _ _ _ H) as [Hl Hk].
  split; [unfold lamPred in *; simpl in *; rewrite Hl; exact HP|].
  split; simpl.
  - eapply keeps_weaken; [exact Hk|..]; intros Hx; try discriminate; auto.
  - intros n. rewrite !totalCorrection_mid, Hl.
    destruct Hk as (_ & _ & Hxp & _). rewrite (Hxp eq_refl). ring.
Qed.

Lemma projectionStep_moves Q :
  stepRespects (lamPred Q) (lamPred Q) (movesPositions haveCoupledConstraints)
    projectionStep.
Proof.
  apply quietStep. intros c v m v' m' H.
  apply projectionStep_spec in H. tauto.
Qed.

Lemma expansionStep_moves Q rec :
  stepRespects (lamPred Q) (lamPred Q) (movesPositions haveCoupledConstraints)
    (expansionStep rec).
Proof.
  apply quietStep. intros c v m v' m' H.
  apply expansionStep_spec in H as (Hl & _ & Hd & _).
  split; [exact Hl | apply keeps_same; exact Hd].
Qed.

Lemma centripetalStep_moves Q :
  stepRespects (lamPred Q) (lamPred Q) (movesPositions haveCoupledConstraints)
    centripetalStep.
Proof.
  apply quietStep. intros c v m v' m' H.
  apply centripetalStep_spec in H as (Hl & _ & Hd & _).
  split; [exact Hl | apply keeps_same; exact Hd].
Qed.

Lemma correctPositions_moves :
  stepRespects freshThread wfThread (movesPositions haveCoupledConstraints)
    correctPositions.
Proof.
  intros pre c v post m v' m' [Hwf Hl0] H. simpl in Hwf, Hl0.
  apply (correctPositions_spec _ _ _ _ _ Hwf) in H as (Hl & _ & Hk & Hn).
  split.
  { split; simpl; [exact Hwf|]. intros Hd. rewrite Hl.
    destruct (Hwf Hd) as (_ & _ & _ & _ & -> & _). ring. }
  split; simpl.
  - eapply keeps_weaken; [exact Hk|..]; intros Hx; try discriminate; auto.
  - intros n. rewrite !totalCorrection_mid, Hn, Hl0. ring.
Qed.

Lemma correctRotation_moves :
  stepRespects wfThread wfThread (movesPositions haveCoupledConstraints)
    correctRotation.
Proof.
  intros pre c v post m v' m' [Hwf Hl0] H. simpl in Hwf, Hl0.
  apply (correctRotation_spec _ _ _ _ _ Hwf) in H as (Hl & _ & Hk & Hn).
  split.
  { split; simpl; [exact Hwf|]. intros Hd. rewrite Hl, (Hl0 Hd).
    destruct (Hwf Hd) as (_ & _ & _ & _ & -> & _). ring. }
  split; simpl.
  - eapply keeps_weaken; [exact Hk|..]; intros Hx; try discriminate; auto.
  - intros n. rewrite !totalCorrection_mid, Hn. ring.
Qed.

Lemma forThreads_moves P P' step ths m ths' m' :
  stepRespects P P' (movesPositions haveCoupledConstraints) step ->
  Forall P ths -> forThreads step ths m = Some (ths', m') ->
  Forall P' ths' /\ movesRel (ths, m) (ths', m').
Proof.
  intros Hs HP H.
  destruct (forThreads_ind P P' _ (movesPositions_refl _) (movesPositions_trans _)
              step ths m ths' m' Hs HP H) as (HF & Hc & Hm).
  split; [exact HF|]. split; [exact Hc | exact Hm].
Qed.

Lemma expandMatrix_moves Q s s' :
  Forall (lamPred Q) (fst s) -> expandMatrix s = Some s' ->
  Forall (lamPred Q) (fst s') /\ movesRel s s'.
Proof.
  unfold expandMatrix. intros HP H. destruct haveCoupledConstraints eqn:Hc.
  - unfold forRange in H.
    apply (forLoop_ind (fun s => Forall (lamPred Q) (fst s)) movesRel) in H;
      [exact H | apply movesRel_refl | apply movesRel_trans | | exact HP].
    intros rec [ths m] [ths' m'] HI Hb. simpl in HI |- *.
    eapply forThreads_moves; [apply expansionStep_moves | exact HI | exact Hb].
  - injection H as <-. split; [exact HP | apply movesRel_refl].
Qed.

Lemma centripetalLoop_moves s s' :
  Forall wfThread (fst s) -> centripetalLoop s = Some s' ->
  Forall wfThread (fst s') /\ movesRel s s'.
Proof.
  unfold centripetalLoop, forRange. intros HP H.
  apply (forLoop_ind (fun s => Forall wfThread (fst s)) movesRel) in H;
    [exact H | apply movesRel_refl | apply movesRel_trans | | exact HP].
  intros iter [ths m] [ths2 m2] HI Hb. simpl in HI. monad_inv Hb.
  destruct (forThreads_moves _ _ _ _ _ _ _ (centripetalStep_moves _) HI E) as [H1 R1].
  destruct (expandMatrix_moves _ (_, _) _ H1 E0) as [H2 R2]. simpl in H2.
  destruct (forThreads_moves _ _ _ _ _ _ _ correctRotation_moves H2 Hb) as [H3 R3].
  split; [exact H3|].
  eapply movesRel_trans; [exact R1|]. eapply movesRel_trans; [exact R2 | exact R3].
Qed.

Lemma solvePositions_moves s s' :
  Forall freshThread (fst s) -> solvePositions s = Some s' ->
  Forall wfThread (fst s') /\ movesRel s s'.
Proof.
  unfold solvePositions. intros HP H. destruct s as [ths m]. simpl in HP, H.
  monad_inv H.
  destruct (forThreads_moves _ _ _ _ _ _ _ (projectionStep_moves _) HP E) as [H1 R1].
  destruct (expandMatrix_moves _ (_, _) _ H1 E0) as [H2 R2]. simpl in H2.
  destruct (forThreads_moves _ _ _ _ _ _ _ correctPositions_moves H2 E1) as [H3 R3].
  destruct (centripetalLoop_moves (_, _) _ H3 H) as [H4 R4].
  split; [exact H4|].
  eapply movesRel_trans; [exact R1|]. eapply movesRel_trans; [exact R2|].
  eapply movesRel_trans; [exact R3 | exact R4].
Qed.

(** ** Collecting the data *)

Lemma collectData_spec tIndex tInBlock m c v m' :
  collectData tIndex tInBlock m = Some ((c, v), m') ->
  dev m' = dev m
  /\ threadIndex c = tIndex /\ threadInBlock c = tInBlock
  /\ describes (dev m) c
  /\ lagrangeScaled v = 0
  /\ length (sm_r (loc m')) = length (sm_r (loc m))
  /\ sm_rhs (loc m') = sm_rhs (loc m)
  /\ sm_threadVirial (loc m') = sm_threadVirial (loc m).
Proof.
  unfold collectData. intros H. monad_inv H. subst t t0 m'.
  apply store_length in E1.
  assert (Hdesc : threadIndex c = tIndex /\ threadInBlock c = tInBlock
                  /\ describes (dev m) c /\ lagrangeScaled v = 0).
  { destruct a as [i j]; simpl in *. destruct (i =? -1)%Z eqn:Hi.
    - injection E0 as <- <-. apply Z.eqb_eq in Hi. subst i.
      unfold describes, wfConst; simpl.
      repeat split; auto; discriminate.
    - monad_inv E0. subst c v.
      unfold describes, wfConst, dot3; simpl. rewrite Hi.
      split; [reflexivity|]. split; [reflexivity|]. split; [|reflexivity].
      split; [exact E|]. split; [reflexivity|]. split; [intros; discriminate|].
      intros _. repeat (split; [assumption|]).
      do 3 eexists. repeat (split; [eassumption|]). reflexivity. }
  simpl. tauto.
Qed.

Lemma collectAll_spec ids m ths m' :
  collectAll ids m = Some (ths, m') ->
  dev m' = dev m
  /\ map idOf ths = ids
  /\ Forall freshThread ths
  /\ Forall (fun t => describes (dev m) (fst t)) ths
  /\ length (sm_r (loc m')) = length (sm_r (loc m))
  /\ sm_rhs (loc m') = sm_rhs (loc m)
  /\ sm_threadVirial (loc m') = sm_threadVirial (loc m).
Proof.
  revert m ths m'. induction ids as [|[ti tb] rest IH]; intros m ths m' H.
  - simpl in H. injection H as <- <-. repeat split; constructor.
  - simpl in H. monad_inv H. destruct t as [c v]. subst ths m'.
    apply collectData_spec in E as (Hd & Hi & Hb & Hdesc & Hl & Hr & Hrhs & Hvir).
    apply IH in E0 as (Hd' & Hids & Hfresh & Hdescs & Hr' & Hrhs' & Hvir').
    rewrite Hd in *.
    split; [exact Hd'|]. split; [simpl; unfold idOf at 1; simpl; congruence|].
    split; [constructor; [|exact Hfresh]|].
    { destruct Hdesc as (_ & _ & Hwf & _). split; assumption. }
    split; [constructor; assumption|].
    repeat split; congruence.
Qed.

(** ** Velocities and virial: frames *)

Lemma forThreads_keeps (K : DeviceBuffers -> DeviceBuffers -> Prop) step :
  (forall d, K d d) -> (forall a b c, K a b -> K b c -> K a c) ->
  (forall c v m v' m',
      step c v m = Some (v', m') ->
      v' = v /\ K (dev m) (dev m')) ->
  forall ths m ths' m',
    forThreads step ths m = Some (ths', m') ->
    ths' = ths /\ K (dev m) (dev m').
Proof.
  intros Hrefl Htrans Hstep. induction ths as [|[c v] rest IH]; intros m ths' m' H.
  - simpl in H. injection H as <- <-. auto.
  - simpl in H. monad_inv H. subst ths' m'.
    apply Hstep in E as [-> HK]. apply IH in E0 as [-> HK'].
    split; [reflexivity | eapply Htrans; eassumption].
Qed.

Lemma forThreads_velocity ths m ths' m' :
  Forall wfThread ths ->
  forThreads updateVelocityStep ths m = Some (ths', m') ->
  ths' = ths
  /\ keeps false false true false (dev m) (dev m')
  /\ forall n, nth n (a_v (dev m')) 0
               = nth n (a_v (dev m)) 0 + invdt * totalCorrection ths n.
Proof.
  revert m ths' m'. induction ths as [|[c v] rest IH]; intros m ths' m' HP H.
  - simpl in H. injection H as <- <-.
    split; [reflexivity|]. split; [apply keeps_refl|]. intros n. simpl. ring.
  - simpl in H. monad_inv H. subst ths' m'.
    inversion HP as [|? ? [Hc _] Hrest]; subst. simpl in Hc.
    apply (updateVelocityStep_spec _ _ _ _ _ Hc) in E as (-> & _ & HK & Hn).
    apply (IH _ _ _ Hrest) in E0 as (-> & HK' & Hn').
    split; [reflexivity|]. split; [eapply keeps_trans; eassumption|].
    intros n. rewrite Hn', Hn. simpl. ring.
Qed.

Lemma velocityPhase_spec s s' :
  Forall wfThread (fst s) -> velocityPhase s = Some s' ->
  fst s' = fst s
  /\ keeps false false updateVelocities false (dev (snd s)) (dev (snd s'))
  /\ (updateVelocities = true ->
      forall n, nth n (a_v (dev (snd s'))) 0
                = nth n (a_v (dev (snd s))) 0 + invdt * totalCorrection (fst s) n).
Proof.
  unfold velocityPhase. intros HP H. destruct updateVelocities.
  - destruct s' as [ths' m']. apply (forThreads_velocity _ _ _ _ HP) in H.
    simpl. tauto.
  - injection H as <-. split; [reflexivity|]. split; [apply keeps_refl | discriminate].
Qed.

Lemma saveThreadVirial_spec c v m v' m' :
  saveThreadVirial c v m = Some (v', m') ->
  v' = v /\ dev m' = dev m
  /\ length (sm_threadVirial (loc m')) = length (sm_threadVirial (loc m)).
Proof.
  unfold saveThreadVirial. intros H. monad_inv H. subst v' m'. simpl.
  repeat match goal with H : store _ _ _ = Some _ |- _ => apply store_length in H end.
  repeat split; congruence.
Qed.

Lemma reduceStep_spec dividedAt c v m v' m' :
  reduceStep dividedAt c v m = Some (v', m') -> v' = v /\ dev m' = dev m.
Proof.
  unfold reduceStep. intros H.
  destruct (threadInBlock c <? dividedAt)%Z.
  - monad_inv H. subst v' m'. auto.
  - injection H as <- <-. auto.
Qed.

Lemma addBlockVirial_spec c v m v' m' :
  addBlockVirial c v m = Some (v', m') ->
  v' = v /\ loc m' = loc m
  /\ keeps false false false true (dev m) (dev m').
Proof.
  unfold addBlockVirial. intros H.
  destruct (threadInBlock c <? 6)%Z.
  - monad_inv H. subst v' m'. simpl.
    apply atomicFetchAdd_Some in E0 as (_ & HL & _).
    split; [reflexivity|]. split; [reflexivity|]. keeps_tac.
  - injection H as <- <-. split; [reflexivity|]. split; [reflexivity|]. apply keeps_refl.
Qed.

Lemma reduceLoop_keeps fuel : forall divideBy s s',
  reduceLoop fuel divideBy s = Some s' ->
  fst s' = fst s /\ dev (snd s') = dev (snd s).
Proof.
  induction fuel as [|fuel IH]; intros divideBy s s' H; simpl in H;
    destruct (divideBy <=? c_threadsPerBlock)%Z; try discriminate;
    try (injection H as <-; auto).
  monad_inv H. destruct a as [ths1 m1].
  apply (forThreads_keeps (fun d d' => d' = d)) in E;
    [| auto | intros; congruence | intros ? ? ? ? ? Hs; eapply reduceStep_spec; exact Hs].
  apply IH in H as [H1 H2]. destruct E as [E1 E2]. simpl in *. split; congruence.
Qed.

Lemma virialPhase_keeps s s' :
  virialPhase s = Some s' ->
  fst s' = fst s
  /\ keeps false false false computeVirial (dev (snd s)) (dev (snd s')).
Proof.
  unfold virialPhase. intros H. destruct computeVirial.
  - monad_inv H. destruct s' as [ths' m'].
    apply (forThreads_keeps (fun d d' => d' = d)) in E;
      [| auto | intros; congruence
       | intros ? ? ? ? ? Hs; apply saveThreadVirial_spec in Hs; tauto].
    apply reduceLoop_keeps in E0. simpl in E0.
    apply (forThreads_keeps (keeps false false false true)) in H;
      [| apply keeps_refl | apply keeps_trans
       | intros ? ? ? ? ? Hs; apply addBlockVirial_spec in Hs; tauto].
    destruct E as [E1 E2], E0 as [E3 E4], H as [H1 H2]. simpl.
    split; [congruence|]. rewrite E4, E2 in H2. exact H2.
  - injection H as <-. split; [reflexivity | apply keeps_refl].
Qed.

(** ** One work-group, then the grid *)

Lemma totalCorrection_fresh ths n : Forall freshThread ths -> totalCorrection ths n = 0.
Proof.
  induction 1 as [|[c v] rest [_ Hl] _ IH]; simpl; [reflexivity|].
  simpl in Hl. rewrite Hl, IH. ring.
Qed.

Lemma Forall_consts (Q : ThreadConst -> Prop) (ths ths' : list Thread) :
  map fst ths' = map fst ths ->
  Forall (fun t => Q (fst t)) ths -> Forall (fun t => Q (fst t)) ths'.
Proof.
  intros Hm H. apply Forall_map. rewrite Hm. apply Forall_map in H. exact H.
Qed.

Lemma idOf_consts (ths ths' : list Thread) :
  map fst ths' = map fst ths -> map idOf ths' = map idOf ths.
Proof.
  intros H.
  assert (Hm : forall l : list Thread,
             map idOf l = map (fun c => (threadIndex c, threadInBlock c)) (map fst l)).
  { intros l. rewrite map_map. reflexivity. }
  rewrite !Hm, H. reflexivity.
Qed.

Lemma describes_kept d d' c : readOnlyKept d d' -> describes d c -> describes d' c.
Proof.
  intros (H1 & H2 & H3 & H4 & H5 & H6 & H7). unfold describes.
  rewrite H1, H2, H6, H7. tauto.
Qed.

Lemma readOnlyKept_sym d d' : readOnlyKept d d' -> readOnlyKept d' d.
Proof. unfold readOnlyKept. intuition congruence. Qed.

Lemma workGroup_spec blockIdx d ths d' :
  workGroup blockIdx d = Some (ths, d') ->
  map idOf ths = workItems blockIdx /\ kernelEffect d ths d'.
Proof.
  unfold workGroup. intros H. monad_inv H.
  destruct a as [ths0 m0], a0 as [ths1 m1], a1 as [ths2 m2], a2 as [ths3 m3].
  simpl in H, H0. subst ths3 d'.
  apply collectAll_spec in E as (Hd0 & Hids & Hfresh & Hdesc & _). simpl in Hd0.
  destruct (solvePositions_moves (_, _) _ Hfresh E0) as (Hwf1 & Hc1 & Hk1 & Hn1).
  simpl in Hwf1, Hc1, Hk1, Hn1. unfold sameConsts in Hc1. simpl in Hc1.
  destruct (velocityPhase_spec (_, _) _ Hwf1 E1) as (Ht2 & Hk2 & Hv2).
  simpl in Ht2, Hk2, Hv2. subst ths2.
  destruct (virialPhase_keeps _ _ E2) as (Ht3 & Hk3). simpl in Ht3, Hk3. subst ths.
  rewrite Hd0 in *.
  split.
  - rewrite <- Hids. apply idOf_consts. exact Hc1.
  - split; [eapply Forall_consts; [exact Hc1 | exact Hdesc]|].
    split; [exact Hwf1|].
    split.
    + eapply keeps_trans; [|eapply keeps_trans].
      * eapply keeps_weaken; [exact Hk1|..]; intros Hx; try discriminate; auto.
      * eapply keeps_weaken; [exact Hk2|..]; intros Hx; try discriminate; auto.
      * eapply keeps_weaken; [exact Hk3|..]; intros Hx; try discriminate; auto.
    + split.
      * intros n. specialize (Hn1 n). rewrite (totalCorrection_fresh _ n Hfresh) in Hn1.
        destruct Hk2 as (_ & _ & Hx2 & _), Hk3 as (_ & _ & Hx3 & _).
        rewrite (Hx3 eq_refl), (Hx2 eq_refl). lra.
      * intros Hu n. destruct Hk3 as (_ & _ & _ & Hv3 & _), Hk1 as (_ & _ & _ & Hv1 & _).
        rewrite (Hv3 eq_refl), (Hv2 Hu n), (Hv1 eq_refl). reflexivity.
Qed.

Lemma kernelEffect_nil d : kernelEffect d [] d.
Proof.
  split; [constructor|]. split; [constructor|]. split; [apply keeps_refl|].
  split; [intros n | intros _ n]; simpl; ring.
Qed.

Lemma kernelEffect_app d1 ths1 d2 ths2 d3 :
  kernelEffect d1 ths1 d2 -> kernelEffect d2 ths2 d3 -> kernelEffect d1 (ths1 ++ ths2) d3.
Proof.
  intros (HD1 & HW1 & HK1 & HX1 & HV1) (HD2 & HW2 & HK2 & HX2 & HV2).
  split.
  - apply Forall_app. split; [exact HD1|].
    eapply Forall_impl; [|exact HD2]. intros t Ht.
    eapply describes_kept; [|exact Ht]. apply readOnlyKept_sym. apply HK1.
  - split; [apply Forall_app; split; assumption|].
    split; [eapply keeps_trans; eassumption|].
    split.
    + intros n. rewrite HX2, HX1, totalCorrection_app. ring.
    + intros Hu n. rewrite (HV2 Hu), (HV1 Hu), totalCorrection_app. ring.
Qed.

Lemma lincsKernelTrace_spec d ths d' :
  lincsKernelTrace d = Some (ths, d') -> kernelEffect d ths d'.
Proof.
  unfold lincsKernelTrace. destruct launchable; [|discriminate].
  unfold forRange. intros H.
  apply (forLoop_ind (fun _ => True)
           (fun s s' => exists new, fst s' = fst s ++ new
                                    /\ kernelEffect (snd s) new (snd s'))) in H;
    [| | | |exact I].
  - destruct H as (_ & new & Hn & HE). simpl in Hn, HE. subst ths. exact HE.
  - intros s. exists []. rewrite app_nil_r. split; [reflexivity | apply kernelEffect_nil].
  - intros s1 s2 s3 (n1 & E1 & K1) (n2 & E2 & K2). exists (n1 ++ n2).
    split; [rewrite E2, E1, app_assoc; reflexivity|].
    eapply kernelEffect_app; eassumption.
  - intros blockIdx [ths1 d1] s2 _ Hb. monad_inv Hb. subst s2.
    apply workGroup_spec in E as [_ HE].
    split; [exact I|]. exists l. split; [reflexivity | exact HE].
Qed.

(** ** Mass-weighted sums *)

Lemma sumBelow_ext n f g :
  (forall k, (k < n)%nat -> f k = g k) -> sumBelow n f = sumBelow n g.
Proof.
  induction n as [|n IH]; intros H; simpl; [reflexivity|].
  rewrite IH, (H n) by (intros; auto with arith). reflexivity.
Qed.

Lemma sumBelow_plus n f g :
  sumBelow n (fun k => f k + g k) = sumBelow n f + sumBelow n g.
Proof. induction n as [|n IH]; simpl; [ring | rewrite IH; ring]. Qed.

Lemma sumBelow_scale n c f : sumBelow n (fun k => c * f k) = c * sumBelow n f.
Proof. induction n as [|n IH]; simpl; [ring | rewrite IH; ring]. Qed.

Lemma sumBelow_single n (a : Z) (f : nat -> R) :
  (0 <= a < Z.of_nat n)%Z ->
  sumBelow n (fun k => if (Z.of_nat k =? a)%Z then f k else 0) = f (Z.to_nat a).
Proof.
  induction n as [|n IH]; intros Ha; [lia|]. simpl.
  destruct (Z.eqb_spec (Z.of_nat n) a) as [He|Hne].
  - subst a. rewrite Nat2Z.id.
    rewrite (sumBelow_ext n _ (fun _ => 0)).
    + clear. induction n as [|n IH] in |- *; simpl; [ring|].
      assert (Hz : forall m, sumBelow m (fun _ : nat => 0) = 0)
        by (induction m as [|m IHm]; simpl; [reflexivity | rewrite IHm; ring]).
      rewrite Hz. ring.
    + intros k Hk. destruct (Z.eqb_spec (Z.of_nat k) (Z.of_nat n)); [lia | reflexivity].
  - rewrite IH by lia. ring.
Qed.

Lemma cellAdd_same a dd x k :
  cellAdd (a * DIM + dimIndex dd) x (cellOf k dd) = if (Z.of_nat k =? a)%Z then x else 0.
Proof.
  unfold cellAdd, cellOf, DIM.
  destruct (Z.eqb_spec (Z.of_nat k) a), (Z.eqb_spec (Z.of_nat (k * 3 + Z.to_nat (dimIndex dd)))
                                           (a * 3 + dimIndex dd));
    try reflexivity; destruct dd; simpl in *; lia.
Qed.

Lemma cellAdd_other a dd dd' x k :
  dd <> dd' -> cellAdd (a * DIM + dimIndex dd') x (cellOf k dd) = 0.
Proof.
  intros Hd. unfold cellAdd, cellOf, DIM.
  destruct (Z.eqb_spec (Z.of_nat (k * 3 + Z.to_nat (dimIndex dd))) (a * 3 + dimIndex dd'));
    [|reflexivity].
  destruct dd, dd'; simpl in *; try congruence; lia.
Qed.

Lemma corrOf_cellOf c tmp k dd :
  corrOf c tmp (cellOf k dd)
  = (if (Z.of_nat k =? atom_i c)%Z then - tmp.[dd] * inverseMassi c else 0)
    + (if (Z.of_nat k =? atom_j c)%Z then tmp.[dd] * inverseMassj c else 0).
Proof.
  unfold corrOf.
  destruct dd; rewrite !cellAdd_same, !cellAdd_other by discriminate; ring.
Qed.

Lemma unitCorrection_cellOf c k dd :
  unitCorrection c (cellOf k dd)
  = (if (Z.of_nat k =? atom_i c)%Z then - (rc c).[dd] * inverseMassi c else 0)
    + (if (Z.of_nat k =? atom_j c)%Z then (rc c).[dd] * inverseMassj c else 0).
Proof.
  unfold unitCorrection, corrOf.
  destruct dd; rewrite !cellAdd_same, !cellAdd_other by discriminate; ring.
Qed.

Lemma weighted_unitCorrection (masses : list R) d c dd :
  length masses = length (a_inverseMasses d) ->
  (forall k, (k < length masses)%nat -> nth k masses 0 * nth k (a_inverseMasses d) 0 = 1) ->
  describes d c ->
  sumBelow (length masses) (fun k => nth k masses 0 * unitCorrection c (cellOf k dd)) = 0.
Proof.
  intros Hlen Hm (_ & _ & Hwf & Hreal).
  destruct (isDummyThread c) eqn:Hd.
  - rewrite (sumBelow_ext _ _ (fun k => 0 * nth k masses 0)).
    + rewrite sumBelow_scale. ring.
    + intros k _. rewrite (unitCorrection_dummy c _ Hwf Hd). ring.
  - destruct (Hreal eq_refl) as (_ & Hi & Hj & _).
    apply load_Some in Hi as [Hri Hvi], Hj as [Hrj Hvj].
    rewrite (sumBelow_ext _ _
               (fun k => (if (Z.of_nat k =? atom_i c)%Z
                          then nth k masses 0 * (- (rc c).[dd] * inverseMassi c) else 0)
                         + (if (Z.of_nat k =? atom_j c)%Z
                            then nth k masses 0 * ((rc c).[dd] * inverseMassj c) else 0))).
    + rewrite sumBelow_plus, !sumBelow_single by lia.
      assert (Hmi := Hm (Z.to_nat (atom_i c)) ltac:(lia)).
      assert (Hmj := Hm (Z.to_nat (atom_j c)) ltac:(lia)).
      rewrite (Hvi 0) in Hmi. rewrite (Hvj 0) in Hmj.
      replace (nth (Z.to_nat (atom_i c)) masses 0 * (- (rc c).[dd] * inverseMassi c))
        with (- (rc c).[dd] * (nth (Z.to_nat (atom_i c)) masses 0 * inverseMassi c)) by ring.
      replace (nth (Z.to_nat (atom_j c)) masses 0 * ((rc c).[dd] * inverseMassj c))
        with ((rc c).[dd] * (nth (Z.to_nat (atom_j c)) masses 0 * inverseMassj c)) by ring.
      rewrite Hmi, Hmj. ring.
    + intros k _. rewrite unitCorrection_cellOf.
      destruct (Z.of_nat k =? atom_i c)%Z, (Z.of_nat k =? atom_j c)%Z; ring.
Qed.

Lemma weighted_totalCorrection (masses : list R) d ths dd :
  length masses = length (a_inverseMasses d) ->
  (forall k, (k < length masses)%nat -> nth k masses 0 * nth k (a_inverseMasses d) 0 = 1) ->
  Forall (fun t => describes d (fst t)) ths ->
  sumBelow (length masses) (fun k => nth k masses 0 * totalCorrection ths (cellOf k dd)) = 0.
Proof.
  intros Hlen Hm. induction 1 as [|[c v] rest Hc _ IH]; simpl.
  - rewrite (sumBelow_ext _ _ (fun k => 0 * nth k masses 0)) by (intros; ring).
    rewrite sumBelow_scale. ring.
  - rewrite (sumBelow_ext _ _
               (fun k => lagrangeScaled v * (nth k masses 0 * unitCorrection c (cellOf k dd))
                         + nth k masses 0 * totalCorrection rest (cellOf k dd)))
      by (intros; ring).
    rewrite sumBelow_plus, sumBelow_scale, IH.
    rewrite (weighted_unitCorrection masses d c dd Hlen Hm Hc). ring.
Qed.

Lemma massWeightedSum_moved (masses : list R) d ths a a' dd (s : R) :
  length masses = length (a_inverseMasses d) ->
  (forall k, (k < length masses)%nat -> nth k masses 0 * nth k (a_inverseMasses d) 0 = 1) ->
  Forall (fun t => describes d (fst t)) ths ->
  (forall n, nth n a' 0 = nth n a 0 + s * totalCorrection ths n) ->
  massWeightedSum masses a' dd = massWeightedSum masses a dd.
Proof.
  intros Hlen Hm Hd Hn. unfold massWeightedSum.
  rewrite (sumBelow_ext _ _
             (fun k => nth k masses 0 * nth (cellOf k dd) a 0
                       + s * (nth k masses 0 * totalCorrection ths (cellOf k dd)))).
  - rewrite sumBelow_plus, sumBelow_scale.
    rewrite (weighted_totalCorrection masses d ths dd Hlen Hm Hd). ring.
  - intros k _. rewrite Hn. ring.
Qed.

(** ** The extents of the local accessors *)

Lemma forThreads_projection_rhs ths m ths' m' :
  forThreads projectionStep ths m = Some (ths', m') ->
  map fst ths' = map fst ths
  /\ length (sm_rhs (loc m')) = length (sm_rhs (loc m)).
Proof.
  intros H.
  apply (forThreads_ind (fun _ => True) (fun _ => True)
           (fun s s' => length (sm_rhs (loc (snd s'))) = length (sm_rhs (loc (snd s)))))
    in H.
  - simpl in H. tauto.
  - reflexivity.
  - intros a b c Hab Hbc. congruence.
  - intros pre c v post m0 v' m0' _ Hs. split; [exact I|]. simpl.
    apply projectionStep_spec in Hs. tauto.
  - apply Forall_forall. intros; exact I.
Qed.

Lemma expansionStep_overrun rec c v m :
  (0 < c_threadsPerBlock)%Z ->
  Z.rem (rec + 1) 2 = 1%Z ->
  (0 <= threadInBlock c)%Z ->
  length (sm_rhs (loc m)) = Z.to_nat c_threadsPerBlock ->
  expansionStep rec c v m = None.
Proof.
  intros HT Hrec Htib Hlen. unfold expansionStep.
  destruct (convolute rec c v m) as [mvb|]; [|reflexivity]. cbn [bind].
  rewrite store_outside; [reflexivity|]. rewrite Hrec, Hlen. lia.
Qed.

Lemma expandMatrix_overrun c v rest m :
  haveCoupledConstraints = true -> (0 < expansionOrder)%Z ->
  (0 < c_threadsPerBlock)%Z -> (0 <= threadInBlock c)%Z ->
  length (sm_rhs (loc m)) = Z.to_nat c_threadsPerBlock ->
  expandMatrix ((c, v) :: rest, m) = None.
Proof.
  intros Hc He HT Htib Hlen. unfold expandMatrix, forRange. rewrite Hc.
  destruct (Z.to_nat (expansionOrder - 0)) as [|k] eqn:Hk; [lia|].
  simpl. rewrite expansionStep_overrun by (auto; reflexivity). reflexivity.
Qed.

Lemma workItems_first blockIdx :
  (0 < c_threadsPerBlock)%Z ->
  exists rest, workItems blockIdx = ((blockIdx * c_threadsPerBlock + 0)%Z, 0%Z) :: rest.
Proof.
  intros HT. unfold workItems.
  destruct (Z.to_nat c_threadsPerBlock) as [|k] eqn:Hk; [lia|].
  simpl. eexists. reflexivity.
Qed.

Lemma workGroup_overrun blockIdx d :
  haveCoupledConstraints = true -> (0 < expansionOrder)%Z ->
  (0 < c_threadsPerBlock)%Z ->
  workGroup blockIdx d = None.
Proof.
  intros Hc He HT. unfold workGroup.
  destruct (collectAll _ _) as [[ths0 m0]|] eqn:E0; [|reflexivity]. cbn [bind].
  apply collectAll_spec in E0 as (_ & Hids & _ & _ & _ & Hrhs & _).
  unfold solvePositions. cbn [fst snd].
  destruct (forThreads projectionStep ths0 m0) as [[ths1 m1]|] eqn:E1; [|reflexivity].
  cbn [bind]. cbv beta iota.
  apply forThreads_projection_rhs in E1 as [Hm Hl].
  destruct (workItems_first blockIdx HT) as [rest Hw].
  rewrite Hw in Hids. apply idOf_consts in Hm. rewrite Hids in Hm.
  destruct ths1 as [|[c v] rest1]; [discriminate|].
  injection Hm as _ Htib _.
  rewrite expandMatrix_overrun; auto; [lia|].
  rewrite Hl, Hrhs. simpl. apply repeat_length.
Qed.


(** [sm_r] has [c_threadsPerBlock] elements and is indexed by [threadIndex],
    the global index of the work-item (line 226): the work-groups after the
    first one write outside of it. *)
Lemma collectData_outside tIndex tInBlock m :
  (Z.of_nat (length (sm_r (loc m))) <= tIndex)%Z ->
  collectData tIndex tInBlock m = None.
Proof.
  intros Hout. unfold collectData.
  destruct (load (a_constraints (dev m)) tIndex) as [ap|]; [|reflexivity]. cbn [bind].
  match goal with
  | |- bind ?x _ = None => destruct x as [[c v]|]; [|reflexivity]
  end.
  cbn [bind]. rewrite store_outside by exact Hout. reflexivity.
Qed.

Lemma workGroup_outside blockIdx d :
  (0 < c_threadsPerBlock)%Z -> (1 <= blockIdx)%Z -> workGroup blockIdx d = None.
Proof.
  intros HT Hb. unfold workGroup.
  destruct (workItems_first blockIdx HT) as [rest ->]. cbn [collectAll].
  rewrite collectData_outside; [reflexivity|].
  cbn [loc sm_r localAccessors]. unfold localAccessors. cbn [sm_r].
  rewrite repeat_length. nia.
Qed.

Lemma lincsKernelTrace_second_group d :
  (0 < c_threadsPerBlock)%Z -> (2 * c_threadsPerBlock <= numConstraintsThreads)%Z ->
  lincsKernelTrace d = None.
Proof.
  intros HT HN. unfold lincsKernelTrace. destruct launchable; [|reflexivity].
  unfold forRange.
  assert (Hq : (2 <= Z.quot numConstraintsThreads c_threadsPerBlock)%Z).
  { rewrite Z.quot_div_nonneg by lia. apply Z.div_le_lower_bound; lia. }
  destruct (Z.to_nat (Z.quot numConstraintsThreads c_threadsPerBlock - 0))
    as [|[|k]] eqn:Hk; try lia.
  cbn [forLoop]. destruct (workGroup 0 d) as [[ths d1]|]; [|reflexivity].
  cbn [bind]. rewrite workGroup_outside by lia. reflexivity.
Qed.

(** ** The virial *)

Lemma store_nth (a : list R) k v a' :
  store a k v = Some a' ->
  forall n, nth n a' 0 = if (Z.of_nat n =? k)%Z then v else nth n a 0.
Proof.
  intros H n. apply store_Some in H as [Hk ->]. rewrite nth_update.
  destruct (Z.eqb_spec (Z.of_nat n) k) as [He|Hne].
  - subst k. rewrite Nat2Z.id, Nat.eqb_refl.
    replace (n <? length a)%nat with true by (symmetry; apply Nat.ltb_lt; lia).
    reflexivity.
  - replace (n =? Z.to_nat k)%nat with false by (symmetry; apply Nat.eqb_neq; lia).
    reflexivity.
Qed.

Lemma sumBelow_front n f : sumBelow (S n) f = f 0%nat + sumBelow n (fun p => f (S p)).
Proof.
  induction n as [|n IH]; [simpl; ring|].
  change (sumBelow (S (S n)) f) with (sumBelow (S n) f + f (S n)).
  rewrite IH. simpl. ring.
Qed.

Lemma sumBelow_add a b f :
  sumBelow (a + b) f = sumBelow a f + sumBelow b (fun p => f (a + p)%nat).
Proof.
  induction b as [|b IH].
  - rewrite Nat.add_0_r. simpl. ring.
  - rewrite Nat.add_succ_r. simpl. rewrite IH. ring.
Qed.

Lemma sumBelow_double h f :
  sumBelow (h + h) f = sumBelow h (fun p => f p + f (p + h)%nat).
Proof.
  rewrite sumBelow_add, sumBelow_plus. f_equal.
  apply sumBelow_ext. intros k _. f_equal. lia.
Qed.

Lemma virialSum_sumBelow (dflt : Thread) ths k :
  virialSum ths k = sumBelow (length ths) (fun p => threadVirial (nth p ths dflt) k).
Proof.
  induction ths as [|t rest IH]; [reflexivity|].
  cbn [length]. rewrite sumBelow_front. simpl. rewrite IH. reflexivity.
Qed.

Lemma virialSum_app ths1 ths2 k :
  virialSum (ths1 ++ ths2) k = virialSum ths1 k + virialSum ths2 k.
Proof. induction ths1 as [|t rest IH]; simpl; [ring | rewrite IH; ring]. Qed.

Lemma tibsFrom_cons first t rest :
  tibsFrom first (t :: rest) -> tibOf t = Z.of_nat first /\ tibsFrom (S first) rest.
Proof. unfold tibsFrom. simpl. intros H. injection H as H1 H2. auto. Qed.

Ltac chase_cells :=
  repeat match goal with
         | H : forall n, nth n ?a 0 = @?f n |- context [nth _ ?a 0] => rewrite H
         end;
  repeat match goal with
         | |- context [(?x =? ?y)%Z] => destruct (Z.eqb_spec x y)
         end;
  try lia; try reflexivity.

Lemma saveThreadVirial_cells c v m v' m' :
  (0 <= threadInBlock c < c_threadsPerBlock)%Z ->
  saveThreadVirial c v m = Some (v', m') ->
  forall k p, (k < 6)%nat -> (p < Z.to_nat c_threadsPerBlock)%nat ->
    seg (sm_threadVirial (loc m')) k p
    = if (Z.of_nat p =? threadInBlock c)%Z then threadVirial (c, v) k
      else seg (sm_threadVirial (loc m)) k p.
Proof.
  intros Htib H. unfold saveThreadVirial in H. monad_inv H. subst v' m'. simpl.
  repeat match goal with
         | H : store _ _ _ = Some _ |- _ =>
             let H' := fresh "Hn" in pose proof (store_nth _ _ _ _ H) as H'; clear H
         end.
  intros k p Hk Hp. unfold seg, threadVirial.
  destruct k as [|[|[|[|[|[|k]]]]]]; [| | | | | |lia]; simpl fst; simpl snd;
    cbn [virialComponent fst snd]; chase_cells.
Qed.

Lemma saveThreadVirial_phase (dflt : Thread) ths : forall first m ths' m',
  tibsFrom first ths ->
  (first + length ths <= Z.to_nat c_threadsPerBlock)%nat ->
  forThreads saveThreadVirial ths m = Some (ths', m') ->
  ths' = ths /\ dev m' = dev m
  /\ forall k p, (k < 6)%nat -> (p < Z.to_nat c_threadsPerBlock)%nat ->
       seg (sm_threadVirial (loc m')) k p
       = if ((first <=? p) && (p <? first + length ths))%nat
         then threadVirial (nth (p - first) ths dflt) k
         else seg (sm_threadVirial (loc m)) k p.
Proof.
  induction ths as [|[c v] rest IH]; intros first m ths' m' Htibs Hlen H.
  - simpl in H. injection H as <- <-. repeat split; try reflexivity.
    intros k p _ _. simpl. rewrite Nat.add_0_r.
    destruct (first <=? p)%nat eqn:E1, (p <? first)%nat eqn:E2; simpl; try reflexivity.
    apply Nat.leb_le in E1. apply Nat.ltb_lt in E2. lia.
  - simpl in H. monad_inv H. subst ths' m'.
    apply tibsFrom_cons in Htibs as [Htib Hrest]. unfold tibOf in Htib. simpl in Htib.
    simpl in Hlen.
    pose proof (saveThreadVirial_cells c v m _ _ ltac:(lia) E) as Hcells.
    apply saveThreadVirial_spec in E as (-> & Hd & _).
    apply (IH (S first)) in E0 as (-> & Hd' & Hcells'); [|exact Hrest|lia].
    split; [reflexivity|]. split; [congruence|].
    intros k p Hk Hp. rewrite (Hcells' k p Hk Hp), (Hcells k p Hk Hp). simpl length.
    destruct (Nat.leb_spec (S first) p), (Nat.ltb_spec p (S first + length rest)),
      (Nat.leb_spec first p), (Nat.ltb_spec p (first + S (length rest))),
      (Z.eqb_spec (Z.of_nat p) (threadInBlock c)); simpl; try lia; try reflexivity.
    + replace (p - first)%nat with (S (p - S first)) by lia. reflexivity.
    + replace (p - first)%nat with 0%nat by lia. reflexivity.
Qed.

Lemma cell_eq (tn k p k' p' : nat) :
  (p < tn)%nat -> (p' < tn)%nat ->
  (k * tn + p = k' * tn + p')%nat -> k = k' /\ p = p'.
Proof.
  intros Hp Hp' H.
  assert (Hk : k = k').
  { assert (H1 : k = ((k * tn + p) / tn)%nat) by (apply Nat.div_unique with p; lia).
    assert (H2 : k' = ((k' * tn + p') / tn)%nat) by (apply Nat.div_unique with p'; lia).
    rewrite H1, H2, H. reflexivity. }
  subst k'. split; [reflexivity | lia].
Qed.

Lemma seg_index (k : nat) (x : Z) :
  (0 <= x)%Z -> (0 < c_threadsPerBlock)%Z ->
  Z.to_nat (Z.of_nat k * c_threadsPerBlock + x)
  = (k * Z.to_nat c_threadsPerBlock + Z.to_nat x)%nat.
Proof.
  intros Hx HT. rewrite Z2Nat.inj_add, Z2Nat.inj_mul, Nat2Z.id by nia. reflexivity.
Qed.

Section Reduction.
Variable dividedAt : Z.
Variable tib : Z.
Hypothesis Htib : (0 <= tib)%Z.
Hypothesis Hh : (0 < dividedAt)%Z.
Hypothesis Hroom : (tib + dividedAt < c_threadsPerBlock)%Z.

Lemma reduce_cell (D : nat) w w' :
  reduceCell dividedAt tib (Z.of_nat D) w = Some w' ->
  forall k p, (p < Z.to_nat c_threadsPerBlock)%nat ->
    seg w' k p
    = if ((k =? D) && (p =? Z.to_nat tib))%nat
      then seg w k p + seg w k (p + Z.to_nat dividedAt)
      else seg w k p.
Proof.
  unfold reduceCell. cbv zeta. intros H. monad_inv H.
  apply load_Some in E as [_ Ea], E0 as [_ Eb].
  pose proof (store_nth _ _ _ _ H) as Hn. clear H.
  specialize (Ea 0). specialize (Eb 0).
  rewrite seg_index in Ea, Eb by lia.
  intros k p Hp. unfold seg. rewrite Hn.
  destruct (Z.eqb_spec (Z.of_nat (k * Z.to_nat c_threadsPerBlock + p))
              (Z.of_nat D * c_threadsPerBlock + tib)) as [He|Hne].
  - assert (He' : (k * Z.to_nat c_threadsPerBlock + p
                   = D * Z.to_nat c_threadsPerBlock + Z.to_nat tib)%nat).
    { apply Nat2Z.inj. rewrite He, Nat2Z.inj_add, Nat2Z.inj_mul, !Z2Nat.id by lia.
      reflexivity. }
    apply cell_eq in He' as [-> ->]; [|lia|lia].
    rewrite !Nat.eqb_refl. simpl. rewrite Z2Nat.inj_add in Eb by lia.
    rewrite Ea, Eb. reflexivity.
  - destruct (Nat.eqb_spec k D) as [->|Hk]; [|reflexivity].
    destruct (Nat.eqb_spec p (Z.to_nat tib)) as [->|Hp']; [|reflexivity].
    exfalso. apply Hne. rewrite Nat2Z.inj_add, Nat2Z.inj_mul, !Z2Nat.id by lia.
    reflexivity.
Qed.

Lemma reduce_cells count : forall (D : nat) w w',
  forLoop (reduceCell dividedAt tib) count (Z.of_nat D) w = Some w' ->
  forall k p, (p < Z.to_nat c_threadsPerBlock)%nat ->
    seg w' k p
    = if ((D <=? k) && (k <? D + count) && (p =? Z.to_nat tib))%nat
      then seg w k p + seg w k (p + Z.to_nat dividedAt)
      else seg w k p.
Proof.
  induction count as [|count IH]; intros D w w' H k p Hp.
  - simpl in H. injection H as <-.
    destruct (Nat.leb_spec D k), (Nat.ltb_spec k (D + 0)); simpl; try reflexivity; lia.
  - simpl in H. monad_inv H.
    pose proof (reduce_cell D w a E) as H1.
    replace (Z.of_nat D + 1)%Z with (Z.of_nat (S D)) in H by lia.
    rewrite (IH _ _ _ H k p Hp).
    destruct (Nat.leb_spec (S D) k), (Nat.ltb_spec k (S D + count)),
      (Nat.leb_spec D k), (Nat.ltb_spec k (D + S count)),
      (Nat.eqb_spec p (Z.to_nat tib)); simpl; try lia;
      rewrite ?(H1 k p Hp), ?(H1 k (p + Z.to_nat dividedAt)%nat ltac:(lia));
      repeat match goal with
             | |- context [(?a =? ?b)%nat] => destruct (Nat.eqb_spec a b)
             end; simpl; try lia; try reflexivity.
Qed.
End Reduction.

Lemma reduceStep_cells dividedAt c v m v' m' :
  (0 <= threadInBlock c)%Z -> (0 < dividedAt)%Z ->
  (dividedAt + dividedAt <= c_threadsPerBlock)%Z ->
  reduceStep dividedAt c v m = Some (v', m') ->
  forall k p, (k < 6)%nat -> (p < Z.to_nat c_threadsPerBlock)%nat ->
    seg (sm_threadVirial (loc m')) k p
    = if ((p =? Z.to_nat (threadInBlock c)) && (p <? Z.to_nat dividedAt))%nat
      then seg (sm_threadVirial (loc m)) k p
           + seg (sm_threadVirial (loc m)) k (p + Z.to_nat dividedAt)
      else seg (sm_threadVirial (loc m)) k p.
Proof.
  intros Htib Hh H2h H k p Hk Hp. unfold reduceStep in H.
  destruct (Z.ltb_spec (threadInBlock c) dividedAt) as [Hlt|Hge].
  - monad_inv H. subst v' m'. simpl. unfold forRange in E.
    change (Z.to_nat (6 - 0)) with 6%nat in E. change 0%Z with (Z.of_nat 0) in E.
    rewrite (reduce_cells dividedAt (threadInBlock c) Htib Hh ltac:(lia) 6 0 _ _ E k p Hp).
    replace (0 <=? k)%nat with true by (symmetry; apply Nat.leb_le; lia).
    replace (k <? 0 + 6)%nat with true by (symmetry; apply Nat.ltb_lt; lia).
    simpl.
    destruct (Nat.eqb_spec p (Z.to_nat (threadInBlock c))) as [->|Hne]; [|reflexivity].
    replace (Z.to_nat (threadInBlock c) <? Z.to_nat dividedAt)%nat with true
      by (symmetry; apply Nat.ltb_lt; lia).
    reflexivity.
  - injection H as <- <-.
    destruct (Nat.eqb_spec p (Z.to_nat (threadInBlock c))) as [->|Hne]; [|reflexivity].
    replace (Z.to_nat (threadInBlock c) <? Z.to_nat dividedAt)%nat with false
      by (symmetry; apply Nat.ltb_ge; lia).
    reflexivity.
Qed.

Lemma reduce_round dividedAt ths : forall first m ths' m',
  (0 < dividedAt)%Z -> (dividedAt + dividedAt <= c_threadsPerBlock)%Z ->
  tibsFrom first ths ->
  (first + length ths <= Z.to_nat c_threadsPerBlock)%nat ->
  forThreads (reduceStep dividedAt) ths m = Some (ths', m') ->
  ths' = ths /\ dev m' = dev m
  /\ forall k p, (k < 6)%nat -> (p < Z.to_nat c_threadsPerBlock)%nat ->
       seg (sm_threadVirial (loc m')) k p
       = if ((first <=? p) && (p <? first + length ths) && (p <? Z.to_nat dividedAt))%nat
         then seg (sm_threadVirial (loc m)) k p
              + seg (sm_threadVirial (loc m)) k (p + Z.to_nat dividedAt)
         else seg (sm_threadVirial (loc m)) k p.
Proof.
  induction ths as [|[c v] rest IH]; intros first m ths' m' Hh H2h Htibs Hlen H.
  - simpl in H. injection H as <- <-. repeat split; try reflexivity.
    intros k p _ _. simpl.
    destruct (Nat.leb_spec first p), (Nat.ltb_spec p (first + 0)); simpl;
      try reflexivity; lia.
  - simpl in H. monad_inv H. subst ths' m'.
    apply tibsFrom_cons in Htibs as [Htib Hrest]. unfold tibOf in Htib. simpl in Htib.
    simpl in Hlen.
    pose proof (reduceStep_cells dividedAt c v m _ _ ltac:(lia) Hh H2h E) as Hcells.
    apply reduceStep_spec in E as (-> & Hd).
    apply (IH (S first)) in E0 as (-> & Hd' & Hcells'); [|assumption..|lia].
    split; [reflexivity|]. split; [congruence|].
    intros k p Hk Hp. rewrite (Hcells' k p Hk Hp). simpl length.
    rewrite Htib, Nat2Z.id in Hcells.
    destruct (Nat.leb_spec (S first) p), (Nat.ltb_spec p (S first + length rest)),
      (Nat.leb_spec first p), (Nat.ltb_spec p (first + S (length rest))),
      (Nat.ltb_spec p (Z.to_nat dividedAt)); simpl; try lia;
      rewrite ?(Hcells k p Hk Hp),
        ?(Hcells k (p + Z.to_nat dividedAt)%nat Hk ltac:(lia));
      repeat match goal with
             | |- context [(?a =? ?b)%nat] => destruct (Nat.eqb_spec a b)
             | |- context [(?a <? ?b)%nat] => destruct (Nat.ltb_spec a b)
             end; simpl; try lia; try reflexivity.
Qed.

Lemma pow2_double (n : nat) : (2 ^ Z.of_nat (S n) = 2 ^ Z.of_nat n + 2 ^ Z.of_nat n)%Z.
Proof. rewrite Nat2Z.inj_succ, Z.pow_succ_r by lia. lia. Qed.

Lemma pow2_pos (n : nat) : (0 < 2 ^ Z.of_nat n)%Z.
Proof. apply Z.pow_pos_nonneg; lia. Qed.

Lemma pow2_quot (r j : nat) :
  Z.quot (2 ^ Z.of_nat (S r + j)) (2 ^ Z.of_nat (S j)) = (2 ^ Z.of_nat r)%Z.
Proof.
  replace (Z.of_nat (S r + j)) with (Z.of_nat r + Z.of_nat (S j))%Z by lia.
  rewrite Z.pow_add_r by lia. apply Z.quot_mul. pose proof (pow2_pos (S j)). lia.
Qed.

Lemma reduceLoop_sum fuel : forall (r j : nat) ths m ths' m',
  c_threadsPerBlock = (2 ^ Z.of_nat (r + j))%Z ->
  tibsFrom 0 ths -> length ths = Z.to_nat c_threadsPerBlock ->
  reduceLoop fuel (2 ^ Z.of_nat (S j)) (ths, m) = Some (ths', m') ->
  ths' = ths /\ dev m' = dev m
  /\ forall k, (k < 6)%nat ->
       seg (sm_threadVirial (loc m')) k 0
       = sumBelow (Z.to_nat (2 ^ Z.of_nat r))
           (fun p => seg (sm_threadVirial (loc m)) k p).
Proof.
  induction fuel as [|fuel IH]; intros r j ths m ths' m' HT Htibs Hlen H;
    cbn [reduceLoop] in H.
  - destruct (Z.leb_spec (2 ^ Z.of_nat (S j)) c_threadsPerBlock) as [Hle|Hgt];
      [discriminate|].
    injection H as <- <-.
    assert (r = 0)%nat as ->.
    { destruct r as [|r]; [reflexivity|]. exfalso.
      rewrite HT in Hgt. apply Z.pow_lt_mono_r_iff in Hgt; lia. }
    repeat split; try reflexivity. intros k _. simpl. ring.
  - destruct (Z.leb_spec (2 ^ Z.of_nat (S j)) c_threadsPerBlock) as [Hle|Hgt].
    + destruct r as [|r].
      { exfalso. rewrite HT in Hle. apply Z.pow_le_mono_r_iff in Hle; lia. }
      monad_inv H. destruct a as [ths1 m1]. cbn [fst snd] in E.
      rewrite HT, pow2_quot in E.
      pose proof (pow2_pos r) as Hpos. pose proof (pow2_pos (S r + j)) as HposT.
      assert (Hdouble : (2 ^ Z.of_nat r + 2 ^ Z.of_nat r <= c_threadsPerBlock)%Z).
      { rewrite <- pow2_double, HT. apply Z.pow_le_mono_r; lia. }
      apply (reduce_round _ _ 0%nat) in E as (-> & Hd & Hcells);
        [|assumption..|lia].
      replace (2 ^ Z.of_nat (S j) * 2)%Z with (2 ^ Z.of_nat (S (S j)))%Z in H
        by (rewrite (pow2_double (S j)); lia).
      apply (IH r (S j)) in H as (-> & Hd' & Hsum);
        [|rewrite HT; f_equal; lia|assumption..].
      split; [reflexivity|]. split; [congruence|].
      intros k Hk. rewrite (Hsum k Hk).
      rewrite pow2_double, Z2Nat.inj_add, sumBelow_double by lia.
      apply sumBelow_ext. intros p Hp. rewrite Hcells by lia.
      replace (0 <=? p)%nat with true by reflexivity.
      replace (p <? 0 + length ths)%nat with true by (symmetry; apply Nat.ltb_lt; lia).
      replace (p <? Z.to_nat (2 ^ Z.of_nat r))%nat with true
        by (symmetry; apply Nat.ltb_lt; lia).
      reflexivity.
    + injection H as <- <-.
      assert (r = 0)%nat as ->.
      { destruct r as [|r]; [reflexivity|]. exfalso.
        rewrite HT in Hgt. apply Z.pow_lt_mono_r_iff in Hgt; lia. }
      repeat split; try reflexivity. intros k _. simpl. ring.
Qed.

Lemma addBlockVirial_cells c v m v' m' :
  (0 <= threadInBlock c)%Z -> (0 < c_threadsPerBlock)%Z ->
  addBlockVirial c v m = Some (v', m') ->
  forall n, nth n (a_virialScaled (dev m')) 0
            = nth n (a_virialScaled (dev m)) 0
              + (if ((n =? Z.to_nat (threadInBlock c)) && (n <? 6))%nat
                 then seg (sm_threadVirial (loc m)) n 0 else 0).
Proof.
  intros Htib HT H n. unfold addBlockVirial in H.
  destruct (Z.ltb_spec (threadInBlock c) 6) as [Hlt|Hge].
  - monad_inv H. subst v' m'. simpl.
    apply load_Some in E as [_ Es]. specialize (Es 0).
    apply atomicFetchAdd_Some in E0 as (_ & _ & Hn). rewrite Hn. f_equal.
    unfold cellAdd.
    destruct (Z.eqb_spec (Z.of_nat n) (threadInBlock c)) as [He|Hne].
    + replace (n =? Z.to_nat (threadInBlock c))%nat with true
        by (symmetry; apply Nat.eqb_eq; lia).
      replace (n <? 6)%nat with true by (symmetry; apply Nat.ltb_lt; lia).
      simpl. rewrite <- Es, <- He. unfold seg.
      rewrite Z2Nat.inj_mul, Nat2Z.id, Nat.add_0_r by lia. reflexivity.
    + replace (n =? Z.to_nat (threadInBlock c))%nat with false
        by (symmetry; apply Nat.eqb_neq; lia).
      reflexivity.
  - injection H as <- <-.
    destruct (Nat.eqb_spec n (Z.to_nat (threadInBlock c))) as [->|Hne]; simpl;
      [|ring].
    replace (Z.to_nat (threadInBlock c) <? 6)%nat with false
      by (symmetry; apply Nat.ltb_ge; lia).
    ring.
Qed.

Lemma addBlockVirial_phase ths : forall first m ths' m',
  (0 < c_threadsPerBlock)%Z ->
  tibsFrom first ths ->
  forThreads addBlockVirial ths m = Some (ths', m') ->
  ths' = ths /\ loc m' = loc m
  /\ forall n, nth n (a_virialScaled (dev m')) 0
               = nth n (a_virialScaled (dev m)) 0
                 + (if ((first <=? n) && (n <? first + length ths) && (n <? 6))%nat
                    then seg (sm_threadVirial (loc m)) n 0 else 0).
Proof.
  induction ths as [|[c v] rest IH]; intros first m ths' m' HT Htibs H.
  - simpl in H. injection H as <- <-. repeat split; try reflexivity.
    intros n. simpl.
    destruct (Nat.leb_spec first n), (Nat.ltb_spec n (first + 0)); simpl; try ring; lia.
  - simpl in H. monad_inv H. subst ths' m'.
    apply tibsFrom_cons in Htibs as [Htib Hrest]. unfold tibOf in Htib. simpl in Htib.
    pose proof (addBlockVirial_cells c v m _ _ ltac:(lia) HT E) as Hcells.
    apply addBlockVirial_spec in E as (-> & Hl & _).
    apply (IH (S first)) in E0 as (-> & Hl' & Hcells'); [|assumption..].
    split; [reflexivity|]. split; [congruence|].
    intros n. rewrite Hcells', Hcells, Hl. simpl length.
    rewrite Htib, Nat2Z.id.
    destruct (Nat.leb_spec (S first) n), (Nat.ltb_spec n (S first + length rest)),
      (Nat.leb_spec first n), (Nat.ltb_spec n (first + S (length rest))),
      (Nat.eqb_spec n first), (Nat.ltb_spec n 6); simpl; try lia; ring.
Qed.

Lemma virialPhase_spec (r : nat) ths m ths' m' :
  computeVirial = true ->
  c_threadsPerBlock = (2 ^ Z.of_nat r)%Z -> (6 <= c_threadsPerBlock)%Z ->
  tibsFrom 0 ths -> length ths = Z.to_nat c_threadsPerBlock ->
  virialPhase (ths, m) = Some (ths', m') ->
  forall n,
    nth n (a_virialScaled (dev m')) 0
    = nth n (a_virialScaled (dev m)) 0 + (if (n <? 6)%nat then virialSum ths n else 0).
Proof.
  intros Hc HT H6 Htibs Hlen H k. unfold virialPhase in H. rewrite Hc in H.
  cbn [fst snd] in H. monad_inv H.
  destruct ths as [|t0 rest0] eqn:Eths; [simpl in Hlen; lia|]. rewrite <- Eths in *.
  apply (saveThreadVirial_phase t0 _ 0%nat) in E as (-> & Hd1 & Hc1);
    [|assumption|lia].
  change 2%Z with (2 ^ Z.of_nat 1)%Z in E0.
  apply (reduceLoop_sum _ r 0%nat) in E0 as (-> & Hd2 & Hc2);
    [|rewrite HT; f_equal; lia|assumption..].
  apply (addBlockVirial_phase _ 0%nat) in H as (-> & _ & Hc3); [|lia|assumption].
  rewrite Hc3, Hd2, Hd1. f_equal.
  destruct (Nat.ltb_spec k 6) as [Hk|Hk]; [|rewrite andb_false_r; reflexivity].
  replace (0 <=? k)%nat with true by reflexivity.
  replace (k <? 0 + length ths)%nat with true by (symmetry; apply Nat.ltb_lt; lia).
  simpl andb. cbv iota. rewrite (Hc2 k Hk), <- HT, <- Hlen.
  rewrite (virialSum_sumBelow t0). apply sumBelow_ext.
  intros p Hp. rewrite Hc1 by lia.
  replace (0 <=? p)%nat with true by reflexivity.
  replace (p <? 0 + length ths)%nat with true by (symmetry; apply Nat.ltb_lt; lia).
  simpl. rewrite Nat.sub_0_r. reflexivity.
Qed.

Lemma workItems_tibs blockIdx ths :
  map idOf ths = workItems blockIdx ->
  tibsFrom 0 ths /\ length ths = Z.to_nat c_threadsPerBlock.
Proof.
  intros H.
  assert (Hl : length ths = Z.to_nat c_threadsPerBlock).
  { rewrite <- (length_map idOf), H. unfold workItems.
    rewrite length_map, length_seq. reflexivity. }
  split; [|exact Hl]. unfold tibsFrom. rewrite Hl.
  assert (Hm : map tibOf ths = map snd (map idOf ths))
    by (rewrite map_map; reflexivity).
  rewrite Hm, H. unfold workItems. rewrite map_map. reflexivity.
Qed.

Lemma workGroup_virial (r : nat) blockIdx d ths d' :
  computeVirial = true ->
  c_threadsPerBlock = (2 ^ Z.of_nat r)%Z -> (6 <= c_threadsPerBlock)%Z ->
  workGroup blockIdx d = Some (ths, d') ->
  forall n,
    nth n (a_virialScaled d') 0
    = nth n (a_virialScaled d) 0 + (if (n <? 6)%nat then virialSum ths n else 0).
Proof.
  intros Hc HT H6 H. pose proof (workGroup_spec _ _ _ _ H) as [Hids _].
  unfold workGroup in H. monad_inv H.
  destruct a as [ths0 m0], a0 as [ths1 m1], a1 as [ths2 m2], a2 as [ths3 m3].
  simpl in H, H0. subst ths3 d'.
  apply collectAll_spec in E as (Hd0 & _ & Hfresh & _). simpl in Hd0.
  destruct (solvePositions_moves (_, _) _ Hfresh E0) as (Hwf1 & _ & Hk1 & _).
  simpl in Hwf1, Hk1.
  destruct (velocityPhase_spec (_, _) _ Hwf1 E1) as (Ht2 & Hk2 & _).
  simpl in Ht2, Hk2. subst ths2.
  destruct (virialPhase_keeps _ _ E2) as (Ht3 & _). simpl in Ht3. subst ths1.
  apply workItems_tibs in Hids as [Htibs Hlen].
  intros n. rewrite (virialPhase_spec r _ _ _ _ Hc HT H6 Htibs Hlen E2 n).
  destruct Hk1 as (_ & _ & _ & _ & Hv1 & _), Hk2 as (_ & _ & _ & _ & Hv2 & _).
  rewrite (Hv2 eq_refl), (Hv1 eq_refl), Hd0. reflexivity.
Qed.

Lemma lincsKernelTrace_virial (r : nat) d ths d' :
  computeVirial = true ->
  c_threadsPerBlock = (2 ^ Z.of_nat r)%Z -> (6 <= c_threadsPerBlock)%Z ->
  lincsKernelTrace d = Some (ths, d') ->
  forall n,
    nth n (a_virialScaled d') 0
    = nth n (a_virialScaled d) 0 + (if (n <? 6)%nat then virialSum ths n else 0).
Proof.
  intros Hc HT H6. unfold lincsKernelTrace. destruct launchable; [|discriminate].
  unfold forRange. intros H.
  apply (forLoop_ind (fun _ => True)
           (fun s s' => exists new,
                fst s' = fst s ++ new
                /\ forall n, nth n (a_virialScaled (snd s')) 0
                             = nth n (a_virialScaled (snd s)) 0
                               + (if (n <? 6)%nat then virialSum new n else 0))) in H;
    [| | | |exact I].
  - destruct H as (_ & new & Hn & HE). simpl in Hn, HE. subst ths. exact HE.
  - intros s. exists []. rewrite app_nil_r. split; [reflexivity|].
    intros n. simpl. destruct (n <? 6)%nat; ring.
  - intros s1 s2 s3 (n1 & E1 & K1) (n2 & E2 & K2). exists (n1 ++ n2).
    split; [rewrite E2, E1, app_assoc; reflexivity|].
    intros n. rewrite K2, K1, virialSum_app. destruct (n <? 6)%nat; ring.
  - intros blockIdx [ths1 d1] s2 _ Hb. monad_inv Hb. subst s2.
    split; [exact I|]. exists l. split; [reflexivity|].
    apply (workGroup_virial r blockIdx); assumption.
Qed.

(** ** Constraints without common atoms *)

Lemma centripetalProjection_value (s r0 : R) (dx : Float3) :
  centripetalProjection s r0 dx
  = Some (s * (r0 - sqrt (2 * (r0 * r0) - dot3 dx dx))).
Proof.
  unfold centripetalProjection, dot3.
  destruct (Rlt_dec 0 _) as [Hpos|Hneg].
  - rewrite (rsqrt_pos _ Hpos). unfold bind. rewrite (times_rsqrt _ Hpos). reflexivity.
  - rewrite sqrt_neg_0 by lra. do 2 f_equal. ring.
Qed.

Lemma loadAtom_Some a k p :
  loadAtom a k = Some p -> p = atomAt a k /\ (0 <= k)%Z.
Proof.
  unfold loadAtom, atomicLoad. intros H. monad_inv H. subst p.
  apply load_Some in E as [Hr Ex], E0 as [_ Ey], E1 as [_ Ez].
  unfold atomAt. rewrite (Ex 0), (Ey 0), (Ez 0).
  split; [reflexivity|]. unfold DIM, dimIndex in Hr. lia.
Qed.

Lemma NoDup_app_inv {A : Type} (l l' : list A) :
  NoDup (l ++ l') -> NoDup l /\ NoDup l' /\ forall a, In a l -> ~ In a l'.
Proof.
  induction l as [|x l IH]; simpl; intros H.
  - split; [constructor|]. split; [exact H|]. intros a [].
  - inversion H as [|? ? Hx Hrest]; subst. destruct (IH Hrest) as (H1 & H2 & H3).
    split; [constructor; [|exact H1]|].
    { intros Hin. apply Hx. apply in_or_app. left. exact Hin. }
    split; [exact H2|]. intros a [<-|Ha]; [|apply H3; exact Ha].
    intros Hin. apply Hx. apply in_or_app. right. exact Hin.
Qed.

Lemma cellOf_atom (k : Z) (dd : Dimension) :
  (0 <= k)%Z -> Z.to_nat (k * DIM + dimIndex dd) = cellOf (Z.to_nat k) dd.
Proof. intros Hk. unfold cellOf, DIM. destruct dd; simpl; lia. Qed.

Lemma totalCorrection_absent ths (a : nat) dd :
  Forall wfThread ths ->
  ~ In (Z.of_nat a) (concat (map atomsOf ths)) ->
  totalCorrection ths (cellOf a dd) = 0.
Proof.
  induction 1 as [|[c v] rest [Hwf _] _ IH]; intros Hnot; simpl; [reflexivity|].
  simpl in Hwf, Hnot. rewrite IH by (intros Hin; apply Hnot, in_or_app; right; exact Hin).
  unfold atomsOf in Hnot. simpl in Hnot.
  destruct (isDummyThread c) eqn:Hd.
  - rewrite (unitCorrection_dummy c _ Hwf Hd). ring.
  - rewrite unitCorrection_cellOf.
    destruct (Z.eqb_spec (Z.of_nat a) (atom_i c)) as [He|_];
      [exfalso; apply Hnot; simpl; auto|].
    destruct (Z.eqb_spec (Z.of_nat a) (atom_j c)) as [He|_];
      [exfalso; apply Hnot; simpl; auto|].
    ring.
Qed.

Lemma totalCorrection_exclusive ths c v dd :
  Forall wfThread ths -> exclusive ths ->
  In (c, v) ths -> isDummyThread c = false ->
  (0 <= atom_i c)%Z -> (0 <= atom_j c)%Z ->
  totalCorrection ths (cellOf (Z.to_nat (atom_i c)) dd)
  = lagrangeScaled v * (- (rc c).[dd] * inverseMassi c)
  /\ totalCorrection ths (cellOf (Z.to_nat (atom_j c)) dd)
     = lagrangeScaled v * ((rc c).[dd] * inverseMassj c).
Proof.
  intros Hwf Hex Hin Hd Hi Hj. unfold exclusive in Hex.
  induction ths as [|[c' v'] rest IH]; [destruct Hin|].
  simpl in Hex. apply NoDup_app_inv in Hex as (Hown & Hrest & Hdisj).
  inversion Hwf as [|? ? [Hwf' _] Hwfr]; subst. simpl in Hwf'.
  destruct Hin as [Heq|Hin].
  - injection Heq as -> ->. simpl.
    unfold atomsOf in Hown, Hdisj. simpl in Hown, Hdisj. rewrite Hd in Hown, Hdisj.
    assert (Hij : atom_i c <> atom_j c).
    { inversion Hown as [|? ? Hni _]; subst. intros Heq. apply Hni. left. congruence. }
    rewrite !totalCorrection_absent;
      try assumption; try (rewrite Z2Nat.id by lia; apply Hdisj; simpl; auto).
    rewrite !unitCorrection_cellOf, !Z2Nat.id by lia.
    rewrite !Z.eqb_refl.
    destruct (Z.eqb_spec (atom_i c) (atom_j c)); [contradiction|].
    destruct (Z.eqb_spec (atom_j c) (atom_i c)); [congruence|].
    split; ring.
  - destruct (IH Hwfr Hrest Hin) as [IHi IHj]. simpl. rewrite IHi, IHj.
    assert (Hini : In (atom_i c) (concat (map atomsOf rest))
                   /\ In (atom_j c) (concat (map atomsOf rest))).
    { split; apply in_concat; exists (atomsOf (c, v));
        (split; [apply in_map; exact Hin | unfold atomsOf; simpl; rewrite Hd; simpl; auto]). }
    destruct Hini as [Hini Hinj].
    unfold atomsOf in Hdisj. simpl in Hdisj.
    destruct (isDummyThread c') eqn:Hd'.
    + rewrite !(unitCorrection_dummy c' _ Hwf' Hd'). split; ring.
    + rewrite !unitCorrection_cellOf, !Z2Nat.id by lia.
      destruct (Z.eqb_spec (atom_i c) (atom_i c')) as [He|_];
        [exfalso; apply (Hdisj (atom_i c)); [rewrite He; simpl; auto | exact Hini]|].
      destruct (Z.eqb_spec (atom_i c) (atom_j c')) as [He|_];
        [exfalso; apply (Hdisj (atom_i c)); [rewrite He; simpl; auto | exact Hini]|].
      destruct (Z.eqb_spec (atom_j c) (atom_i c')) as [He|_];
        [exfalso; apply (Hdisj (atom_j c)); [rewrite He; simpl; auto | exact Hinj]|].
      destruct (Z.eqb_spec (atom_j c) (atom_j c')) as [He|_];
        [exfalso; apply (Hdisj (atom_j c)); [rewrite He; simpl; auto | exact Hinj]|].
      split; ring.
Qed.

Lemma forThreads_each (I : Memory -> Prop) (P P' : Thread -> Prop) (step : Step) :
  (forall c v m v' m',
      P (c, v) -> I m -> step c v m = Some (v', m') -> I m' /\ P' (c, v')) ->
  forall ths m ths' m',
    Forall P ths -> I m -> forThreads step ths m = Some (ths', m') ->
    Forall P' ths' /\ I m'.
Proof.
  intros Hstep. induction ths as [|[c v] rest IH]; intros m ths' m' HP HI H.
  - simpl in H. injection H as <- <-. auto.
  - simpl in H. monad_inv H. subst ths' m'.
    inversion HP as [|? ? Hc Hrest]; subst.
    destruct (Hstep _ _ _ _ _ Hc HI E) as [HI1 Hc'].
    destruct (IH _ _ _ Hrest HI1 E0) as [HF HI2].
    split; [constructor; assumption | exact HI2].
Qed.

Lemma forLoop_count {S : Type} (Inv : nat -> S -> Prop) (body : Z -> S -> option S) :
  (forall k z s s', Inv k s -> body z s = Some s' -> Inv (Datatypes.S k) s') ->
  forall count k z s s',
    Inv k s -> forLoop body count z s = Some s' -> Inv (k + count)%nat s'.
Proof.
  intros Hbody. induction count as [|count IH]; intros k z s s' HI H.
  - simpl in H. injection H as <-. rewrite Nat.add_0_r. exact HI.
  - simpl in H. monad_inv H. rewrite Nat.add_succ_r.
    apply (IH (Datatypes.S k) _ _ _ (Hbody _ _ _ _ HI E) H).
Qed.

Lemma endI_0 c p : endI c p 0 = p.
Proof. destruct p. unfold endI. simpl. f_equal; ring. Qed.

Lemma endJ_0 c p : endJ c p 0 = p.
Proof. destruct p. unfold endJ. simpl. f_equal; ring. Qed.

Lemma loadEndPoints_real c v m pi pj :
  isDummyThread c = false ->
  loadEndPoints c v m = Some (pi, pj) ->
  pi = atomAt (a_xp (dev m)) (atom_i c) /\ pj = atomAt (a_xp (dev m)) (atom_j c).
Proof.
  unfold loadEndPoints. intros Hd H. rewrite Hd in H. monad_inv H. subst.
  apply loadAtom_Some in E as [-> _], E0 as [-> _]. auto.
Qed.

Lemma projectionStep_real c v m v' m' :
  haveCoupledConstraints = false -> isDummyThread c = false ->
  projectionStep c v m = Some (v', m') ->
  dev m' = dev m
  /\ lagrangeScaled v' = lagrangeScaled v
  /\ sol v' = sqrtReducedMass c
              * (dot3 (rc c) (pbcDxAiucSycl pbcAiuc (atomAt (a_xp (dev m)) (atom_i c))
                                (atomAt (a_xp (dev m)) (atom_j c)))
                 - targetLength c).
Proof.
  intros Hc Hd H. unfold projectionStep in H. rewrite Hc in H.
  cbn [bind] in H. cbv beta iota in H. monad_inv H. subst v' m'.
  apply (loadEndPoints_real _ _ _ _ _ Hd) in E as [-> ->]. simpl. auto.
Qed.

Lemma centripetalStep_real c v m v' m' :
  isDummyThread c = false ->
  centripetalStep c v m = Some (v', m') ->
  dev m' = dev m
  /\ lagrangeScaled v' = lagrangeScaled v
  /\ sol v'
     = sqrtReducedMass c
       * (targetLength c
          - sqrt (2 * (targetLength c * targetLength c)
                  - dot3 (pbcDxAiucSycl pbcAiuc (atomAt (a_xp (dev m)) (atom_i c))
                            (atomAt (a_xp (dev m)) (atom_j c)))
                      (pbcDxAiucSycl pbcAiuc (atomAt (a_xp (dev m)) (atom_i c))
                         (atomAt (a_xp (dev m)) (atom_j c))))).
Proof.
  intros Hd H. unfold centripetalStep in H. monad_inv H. subst v' m'.
  apply (loadEndPoints_real _ _ _ _ _ Hd) in E as [-> ->].
  rewrite centripetalProjection_value in E0. injection E0 as <-. simpl. auto.
Qed.

Lemma placed_of_moves xp0 ths0 m0 ths m d :
  a_xp (dev m0) = xp0 ->
  Forall freshThread ths0 ->
  movesRel (ths0, m0) (ths, m) ->
  Forall wfThread ths -> exclusive ths ->
  Forall (fun t => describes d (fst t)) ths ->
  Forall (placed xp0 (a_xp (dev m))) ths.
Proof.
  intros Hx0 Hfresh [_ [_ Hmove]] Hwf Hex Hdesc. simpl in Hmove.
  apply Forall_forall. intros [c v] Hin Hd. simpl in Hd |- *.
  rewrite Forall_forall in Hdesc. destruct (Hdesc _ Hin) as (_ & _ & _ & Hreal).
  simpl in Hreal. destruct (Hreal Hd) as (_ & Hi & Hj & _).
  apply load_Some in Hi as [Hi _], Hj as [Hj _].
  assert (Hcell : forall n, nth n (a_xp (dev m)) 0 = nth n xp0 0 + totalCorrection ths n).
  { intros n. specialize (Hmove n).
    rewrite (totalCorrection_fresh _ n Hfresh), Hx0 in Hmove. lra. }
  unfold atomAt, endI, endJ. cbn [comp f3x f3y f3z].
  rewrite !cellOf_atom by lia. rewrite !Hcell.
  destruct (totalCorrection_exclusive ths c v XX Hwf Hex Hin Hd) as [-> ->]; try lia.
  destruct (totalCorrection_exclusive ths c v YY Hwf Hex Hin Hd) as [-> ->]; try lia.
  destruct (totalCorrection_exclusive ths c v ZZ Hwf Hex Hin Hd) as [-> ->]; try lia.
  auto.
Qed.

Lemma exclusive_consts (ths ths' : list Thread) :
  map fst ths' = map fst ths -> exclusive ths -> exclusive ths'.
Proof.
  intros Hm. unfold exclusive.
  assert (Ha : forall l : list Thread,
             map atomsOf l
             = map (fun c => if isDummyThread c then [] else [atom_i c; atom_j c])
                 (map fst l)).
  { intros l. rewrite map_map. reflexivity. }
  rewrite !Ha, Hm. auto.
Qed.

Lemma expandMatrix_uncoupled s :
  haveCoupledConstraints = false -> expandMatrix s = Some s.
Proof. intros Hc. unfold expandMatrix. rewrite Hc. reflexivity. Qed.

Section Uncoupled.
Hypothesis Hc : haveCoupledConstraints = false.
Variable xp0 : list R.
Variable d : DeviceBuffers.

Lemma projection_phase ths m ths' m' :
  a_xp (dev m) = xp0 ->
  Forall freshThread ths ->
  forThreads projectionStep ths m = Some (ths', m') ->
  Forall (projected xp0) ths' /\ a_xp (dev m') = xp0.
Proof.
  intros Hx HF H.
  apply (forThreads_each (fun m => a_xp (dev m) = xp0) freshThread (projected xp0))
    in H; [exact H| |exact HF|exact Hx].
  intros c v m1 v' m1' [_ Hl] HI Hs. simpl in Hl.
  pose proof (projectionStep_spec _ _ _ _ _ Hs) as (_ & (_ & _ & Hxp & _) & _).
  split; [rewrite (Hxp eq_refl); exact HI|].
  intros Hd. simpl in Hd |- *.
  apply (projectionStep_real _ _ _ _ _ Hc Hd) in Hs as (_ & Hl' & Hsol).
  split; [congruence|]. rewrite Hsol, HI. unfold dxAt. rewrite endI_0, endJ_0.
  reflexivity.
Qed.

Lemma correctPositions_phase ths m ths' m' :
  Forall freshThread ths -> Forall (projected xp0) ths ->
  forThreads correctPositions ths m = Some (ths', m') ->
  Forall (onTrack xp0 0) ths'.
Proof.
  intros HF HP H.
  apply (forThreads_each (fun _ => True)
           (fun t => freshThread t /\ projected xp0 t) (onTrack xp0 0)) in H;
    [apply H| |apply Forall_and; assumption|exact I].
  intros c v m1 v' m1' [[Hwf _] Hp] _ Hs. simpl in Hwf.
  apply (correctPositions_spec _ _ _ _ _ Hwf) in Hs as (Hl & _).
  split; [exact I|]. intros Hd. simpl in Hd |- *.
  destruct (Hp Hd) as [_ Hsol]. simpl in Hsol. rewrite Hl, Hsol. reflexivity.
Qed.

Lemma centripetal_phase n ths m ths' m' :
  Forall (onTrack xp0 n) ths -> Forall (placed xp0 (a_xp (dev m))) ths ->
  forThreads centripetalStep ths m = Some (ths', m') ->
  Forall (armed xp0 n) ths'.
Proof.
  intros HT HP H.
  apply (forThreads_each (fun m1 => a_xp (dev m1) = a_xp (dev m))
           (fun t => onTrack xp0 n t /\ placed xp0 (a_xp (dev m)) t) (armed xp0 n)) in H;
    [apply H| |apply Forall_and; assumption|reflexivity].
  intros c v m1 v' m1' [Ht Hp] HI Hs.
  pose proof (centripetalStep_spec _ _ _ _ _ Hs) as (_ & _ & Hdev & _).
  split; [rewrite Hdev; exact HI|].
  intros Hd. simpl in Hd |- *.
  apply (centripetalStep_real _ _ _ _ _ Hd) in Hs as (_ & Hl & Hsol).
  specialize (Ht Hd). specialize (Hp Hd). simpl in Ht, Hp. destruct Hp as [Hpi Hpj].
  split; [congruence|].
  rewrite Hsol, HI, Hpi, Hpj, Ht. reflexivity.
Qed.

Lemma correctRotation_phase n ths m ths' m' :
  Forall wfThread ths -> Forall (armed xp0 n) ths ->
  forThreads correctRotation ths m = Some (ths', m') ->
  Forall (onTrack xp0 (S n)) ths'.
Proof.
  intros HW HA H.
  apply (forThreads_each (fun _ => True)
           (fun t => wfThread t /\ armed xp0 n t) (onTrack xp0 (S n))) in H;
    [apply H| |apply Forall_and; assumption|exact I].
  intros c v m1 v' m1' [[Hwf _] Ha] _ Hs. simpl in Hwf.
  apply (correctRotation_spec _ _ _ _ _ Hwf) in Hs as (Hl & _).
  split; [exact I|]. intros Hd. simpl in Hd |- *.
  destruct (Ha Hd) as [Hlam Hsol]. simpl in Hlam, Hsol.
  rewrite Hl, Hlam, Hsol. reflexivity.
Qed.

Lemma solvePositions_onTrack s0 s' :
  a_xp (dev (snd s0)) = xp0 ->
  Forall freshThread (fst s0) -> exclusive (fst s0) ->
  Forall (fun t => describes d (fst t)) (fst s0) ->
  solvePositions s0 = Some s' ->
  Forall (onTrack xp0 (Z.to_nat numIterations)) (fst s').
Proof.
  destruct s0 as [ths0 m0]. cbn [fst snd]. intros Hx Hfresh Hex Hdesc H.
  unfold solvePositions in H. cbn [fst snd] in H. monad_inv H.
  rewrite expandMatrix_uncoupled in E0 by exact Hc. injection E0 as <- <-.
  destruct (forThreads_moves _ _ _ _ _ _ _ (projectionStep_moves _) Hfresh E)
    as [Hfresh1 R1].
  destruct (projection_phase _ _ _ _ Hx Hfresh E) as [Hproj _].
  destruct (forThreads_moves _ _ _ _ _ _ _ correctPositions_moves Hfresh1 E1)
    as [Hwf2 R2].
  pose proof (correctPositions_phase _ _ _ _ Hfresh1 Hproj E1) as Htrack.
  pose proof (movesRel_trans _ _ _ R1 R2) as R02.
  unfold centripetalLoop, forRange in H.
  apply (forLoop_count
           (fun k s => movesRel (ths0, m0) s /\ Forall wfThread (fst s)
                       /\ Forall (onTrack xp0 k) (fst s))) with (k := 0%nat) in H.
  - destruct H as (_ & _ & H). rewrite Z.sub_0_r in H. exact H.
  - clear - Hc Hx Hfresh Hex Hdesc.
    intros k z [ths m] s' (R & Hwf & Ht) Hb. cbn [fst snd] in *. monad_inv Hb.
    rewrite expandMatrix_uncoupled in E0 by exact Hc. injection E0 as <- <-.
    destruct s' as [ths' m'].
    assert (Hpl : Forall (placed xp0 (a_xp (dev m))) ths).
    { destruct R as [Rc Rm]. unfold sameConsts in Rc. cbn [fst] in Rc.
      apply (placed_of_moves xp0 ths0 m0 ths m d Hx Hfresh); auto.
      - split; assumption.
      - eapply exclusive_consts; eassumption.
      - eapply Forall_consts; eassumption. }
    destruct (forThreads_moves _ _ _ _ _ _ _ (centripetalStep_moves _) Hwf E)
      as [Hwf1 R1].
    pose proof (centripetal_phase _ _ _ _ _ Ht Hpl E) as Harm.
    destruct (forThreads_moves _ _ _ _ _ _ _ correctRotation_moves Hwf1 Hb)
      as [Hwf2 R2].
    pose proof (correctRotation_phase _ _ _ _ _ Hwf1 Harm Hb) as Ht2.
    cbn [fst snd]. split; [|split; assumption].
    eapply movesRel_trans; [exact R|]. eapply movesRel_trans; eassumption.
  - cbn [fst snd]. auto.
Qed.
End Uncoupled.

Lemma exclusive_app_inv ths1 ths2 :
  exclusive (ths1 ++ ths2) ->
  exclusive ths1 /\ exclusive ths2
  /\ forall a, In a (concat (map atomsOf ths1)) -> ~ In a (concat (map atomsOf ths2)).
Proof.
  unfold exclusive. rewrite map_app, concat_app. apply NoDup_app_inv.
Qed.

Lemma placed_of_cells xp xp' ths d :
  (forall n, nth n xp' 0 = nth n xp 0 + totalCorrection ths n) ->
  Forall wfThread ths -> exclusive ths ->
  Forall (fun t => describes d (fst t)) ths ->
  Forall (placed xp xp') ths.
Proof.
  intros Hcell Hwf Hex Hdesc.
  apply Forall_forall. intros [c v] Hin Hd. simpl in Hd |- *.
  rewrite Forall_forall in Hdesc. destruct (Hdesc _ Hin) as (_ & _ & _ & Hreal).
  simpl in Hreal. destruct (Hreal Hd) as (_ & Hi & Hj & _).
  apply load_Some in Hi as [Hi _], Hj as [Hj _].
  unfold atomAt, endI, endJ. cbn [comp f3x f3y f3z].
  rewrite !cellOf_atom by lia. rewrite !Hcell.
  destruct (totalCorrection_exclusive ths c v XX Hwf Hex Hin Hd) as [-> ->]; try lia.
  destruct (totalCorrection_exclusive ths c v YY Hwf Hex Hin Hd) as [-> ->]; try lia.
  destruct (totalCorrection_exclusive ths c v ZZ Hwf Hex Hin Hd) as [-> ->]; try lia.
  auto.
Qed.

Lemma lamAfter_ext xp xp' c n :
  atomAt xp (atom_i c) = atomAt xp' (atom_i c) ->
  atomAt xp (atom_j c) = atomAt xp' (atom_j c) ->
  lamAfter xp c n = lamAfter xp' c n.
Proof.
  intros Hi Hj.
  assert (Hdx : forall lam, dxAt xp c lam = dxAt xp' c lam)
    by (intros lam; unfold dxAt; rewrite Hi, Hj; reflexivity).
  induction n as [|n IH]; simpl.
  - rewrite Hdx. reflexivity.
  - rewrite IH. unfold projAt. rewrite Hdx. reflexivity.
Qed.

Lemma atomAt_absent xp xp' ths (k : Z) :
  (forall n, nth n xp' 0 = nth n xp 0 + totalCorrection ths n) ->
  Forall wfThread ths -> (0 <= k)%Z ->
  ~ In k (concat (map atomsOf ths)) ->
  atomAt xp' k = atomAt xp k.
Proof.
  intros Hcell Hwf Hk Hnot. unfold atomAt.
  rewrite !cellOf_atom by lia. rewrite !Hcell.
  rewrite !totalCorrection_absent by (try assumption; rewrite Z2Nat.id by lia; exact Hnot).
  f_equal; ring.
Qed.

Lemma workGroup_onTrack blockIdx d ths d' :
  haveCoupledConstraints = false ->
  workGroup blockIdx d = Some (ths, d') -> exclusive ths ->
  Forall (onTrack (a_xp d) (Z.to_nat numIterations)) ths.
Proof.
  intros Hc H Hex. unfold workGroup in H. monad_inv H.
  destruct a as [ths0 m0], a0 as [ths1 m1], a1 as [ths2 m2], a2 as [ths3 m3].
  simpl in H, H0. subst ths3 d'.
  apply collectAll_spec in E as (Hd0 & _ & Hfresh & Hdesc & _). simpl in Hd0.
  destruct (solvePositions_moves (_, _) _ Hfresh E0) as (Hwf1 & Hc1 & _).
  unfold sameConsts in Hc1. simpl in Hwf1, Hc1.
  destruct (velocityPhase_spec (_, _) _ Hwf1 E1) as (Ht2 & _). simpl in Ht2. subst ths2.
  destruct (virialPhase_keeps _ _ E2) as (Ht3 & _). simpl in Ht3. subst ths.
  apply (solvePositions_onTrack Hc (a_xp d) d (ths0, m0) (ths1, m1));
    cbn [fst snd]; auto.
  - rewrite Hd0. reflexivity.
  - eapply exclusive_consts; [symmetry; exact Hc1 | exact Hex].
Qed.

Lemma lincsKernelTrace_onTrack d ths d' :
  haveCoupledConstraints = false ->
  lincsKernelTrace d = Some (ths, d') -> exclusive ths ->
  Forall (onTrack (a_xp d) (Z.to_nat numIterations)) ths.
Proof.
  intros Hc. unfold lincsKernelTrace. destruct launchable; [|discriminate].
  unfold forRange. intros H.
  apply (forLoop_ind (fun _ => True)
           (fun s s' => exists new,
                fst s' = fst s ++ new /\ kernelEffect (snd s) new (snd s')
                /\ (exclusive new ->
                    Forall (onTrack (a_xp (snd s)) (Z.to_nat numIterations)) new)))
    in H; [| | | |exact I].
  - destruct H as (_ & new & Hn & _ & HT). simpl in Hn, HT. subst ths. exact HT.
  - intros s. exists []. rewrite app_nil_r. split; [reflexivity|].
    split; [apply kernelEffect_nil | constructor].
  - intros s1 s2 s3 (n1 & E1 & K1 & T1) (n2 & E2 & K2 & T2). exists (n1 ++ n2).
    split; [rewrite E2, E1, app_assoc; reflexivity|].
    split; [eapply kernelEffect_app; eassumption|].
    intros Hex. apply exclusive_app_inv in Hex as (Hex1 & Hex2 & Hdisj).
    apply Forall_app. split; [apply T1; exact Hex1|].
    specialize (T2 Hex2).
    destruct K1 as (_ & Hwf1 & _ & Hx1 & _), K2 as (Hd2 & _).
    rewrite Forall_forall in T2, Hd2 |- *. intros [c v] Hin Hd.
    specialize (T2 _ Hin Hd). simpl in T2 |- *. rewrite T2.
    destruct (Hd2 _ Hin) as (_ & _ & _ & Hreal). simpl in Hreal, Hd.
    destruct (Hreal Hd) as (_ & Hi & Hj & _).
    apply load_Some in Hi as [Hi _], Hj as [Hj _].
    assert (Hatoms : In (atom_i c) (concat (map atomsOf n2))
                     /\ In (atom_j c) (concat (map atomsOf n2))).
    { split; apply in_concat; exists (atomsOf (c, v));
        (split; [apply in_map; exact Hin | unfold atomsOf; simpl; rewrite Hd; simpl; auto]). }
    apply lamAfter_ext; apply (atomAt_absent _ _ n1); auto; try lia;
      intros Hin1; apply (Hdisj _ Hin1); tauto.
  - intros blockIdx [ths1 d1] s2 _ Hb. monad_inv Hb. subst s2.
    split; [exact I|]. exists l. split; [reflexivity|].
    split; [apply workGroup_spec in E; tauto|].
    intros Hex. eapply (workGroup_onTrack blockIdx); eassumption.
Qed.

Lemma naive_is_lamAfter xp c wi wj r0 x_i x_j (n : nat) :
  inverseMassi c = wi -> inverseMassj c = wj -> targetLength c = r0 ->
  sqrtReducedMass c = sqrt (reducedMass wi wj) ->
  rc c = normalized (pbcDxAiucSycl pbcAiuc x_i x_j) ->
  Nat.iter n
    (naiveCentripetal (reducedMass wi wj) r0
       (normalized (pbcDxAiucSycl pbcAiuc x_i x_j)) wi wj)
    (applyMultiplier (normalized (pbcDxAiucSycl pbcAiuc x_i x_j)) wi wj
       (sqrt (reducedMass wi wj)
        * (sqrt (reducedMass wi wj)
           * (dot3 (normalized (pbcDxAiucSycl pbcAiuc x_i x_j))
                (pbcDxAiucSycl pbcAiuc (atomAt xp (atom_i c)) (atomAt xp (atom_j c)))
              - r0)))
       (atomAt xp (atom_i c), atomAt xp (atom_j c)),
     sqrt (reducedMass wi wj)
     * (sqrt (reducedMass wi wj)
        * (dot3 (normalized (pbcDxAiucSycl pbcAiuc x_i x_j))
             (pbcDxAiucSycl pbcAiuc (atomAt xp (atom_i c)) (atomAt xp (atom_j c)))
           - r0)))
  = ((endI c (atomAt xp (atom_i c)) (lamAfter xp c n),
      endJ c (atomAt xp (atom_j c)) (lamAfter xp c n)),
     lamAfter xp c n).
Proof.
  intros Hwi Hwj Hr0 Hmu Hrc. rewrite <- Hmu, <- Hrc.
  induction n as [|n IH].
  - simpl. unfold dxAt. rewrite endI_0, endJ_0, Hr0.
    unfold applyMultiplier, endI, endJ. rewrite Hwi, Hwj. cbn [fst snd].
    f_equal. f_equal; f_equal; ring.
  - rewrite Nat.iter_succ, IH. unfold naiveCentripetal. cbn [fst snd lamAfter].
    unfold projAt, dxAt. rewrite Hr0, <- !Hmu.
    unfold applyMultiplier, endI, endJ. rewrite Hwi, Hwj. cbn [fst snd comp f3x f3y f3z].
    f_equal. f_equal; f_equal; ring.
Qed.

(** ** The kernel returns *)

Lemma forThreads_ok (I : Memory -> Prop) (P : ThreadConst -> Prop) (step : Step) :
  (forall c v m, P c -> I m -> exists v' m', step c v m = Some (v', m') /\ I m') ->
  forall ths m,
    Forall (fun t => P (fst t)) ths -> I m ->
    exists ths' m',
      forThreads step ths m = Some (ths', m') /\ I m' /\ map fst ths' = map fst ths.
Proof.
  intros Hstep. induction ths as [|[c v] rest IH]; intros m HP HI.
  - exists [], m. simpl. auto.
  - inversion HP as [|? ? Hc Hrest]; subst. simpl in Hc.
    destruct (Hstep c v m Hc HI) as (v' & m1 & E1 & HI1).
    destruct (IH m1 Hrest HI1) as (rest' & m2 & E2 & HI2 & Hm).
    exists ((c, v') :: rest'), m2. simpl. rewrite E1. cbn [bind]. rewrite E2. cbn [bind].
    split; [reflexivity|]. split; [exact HI2|]. simpl. congruence.
Qed.

Lemma forLoop_ok {S : Type} (I : S -> Prop) (body : Z -> S -> option S) :
  (forall z s, I s -> exists s', body z s = Some s' /\ I s') ->
  forall count z s, I s -> exists s', forLoop body count z s = Some s' /\ I s'.
Proof.
  intros Hbody. induction count as [|count IH]; intros z s HI.
  - exists s. simpl. auto.
  - destruct (Hbody z s HI) as (s1 & E1 & HI1).
    destruct (IH (z + 1)%Z s1 HI1) as (s2 & E2 & HI2).
    exists s2. simpl. rewrite E1. cbn [bind]. auto.
Qed.

Lemma load_ok {A : Type} (a : list A) k :
  (0 <= k < Z.of_nat (length a))%Z -> exists x, load a k = Some x.
Proof.
  intros Hk. destruct a as [|x0 a'] eqn:Ea; [simpl in Hk; lia|]. rewrite <- Ea in *.
  exists (nth (Z.to_nat k) a x0). apply load_inRange. exact Hk.
Qed.

Lemma store_ok {A : Type} (a : list A) k v :
  (0 <= k < Z.of_nat (length a))%Z ->
  exists a', store a k v = Some a' /\ length a' = length a.
Proof.
  intros Hk. unfold store. rewrite (proj2 (inRange_true a k) Hk).
  eexists. split; [reflexivity | apply length_update].
Qed.

Lemma atomicFetchAdd_ok a k v :
  (0 <= k < Z.of_nat (length a))%Z ->
  exists a', atomicFetchAdd a k v = Some a' /\ length a' = length a.
Proof.
  intros Hk. unfold atomicFetchAdd.
  destruct (load_ok a k Hk) as (x & ->). cbn [bind]. apply store_ok. exact Hk.
Qed.

Lemma addCorrection_ok a c tmp :
  (0 <= atom_i c)%Z -> (atom_i c * DIM + 2 < Z.of_nat (length a))%Z ->
  (0 <= atom_j c)%Z -> (atom_j c * DIM + 2 < Z.of_nat (length a))%Z ->
  exists a', addCorrection a c tmp = Some a' /\ length a' = length a.
Proof.
  intros Hi Hi' Hj Hj'. unfold addCorrection, DIM, dimIndex in *.
  destruct (atomicFetchAdd_ok a (atom_i c * 3 + 0) (- tmp.[XX] * inverseMassi c))
    as (a1 & -> & L1); [lia|]. cbn [bind].
  destruct (atomicFetchAdd_ok a1 (atom_i c * 3 + 1) (- tmp.[YY] * inverseMassi c))
    as (a2 & -> & L2); [lia|]. cbn [bind].
  destruct (atomicFetchAdd_ok a2 (atom_i c * 3 + 2) (- tmp.[ZZ] * inverseMassi c))
    as (a3 & -> & L3); [lia|]. cbn [bind].
  destruct (atomicFetchAdd_ok a3 (atom_j c * 3 + 0) (tmp.[XX] * inverseMassj c))
    as (a4 & -> & L4); [lia|]. cbn [bind].
  destruct (atomicFetchAdd_ok a4 (atom_j c * 3 + 1) (tmp.[YY] * inverseMassj c))
    as (a5 & -> & L5); [lia|]. cbn [bind].
  destruct (atomicFetchAdd_ok a5 (atom_j c * 3 + 2) (tmp.[ZZ] * inverseMassj c))
    as (a6 & -> & L6); [lia|].
  exists a6. split; [reflexivity | congruence].
Qed.

Lemma loadAtom_ok a k :
  (0 <= k)%Z -> (k * DIM + 2 < Z.of_nat (length a))%Z ->
  exists p, loadAtom a k = Some p.
Proof.
  intros Hk Hk'. unfold loadAtom, atomicLoad, DIM, dimIndex in *.
  destruct (load_ok a (k * 3 + 0)) as (x & ->); [lia|].
  destruct (load_ok a (k * 3 + 1)) as (y & ->); [lia|].
  destruct (load_ok a (k * 3 + 2)) as (z & ->); [lia|].
  cbn [bind]. eexists. reflexivity.
Qed.

Section Returns.
Hypothesis Hc : haveCoupledConstraints = false.
Hypothesis HT : (0 < c_threadsPerBlock)%Z.
Variable numAtoms : nat.

Ltac roomy_tac :=
  unfold roomy in *; simpl in *;
  repeat match goal with H : _ /\ _ |- _ => destruct H end;
  repeat split; intros;
  repeat match goal with H : ?b = true -> _, H' : ?b = true |- _ => specialize (H H') end;
  repeat match goal with H : _ /\ _ |- _ => destruct H end;
  try congruence; try lia.

Lemma loadEndPoints_ok c v m :
  inside numAtoms c -> roomy numAtoms m -> exists p, loadEndPoints c v m = Some p.
Proof.
  intros [_ Hin] (Hxp & _). unfold loadEndPoints.
  destruct (isDummyThread c); [eexists; reflexivity|].
  destruct (Hin eq_refl) as [Hi Hj].
  destruct (loadAtom_ok (a_xp (dev m)) (atom_i c)) as (pi & ->); [lia|unfold DIM; lia|].
  destruct (loadAtom_ok (a_xp (dev m)) (atom_j c)) as (pj & ->); [lia|unfold DIM; lia|].
  cbn [bind]. eexists. reflexivity.
Qed.

Lemma projectionStep_ok c v m :
  inside numAtoms c -> roomy numAtoms m ->
  exists v' m', projectionStep c v m = Some (v', m') /\ roomy numAtoms m'.
Proof.
  intros Hin Hr. unfold projectionStep. rewrite Hc. cbn [bind]. cbv beta iota.
  destruct (loadEndPoints_ok c v m Hin Hr) as ([pi pj] & ->). cbn [bind]. cbv beta iota.
  destruct (store_ok (sm_rhs (loc m)) (threadInBlock c)
              (sqrtReducedMass c
               * ((rc c).[XX] * (pbcDxAiucSycl pbcAiuc pi pj).[XX]
                  + (rc c).[YY] * (pbcDxAiucSycl pbcAiuc pi pj).[YY]
                  + (rc c).[ZZ] * (pbcDxAiucSycl pbcAiuc pi pj).[ZZ] - targetLength c)))
    as (rhs & -> & HL).
  { destruct Hin as [Htib _], Hr as (_ & _ & Hrhs & _). lia. }
  cbn [bind]. do 2 eexists. split; [reflexivity|]. roomy_tac.
Qed.

Lemma centripetalStep_ok c v m :
  inside numAtoms c -> roomy numAtoms m ->
  exists v' m', centripetalStep c v m = Some (v', m') /\ roomy numAtoms m'.
Proof.
  intros Hin Hr. unfold centripetalStep.
  destruct (loadEndPoints_ok c v m Hin Hr) as ([pi pj] & ->). cbn [bind]. cbv beta iota.
  rewrite centripetalProjection_value. cbn [bind].
  destruct (store_ok (sm_rhs (loc m)) (threadInBlock c)
              (sqrtReducedMass c
               * (targetLength c
                  - sqrt (2 * (targetLength c * targetLength c)
                          - dot3 (pbcDxAiucSycl pbcAiuc pi pj)
                              (pbcDxAiucSycl pbcAiuc pi pj)))))
    as (rhs & -> & HL).
  { destruct Hin as [Htib _], Hr as (_ & _ & Hrhs & _). lia. }
  cbn [bind]. do 2 eexists. split; [reflexivity|]. roomy_tac.
Qed.

Lemma correction_ok (a : list R) c tmp :
  inside numAtoms c -> isDummyThread c = false -> length a = (3 * numAtoms)%nat ->
  exists a', addCorrection a c tmp = Some a' /\ length a' = length a.
Proof.
  intros [_ Hin] Hd Hl. destruct (Hin Hd) as [Hi Hj].
  apply addCorrection_ok; unfold DIM; lia.
Qed.

Lemma correctPositions_ok c v m :
  inside numAtoms c -> roomy numAtoms m ->
  exists v' m', correctPositions c v m = Some (v', m') /\ roomy numAtoms m'.
Proof.
  intros Hin Hr. unfold correctPositions.
  destruct (isDummyThread c) eqn:Hd; [do 2 eexists; split; [reflexivity | exact Hr]|].
  destruct (correction_ok (a_xp (dev m)) c
              (times (rc c) (sqrtReducedMass c * sol v)) Hin Hd) as (a' & -> & HL);
    [apply Hr|].
  cbn [bind]. do 2 eexists. split; [reflexivity|]. roomy_tac.
Qed.

Lemma correctRotation_ok c v m :
  inside numAtoms c -> roomy numAtoms m ->
  exists v' m', correctRotation c v m = Some (v', m') /\ roomy numAtoms m'.
Proof.
  intros Hin Hr. unfold correctRotation.
  destruct (isDummyThread c) eqn:Hd; [do 2 eexists; split; [reflexivity | exact Hr]|].
  destruct (correction_ok (a_xp (dev m)) c
              (times (rc c) (sqrtReducedMass c * sol v)) Hin Hd) as (a' & -> & HL);
    [apply Hr|].
  cbn [bind]. do 2 eexists. split; [reflexivity|]. roomy_tac.
Qed.

Lemma updateVelocityStep_ok c v m :
  updateVelocities = true ->
  inside numAtoms c -> roomy numAtoms m ->
  exists v' m', updateVelocityStep c v m = Some (v', m') /\ roomy numAtoms m'.
Proof.
  intros Hu Hin Hr. unfold updateVelocityStep.
  destruct (isDummyThread c) eqn:Hd; [do 2 eexists; split; [reflexivity | exact Hr]|].
  destruct (correction_ok (a_v (dev m)) c
              (times (times (rc c) invdt) (lagrangeScaled v)) Hin Hd) as (a' & -> & HL);
    [apply Hr; exact Hu|].
  cbn [bind]. do 2 eexists. split; [reflexivity|]. roomy_tac.
Qed.

Lemma solvePositions_ok s :
  settled numAtoms s -> exists s', solvePositions s = Some s' /\ settled numAtoms s'.
Proof.
  destruct s as [ths m]. intros [Hin Hr]. cbn [fst snd] in *.
  unfold solvePositions. cbn [fst snd].
  destruct (forThreads_ok (roomy numAtoms) (inside numAtoms) projectionStep
              projectionStep_ok ths m Hin Hr) as (ths1 & m1 & -> & Hr1 & Hm1).
  cbn [bind]. cbv beta iota. rewrite expandMatrix_uncoupled by exact Hc.
  cbn [bind]. cbv beta iota.
  assert (Hin1 : Forall (fun t => inside numAtoms (fst t)) ths1)
    by (eapply Forall_consts; [exact Hm1 | exact Hin]).
  destruct (forThreads_ok (roomy numAtoms) (inside numAtoms) correctPositions
              correctPositions_ok ths1 m1 Hin1 Hr1) as (ths2 & m2 & -> & Hr2 & Hm2).
  cbn [bind]. cbv beta iota.
  assert (Hin2 : Forall (fun t => inside numAtoms (fst t)) ths2)
    by (eapply Forall_consts; [exact Hm2 | exact Hin1]).
  unfold centripetalLoop, forRange.
  apply (forLoop_ok (settled numAtoms)); [|split; assumption].
  clear - Hc HT. intros z [ths m] [Hin Hr]. cbn [fst snd] in *.
  destruct (forThreads_ok (roomy numAtoms) (inside numAtoms) centripetalStep
              centripetalStep_ok ths m Hin Hr) as (ths1 & m1 & -> & Hr1 & Hm1).
  cbn [bind]. cbv beta iota. rewrite expandMatrix_uncoupled by exact Hc.
  cbn [bind]. cbv beta iota.
  assert (Hin1 : Forall (fun t => inside numAtoms (fst t)) ths1)
    by (eapply Forall_consts; [exact Hm1 | exact Hin]).
  destruct (forThreads_ok (roomy numAtoms) (inside numAtoms) correctRotation
              correctRotation_ok ths1 m1 Hin1 Hr1) as (ths2 & m2 & E2 & Hr2 & Hm2).
  exists (ths2, m2). split; [exact E2|]. split; [|exact Hr2]. cbn [fst].
  eapply Forall_consts; [exact Hm2 | exact Hin1].
Qed.

Lemma velocityPhase_ok s :
  settled numAtoms s -> exists s', velocityPhase s = Some s' /\ settled numAtoms s'.
Proof.
  destruct s as [ths m]. intros [Hin Hr]. cbn [fst snd] in *. unfold velocityPhase.
  destruct updateVelocities eqn:Hu; [|exists (ths, m); split; [reflexivity | split; assumption]].
  cbn [fst snd].
  destruct (forThreads_ok (roomy numAtoms) (inside numAtoms) updateVelocityStep
              (fun c v m => updateVelocityStep_ok c v m Hu) ths m Hin Hr)
    as (ths1 & m1 & E1 & Hr1 & Hm1).
  exists (ths1, m1). split; [exact E1|]. split; [|exact Hr1]. cbn [fst].
  eapply Forall_consts; [exact Hm1 | exact Hin].
Qed.

Lemma forLoop_ok_range {S : Type} (I : S -> Prop) (body : Z -> S -> option S) count :
  forall z s,
    (forall z' s', (z <= z' < z + Z.of_nat count)%Z -> I s' ->
                   exists s'', body z' s' = Some s'' /\ I s'') ->
    I s -> exists s', forLoop body count z s = Some s' /\ I s'.
Proof.
  induction count as [|count IH]; intros z s Hbody HI.
  - exists s. simpl. auto.
  - destruct (Hbody z s ltac:(lia) HI) as (s1 & E1 & HI1).
    destruct (IH (z + 1)%Z s1) as (s2 & E2 & HI2); [|exact HI1|].
    { intros z' s' Hz. apply Hbody. lia. }
    exists s2. simpl. rewrite E1. cbn [bind]. auto.
Qed.

Lemma saveThreadVirial_ok c v m :
  computeVirial = true ->
  inside numAtoms c -> roomy numAtoms m ->
  exists v' m', saveThreadVirial c v m = Some (v', m') /\ roomy numAtoms m'.
Proof.
  intros Hv [Htib _] Hr. unfold saveThreadVirial.
  assert (Hlen : length (sm_threadVirial (loc m)) = (6 * Z.to_nat c_threadsPerBlock)%nat)
    by (apply Hr; exact Hv).
  set (mult := targetLength c * lagrangeScaled v).
  destruct (store_ok (sm_threadVirial (loc m)) (0 * c_threadsPerBlock + threadInBlock c)
              (mult * (rc c).[XX] * (rc c).[XX])) as (w0 & -> & L0); [lia|]. cbn [bind].
  destruct (store_ok w0 (1 * c_threadsPerBlock + threadInBlock c)
              (mult * (rc c).[XX] * (rc c).[YY])) as (w1 & -> & L1); [lia|]. cbn [bind].
  destruct (store_ok w1 (2 * c_threadsPerBlock + threadInBlock c)
              (mult * (rc c).[XX] * (rc c).[ZZ])) as (w2 & -> & L2); [lia|]. cbn [bind].
  destruct (store_ok w2 (3 * c_threadsPerBlock + threadInBlock c)
              (mult * (rc c).[YY] * (rc c).[YY])) as (w3 & -> & L3); [lia|]. cbn [bind].
  destruct (store_ok w3 (4 * c_threadsPerBlock + threadInBlock c)
              (mult * (rc c).[YY] * (rc c).[ZZ])) as (w4 & -> & L4); [lia|]. cbn [bind].
  destruct (store_ok w4 (5 * c_threadsPerBlock + threadInBlock c)
              (mult * (rc c).[ZZ] * (rc c).[ZZ])) as (w5 & -> & L5); [lia|]. cbn [bind].
  do 2 eexists. split; [reflexivity|]. roomy_tac.
Qed.

Lemma reduceStep_ok dividedAt c v m :
  computeVirial = true ->
  (0 < dividedAt)%Z -> (dividedAt + dividedAt <= c_threadsPerBlock)%Z ->
  inside numAtoms c -> roomy numAtoms m ->
  exists v' m', reduceStep dividedAt c v m = Some (v', m') /\ roomy numAtoms m'.
Proof.
  intros Hv Hh H2h [Htib _] Hr. unfold reduceStep.
  destruct (Z.ltb_spec (threadInBlock c) dividedAt) as [Hlt|Hge];
    [|do 2 eexists; split; [reflexivity | exact Hr]].
  assert (Hlen : length (sm_threadVirial (loc m)) = (6 * Z.to_nat c_threadsPerBlock)%nat)
    by (apply Hr; exact Hv).
  unfold forRange. change (Z.to_nat (6 - 0)) with 6%nat.
  destruct (forLoop_ok_range
              (fun w : list R => length w = (6 * Z.to_nat c_threadsPerBlock)%nat)
              (reduceCell dividedAt (threadInBlock c))
              6 0%Z (sm_threadVirial (loc m))) as (w' & -> & Hw'); [|exact Hlen|].
  - intros z w Hz Hw. unfold reduceCell. cbv zeta.
    destruct (load_ok w (z * c_threadsPerBlock + threadInBlock c)) as (a & ->); [nia|].
    destruct (load_ok w (z * c_threadsPerBlock + (threadInBlock c + dividedAt)))
      as (b & ->); [nia|].
    cbn [bind].
    destruct (store_ok w (z * c_threadsPerBlock + threadInBlock c) (a + b))
      as (w2 & -> & L2); [nia|].
    exists w2. split; [reflexivity | congruence].
  - cbn [bind]. do 2 eexists. split; [reflexivity|]. roomy_tac.
Qed.

Lemma reduceLoop_ok fuel : forall divideBy s,
  computeVirial = true ->
  (2 <= divideBy)%Z -> (c_threadsPerBlock < divideBy * 2 ^ Z.of_nat fuel)%Z ->
  settled numAtoms s ->
  exists s', reduceLoop fuel divideBy s = Some s' /\ settled numAtoms s'.
Proof.
  induction fuel as [|fuel IH]; intros divideBy [ths m] Hv HD Hf [Hin Hr];
    cbn [reduceLoop fst snd] in *.
  - destruct (Z.leb_spec divideBy c_threadsPerBlock) as [Hle|Hgt].
    + exfalso. change (2 ^ Z.of_nat 0)%Z with 1%Z in Hf. lia.
    + exists (ths, m). split; [reflexivity | split; assumption].
  - destruct (Z.leb_spec divideBy c_threadsPerBlock) as [Hle|Hgt];
      [|exists (ths, m); split; [reflexivity | split; assumption]].
    assert (Hq : (0 < Z.quot c_threadsPerBlock divideBy
                  /\ Z.quot c_threadsPerBlock divideBy
                     + Z.quot c_threadsPerBlock divideBy <= c_threadsPerBlock)%Z).
    { rewrite Z.quot_div_nonneg by lia.
      assert (H1 : (1 <= c_threadsPerBlock / divideBy)%Z)
        by (apply Z.div_le_lower_bound; lia).
      assert (H2 : (divideBy * (c_threadsPerBlock / divideBy) <= c_threadsPerBlock)%Z)
        by (apply Z.mul_div_le; lia).
      split; [lia | nia]. }
    destruct Hq as [Hq1 Hq2].
    destruct (forThreads_ok (roomy numAtoms) (inside numAtoms)
                (reduceStep (Z.quot c_threadsPerBlock divideBy))
                (fun c v m => reduceStep_ok _ c v m Hv Hq1 Hq2) ths m Hin Hr)
      as (ths1 & m1 & -> & Hr1 & Hm1).
    cbn [bind]. apply IH; [exact Hv | lia | |].
    + rewrite Nat2Z.inj_succ, Z.pow_succ_r in Hf by lia. lia.
    + split; [|exact Hr1]. cbn [fst]. eapply Forall_consts; [exact Hm1 | exact Hin].
Qed.

Lemma addBlockVirial_ok c v m :
  computeVirial = true ->
  inside numAtoms c -> roomy numAtoms m ->
  exists v' m', addBlockVirial c v m = Some (v', m') /\ roomy numAtoms m'.
Proof.
  intros Hv [Htib _] Hr. unfold addBlockVirial.
  destruct (Z.ltb_spec (threadInBlock c) 6) as [Hlt|Hge];
    [|do 2 eexists; split; [reflexivity | exact Hr]].
  assert (Hlen : length (sm_threadVirial (loc m)) = (6 * Z.to_nat c_threadsPerBlock)%nat
                 /\ (6 <= length (a_virialScaled (dev m)))%nat)
    by (apply Hr; exact Hv).
  destruct Hlen as [Hlen Hvir].
  destruct (load_ok (sm_threadVirial (loc m)) (threadInBlock c * c_threadsPerBlock))
    as (x & ->); [nia|]. cbn [bind].
  destruct (atomicFetchAdd_ok (a_virialScaled (dev m)) (threadInBlock c) x)
    as (w & -> & L); [lia|]. cbn [bind].
  do 2 eexists. split; [reflexivity|]. roomy_tac.
Qed.

Lemma virialPhase_ok s :
  settled numAtoms s -> exists s', virialPhase s = Some s' /\ settled numAtoms s'.
Proof.
  destruct s as [ths m]. intros [Hin Hr]. cbn [fst snd] in *. unfold virialPhase.
  destruct computeVirial eqn:Hv; [|exists (ths, m); split; [reflexivity | split; assumption]].
  cbn [fst snd].
  destruct (forThreads_ok (roomy numAtoms) (inside numAtoms) saveThreadVirial
              (fun c v m => saveThreadVirial_ok c v m Hv) ths m Hin Hr)
    as (ths1 & m1 & -> & Hr1 & Hm1).
  cbn [bind]. cbv beta iota.
  assert (Hin1 : Forall (fun t => inside numAtoms (fst t)) ths1)
    by (eapply Forall_consts; [exact Hm1 | exact Hin]).
  destruct (reduceLoop_ok (Z.to_nat c_threadsPerBlock) 2 (ths1, m1) Hv ltac:(lia))
    as ([ths2 m2] & -> & Hin2 & Hr2); [|split; assumption|].
  { rewrite Z2Nat.id by lia.
    pose proof (Z.pow_gt_lin_r 2 c_threadsPerBlock ltac:(lia) ltac:(lia)). lia. }
  cbn [bind fst snd] in *. cbv beta iota.
  destruct (forThreads_ok (roomy numAtoms) (inside numAtoms) addBlockVirial
              (fun c v m => addBlockVirial_ok c v m Hv) ths2 m2 Hin2 Hr2)
    as (ths3 & m3 & E3 & Hr3 & Hm3).
  exists (ths3, m3). split; [exact E3|]. split; [|exact Hr3]. cbn [fst].
  eapply Forall_consts; [exact Hm3 | exact Hin2].
Qed.

End Returns.

Lemma collectData_ok tIndex tInBlock m :
  constraintReady (dev m) tIndex ->
  (0 <= tIndex < Z.of_nat (length (sm_r (loc m))))%Z ->
  exists t m', collectData tIndex tInBlock m = Some (t, m').
Proof.
  unfold constraintReady, collectData. intros Hready Hr.
  destruct (load (a_constraints (dev m)) tIndex) as [ap|]; [|contradiction].
  cbn [bind].
  destruct (pair_i ap =? -1)%Z.
  - cbn [bind]. cbv beta iota. cbn [rc].
    destruct (store_ok (sm_r (loc m)) tIndex zero3 Hr) as (r & -> & _).
    cbn [bind]. do 2 eexists. reflexivity.
  - destruct (load (a_constraintsTargetLengths (dev m)) tIndex) as [tl|]; [|contradiction].
    destruct (load (a_inverseMasses (dev m)) (pair_i ap)) as [wi|]; [|contradiction].
    destruct (load (a_inverseMasses (dev m)) (pair_j ap)) as [wj|]; [|contradiction].
    destruct (load (a_x (dev m)) (pair_i ap)) as [pi|]; [|contradiction].
    destruct (load (a_x (dev m)) (pair_j ap)) as [pj|]; [|contradiction].
    destruct Hready as [Hw Hdx]. cbn [bind].
    rewrite (rsqrt_pos _ Hw). cbn [bind].
    unfold dot3 in Hdx. rewrite (rsqrt_pos _ Hdx). cbn [bind]. cbv beta iota. cbn [rc].
    destruct (store_ok (sm_r (loc m)) tIndex
                (scale (/ sqrt ((pbcDxAiucSycl pbcAiuc pi pj).[XX]
                                * (pbcDxAiucSycl pbcAiuc pi pj).[XX]
                                + (pbcDxAiucSycl pbcAiuc pi pj).[YY]
                                  * (pbcDxAiucSycl pbcAiuc pi pj).[YY]
                                + (pbcDxAiucSycl pbcAiuc pi pj).[ZZ]
                                  * (pbcDxAiucSycl pbcAiuc pi pj).[ZZ]))
                   (pbcDxAiucSycl pbcAiuc pi pj)) Hr) as (r & -> & _).
    cbn [bind]. do 2 eexists. reflexivity.
Qed.

Lemma collectAll_ok ids : forall m,
  Forall (fun id => constraintReady (dev m) (fst id)
                    /\ (0 <= fst id < Z.of_nat (length (sm_r (loc m))))%Z) ids ->
  exists ths m', collectAll ids m = Some (ths, m').
Proof.
  induction ids as [|[ti tb] rest IH]; intros m H.
  - exists [], m. reflexivity.
  - inversion H as [|? ? [Hready Hr] Hrest]; subst. cbn [fst] in *.
    destruct (collectData_ok ti tb m Hready Hr) as ([c v] & m1 & E1).
    pose proof (collectData_spec _ _ _ _ _ _ E1) as (Hd & _ & _ & _ & _ & Hl & _).
    destruct (IH m1) as (ths & m2 & E2).
    { rewrite Hd, Hl. exact Hrest. }
    exists ((c, v) :: ths), m2. cbn [collectAll]. rewrite E1. cbn [bind]. cbv beta iota.
    rewrite E2. reflexivity.
Qed.

Lemma atomsOf_describes d c v : describes d c -> atomsOf (c, v) = atomsAt d (threadIndex c).
Proof.
  intros (Hl & Hd & _). unfold atomsOf, atomsAt. rewrite Hl. cbn [fst pair_i pair_j].
  rewrite Hd. reflexivity.
Qed.

Lemma workGroup_returns blockIdx d :
  haveCoupledConstraints = false -> (0 < c_threadsPerBlock)%Z ->
  Forall (fun id => constraintReady d (fst id)
                    /\ (0 <= fst id < c_threadsPerBlock)%Z) (workItems blockIdx) ->
  length (a_xp d) = (3 * length (a_x d))%nat ->
  (updateVelocities = true -> length (a_v d) = (3 * length (a_x d))%nat) ->
  (computeVirial = true -> (6 <= length (a_virialScaled d))%nat) ->
  exists ths d',
    workGroup blockIdx d = Some (ths, d')
    /\ map atomsOf ths = map (atomsAt d) (map fst (workItems blockIdx)).
Proof.
  intros Hc HT Hready Hxp Hv Hvir.
  destruct (collectAll_ok (workItems blockIdx) (mkMemory localAccessors d))
    as (ths0 & m0 & E0).
  { eapply Forall_impl; [|exact Hready]. intros id [H1 H2]. cbn [dev loc].
    split; [exact H1|]. unfold localAccessors. cbn [sm_r].
    rewrite repeat_length. lia. }
  pose proof (collectAll_spec _ _ _ _ E0) as (Hd0 & Hids & _ & Hdesc & _ & Hrhs & Hsv).
  cbn [dev loc] in Hd0, Hdesc, Hrhs, Hsv.
  assert (Hset : settled (length (a_x d)) (ths0, m0)).
  { split; cbn [fst snd].
    - apply Forall_forall. intros [c v] Hin. cbn [fst].
      assert (Hid : In (idOf (c, v)) (workItems blockIdx))
        by (rewrite <- Hids; apply in_map; exact Hin).
      rewrite Forall_forall in Hdesc. specialize (Hdesc _ Hin). cbn [fst] in Hdesc.
      split.
      + unfold workItems in Hid. apply in_map_iff in Hid as (t & Ht & Hseq).
        apply in_seq in Hseq. unfold idOf in Ht. cbn [fst] in Ht.
        injection Ht as _ Ht. lia.
      + intros Hdum. destruct Hdesc as (_ & _ & _ & Hreal).
        destruct (Hreal Hdum) as (_ & _ & _ & _ & pi & pj & rlen & Hi & Hj & _).
        apply load_Some in Hi as [Hi _], Hj as [Hj _]. lia.
    - unfold roomy. rewrite Hd0, Hrhs, Hsv. unfold localAccessors. cbn [sm_rhs sm_threadVirial].
      rewrite repeat_length. repeat split; auto.
      rewrite H, repeat_length. lia. }
  destruct (solvePositions_ok Hc HT (length (a_x d)) _ Hset) as (s1 & E1 & Hset1).
  destruct (velocityPhase_ok (length (a_x d)) _ Hset1) as (s2 & E2 & Hset2).
  destruct (virialPhase_ok HT (length (a_x d)) _ Hset2) as (s3 & E3 & Hset3).
  assert (Hw : workGroup blockIdx d = Some (fst s3, dev (snd s3))).
  { unfold workGroup. rewrite E0. cbn [bind]. rewrite E1. cbn [bind].
    rewrite E2. cbn [bind]. rewrite E3. reflexivity. }
  exists (fst s3), (dev (snd s3)). split; [exact Hw|].
  apply workGroup_spec in Hw as (Hids3 & Hdesc3 & _).
  rewrite <- Hids3. rewrite !map_map.
  apply map_ext_in. intros [c v] Hin.
  rewrite Forall_forall in Hdesc3. specialize (Hdesc3 _ Hin).
  apply atomsOf_describes. exact Hdesc3.
Qed.

(** One work-group that covers the whole grid. *)
Lemma lincsKernelTrace_returns d :
  haveCoupledConstraints = false -> (0 < c_threadsPerBlock)%Z ->
  numConstraintsThreads = c_threadsPerBlock ->
  Forall (fun id => constraintReady d (fst id)) (workItems 0) ->
  length (a_xp d) = (3 * length (a_x d))%nat ->
  (updateVelocities = true -> length (a_v d) = (3 * length (a_x d))%nat) ->
  (computeVirial = true -> (6 <= length (a_virialScaled d))%nat) ->
  exists ths d',
    lincsKernelTrace d = Some (ths, d')
    /\ map atomsOf ths = map (atomsAt d) (map fst (workItems 0)).
Proof.
  intros Hc HT HN Hready Hxp Hv Hvir.
  destruct (workGroup_returns 0 d Hc HT) as (ths & d' & Hw & Hat); auto.
  { apply Forall_forall. intros id Hin. split.
    - rewrite Forall_forall in Hready. apply Hready. exact Hin.
    - unfold workItems in Hin. apply in_map_iff in Hin as (t & <- & Hseq).
      apply in_seq in Hseq. cbn [fst]. lia. }
  exists ths, d'. split; [|exact Hat].
  unfold lincsKernelTrace, launchable. rewrite HN.
  rewrite Z.rem_same, Z.quot_same by lia.
  replace (0 <? c_threadsPerBlock)%Z with true by (symmetry; apply Z.ltb_lt; lia).
  replace (0 <=? c_threadsPerBlock)%Z with true by (symmetry; apply Z.leb_le; lia).
  cbn [andb Z.eqb]. unfold forRange.
  change (Z.to_nat (1 - 0)) with 1%nat. cbn [forLoop].
  rewrite Hw. reflexivity.
Qed.

(** ** The expansion of the matrix, with room for both halves of [sm_rhs]

    The loops of the expansion index [sm_rhs] up to twice the size of the
    work-group.  On a buffer of that size they compute the recurrence
    [s_0 = b], [s_{k+1} = b + A s_k]. *)

Lemma forLoop_fold {St : Type} (body : Z -> St -> option St) (f : St -> nat -> St) count :
  forall k s,
    (forall n s', (k <= n < k + count)%nat -> body (Z.of_nat n) s' = Some (f s' n)) ->
    forLoop body count (Z.of_nat k) s = Some (fold_left f (seq k count) s).
Proof.
  induction count as [|count IH]; intros k s Hbody; [reflexivity|].
  cbn [forLoop seq fold_left]. rewrite Hbody by lia. cbn [bind].
  replace (Z.of_nat k + 1)%Z with (Z.of_nat (S k)) by lia.
  apply IH. intros n s' Hn. apply Hbody. lia.
Qed.

Lemma forLoop_steps {St : Type} (Inv : nat -> St -> Prop) (body : Z -> St -> option St) :
  (forall j s, Inv j s -> exists s', body (Z.of_nat j) s = Some s' /\ Inv (S j) s') ->
  forall count j s,
    Inv j s -> exists s', forLoop body count (Z.of_nat j) s = Some s' /\ Inv (j + count)%nat s'.
Proof.
  intros Hbody. induction count as [|count IH]; intros j s HI.
  - exists s. rewrite Nat.add_0_r. split; [reflexivity | exact HI].
  - destruct (Hbody j s HI) as (s1 & E1 & HI1).
    destruct (IH (S j) s1 HI1) as (s2 & E2 & HI2).
    exists s2. cbn [forLoop]. rewrite E1. cbn [bind].
    replace (Z.of_nat j + 1)%Z with (Z.of_nat (S j)) by lia.
    rewrite Nat.add_succ_r. auto.
Qed.

Lemma fold_left_ext_in {A B : Type} (f g : A -> B -> A) (l : list B) :
  (forall a n, In n l -> f a n = g a n) ->
  forall a, fold_left f l a = fold_left g l a.
Proof.
  induction l as [|n l IH]; intros H a; [reflexivity|].
  cbn [fold_left]. rewrite (H a n) by (left; reflexivity).
  apply IH. intros a' n' Hn. apply H. right. exact Hn.
Qed.

Lemma fold_left_sum (F : nat -> R) (l : list nat) (a : R) :
  fold_left (fun mvb n => mvb + F n) l a = a + fold_left (fun mvb n => mvb + F n) l 0.
Proof.
  revert a. induction l as [|n l IH]; intros a; cbn [fold_left]; [ring|].
  rewrite (IH (a + F n)), (IH (0 + F n)). ring.
Qed.

Lemma parity_halves rec :
  (0 <= rec)%Z ->
  (Z.rem rec 2 = 0 /\ Z.rem (rec + 1) 2 = 1 \/ Z.rem rec 2 = 1 /\ Z.rem (rec + 1) 2 = 0)%Z.
Proof.
  intros Hrec.
  pose proof (Z.rem_bound_pos rec 2 Hrec ltac:(lia)).
  pose proof (Z.rem_bound_pos (rec + 1) 2 ltac:(lia) ltac:(lia)).
  pose proof (Z.quot_rem' rec 2). pose proof (Z.quot_rem' (rec + 1) 2). lia.
Qed.

Lemma rowTimes_ext d row x y :
  coupledInside d row ->
  (forall p, (0 <= p < c_threadsPerBlock)%Z -> x p = y p) ->
  rowTimes d row x = rowTimes d row y.
Proof.
  intros Hin Hxy. unfold rowTimes. apply fold_left_ext_in.
  intros a n Hn. apply in_seq in Hn. unfold coupling. cbv zeta.
  destruct (Hin n ltac:(lia)) as (_ & _ & Hc1). rewrite (Hxy _ Hc1). reflexivity.
Qed.

Lemma rowTimes_plus d row x y :
  rowTimes d row (fun p => x p + y p) = rowTimes d row x + rowTimes d row y.
Proof.
  unfold rowTimes. generalize (seq 0 (Z.to_nat (snd row))) as l.
  induction l as [|n l IH]; cbn [fold_left]; [ring|].
  rewrite (fold_left_sum (coupling d (fst row) (fun p => x p + y p))),
          (fold_left_sum (coupling d (fst row) x)),
          (fold_left_sum (coupling d (fst row) y)).
  rewrite IH. unfold coupling. cbv zeta. ring.
Qed.

Lemma convolute_value rec c v m :
  (0 <= rec)%Z -> (0 < c_threadsPerBlock)%Z ->
  coupledInside (dev m) (c, coupledConstraintsCount v) ->
  length (sm_rhs (loc m)) = Z.to_nat (2 * c_threadsPerBlock) ->
  convolute rec c v m
  = Some (rowTimes (dev m) (c, coupledConstraintsCount v)
            (rhsHalf (sm_rhs (loc m)) (Z.rem rec 2))).
Proof.
  intros Hrec HT Hin Hlen. unfold convolute, forRange, rowTimes. rewrite Z.sub_0_r.
  cbn [fst snd].
  apply (forLoop_fold _
           (fun mvb n => mvb + coupling (dev m) c (rhsHalf (sm_rhs (loc m)) (Z.rem rec 2)) n)
           _ 0%nat).
  intros n mvb Hn. destruct (Hin n ltac:(cbn [snd]; lia)) as (Ha & Hi & Hc1).
  cbn [fst snd] in Ha, Hi, Hc1.
  rewrite (load_inRange _ _ 0%Z Hi). cbn [bind].
  rewrite (load_inRange _ _ 0 Ha). cbn [bind].
  rewrite (load_inRange (sm_rhs (loc m)) _ 0).
  - cbn [bind]. reflexivity.
  - rewrite Hlen. destruct (parity_halves rec Hrec) as [[-> _]|[-> _]]; lia.
Qed.

Lemma matTimes_ext d rows x y :
  Forall (coupledInside d) rows ->
  (forall p, (0 <= p < c_threadsPerBlock)%Z -> x p = y p) ->
  matTimes d rows x = matTimes d rows y.
Proof.
  intros Hin Hxy. unfold matTimes. apply map_ext_in. intros row Hrow.
  rewrite Forall_forall in Hin. apply rowTimes_ext; auto.
Qed.

Lemma rhsHalf_store rhs k v rhs' h p :
  store rhs k v = Some rhs' ->
  (p + c_threadsPerBlock * h <> k)%Z -> (0 <= p + c_threadsPerBlock * h)%Z ->
  rhsHalf rhs' h p = rhsHalf rhs h p.
Proof.
  intros Hst Hne Hpos. unfold rhsHalf. rewrite (store_nth _ _ _ _ Hst).
  rewrite Z2Nat.id by exact Hpos.
  destruct (Z.eqb_spec (p + c_threadsPerBlock * h) k); [contradiction | reflexivity].
Qed.

(** One pass of the loop over [rec]: every work-item adds to [sol] the product
    of its row with the half [rec % 2] of [sm_rhs], and saves the product in
    the other half. *)
Lemma expansionPass rec ths :
  forall first m,
    (0 <= rec)%Z -> (0 < c_threadsPerBlock)%Z ->
    Forall (coupledInside (dev m)) (rowsOf ths) ->
    tibsFrom first ths -> (first + length ths <= Z.to_nat c_threadsPerBlock)%nat ->
    length (sm_rhs (loc m)) = Z.to_nat (2 * c_threadsPerBlock) ->
    exists ths' m',
      forThreads (expansionStep rec) ths m = Some (ths', m')
      /\ dev m' = dev m
      /\ length (sm_rhs (loc m')) = length (sm_rhs (loc m))
      /\ rowsOf ths' = rowsOf ths
      /\ map solOf ths'
         = addVec (map solOf ths)
             (matTimes (dev m) (rowsOf ths) (rhsHalf (sm_rhs (loc m)) (Z.rem rec 2)))
      /\ (forall q,
            (Z.of_nat q < Z.of_nat first + c_threadsPerBlock * Z.rem (rec + 1) 2
             \/ Z.of_nat (first + length ths) + c_threadsPerBlock * Z.rem (rec + 1) 2
                <= Z.of_nat q)%Z ->
            nth q (sm_rhs (loc m')) 0 = nth q (sm_rhs (loc m)) 0)
      /\ (forall i, (i < length ths)%nat ->
            rhsHalf (sm_rhs (loc m')) (Z.rem (rec + 1) 2) (Z.of_nat (first + i))
            = nth i (matTimes (dev m) (rowsOf ths)
                       (rhsHalf (sm_rhs (loc m)) (Z.rem rec 2))) 0).
Proof.
  induction ths as [|[c v] rest IH]; intros first m Hrec HT Hin Htibs Hroom Hlen.
  - exists [], m. cbn [forThreads rowsOf map addVec combine length].
    do 6 (split; [reflexivity|]). intros i Hi. lia.
  - apply tibsFrom_cons in Htibs as [Htib Hrest]. unfold tibOf in Htib. cbn [fst] in Htib.
    cbn [rowsOf map fst snd] in Hin. inversion Hin as [|? ? Hrow Hrows]; subst.
    cbn [length] in Hroom.
    pose proof (parity_halves rec Hrec) as Hpar.
    cbn [forThreads]. unfold expansionStep at 1.
    rewrite (convolute_value rec c v m Hrec HT Hrow Hlen). cbn [bind].
    set (mvb := rowTimes (dev m) (c, coupledConstraintsCount v)
                  (rhsHalf (sm_rhs (loc m)) (Z.rem rec 2))).
    destruct (store_ok (sm_rhs (loc m))
                (threadInBlock c + c_threadsPerBlock * Z.rem (rec + 1) 2)%Z mvb)
      as (rhs1 & Est & Hlen1).
    { rewrite Hlen, Htib. destruct Hpar as [[H1 H2]|[H1 H2]]; rewrite ?H1, ?H2; lia. }
    rewrite Est. cbn [bind].
    destruct (IH (S first) (set_sm_rhs m rhs1) Hrec HT) as
      (ths' & m' & E & Hdev & Hlen' & Hrows' & Hsol & Hkeep & Hcells); auto.
    { cbn [loc set_sm_rhs sm_rhs]. lia. }
    { cbn [loc set_sm_rhs sm_rhs]. lia. }
    cbn [loc dev set_sm_rhs sm_rhs] in Hdev, Hlen', Hsol, Hkeep, Hcells.
    assert (Hsame : matTimes (dev m) (rowsOf rest) (rhsHalf rhs1 (Z.rem rec 2))
                    = matTimes (dev m) (rowsOf rest) (rhsHalf (sm_rhs (loc m)) (Z.rem rec 2))).
    { apply matTimes_ext; [exact Hrows|]. intros p Hp.
      apply (rhsHalf_store _ _ _ _ _ _ Est); destruct Hpar as [[H1 H2]|[H1 H2]]; rewrite ?H1, ?H2; lia. }
    rewrite Hsame in Hsol, Hcells.
    exists ((c, mkThreadVars (xi v) (xj v) (coupledConstraintsCount v) (sol v + mvb)
                 (lagrangeScaled v)) :: ths'), m'.
    rewrite E. cbn [bind].
    split; [reflexivity|]. split; [exact Hdev|]. split; [lia|].
    split; [cbn [rowsOf map fst snd coupledConstraintsCount]; f_equal; exact Hrows'|].
    split.
    { cbn [map rowsOf matTimes addVec combine fst snd]. unfold solOf at 1 3.
      cbn [snd sol fst]. f_equal. exact Hsol. }
    split.
    { intros q Hq. cbn [length] in Hq. rewrite Hkeep by lia.
      rewrite (store_nth _ _ _ _ Est).
      destruct (Z.eqb_spec (Z.of_nat q)
                  (threadInBlock c + c_threadsPerBlock * Z.rem (rec + 1) 2)); [lia|reflexivity]. }
    intros [|i] Hi.
    + cbn [rowsOf map matTimes nth fst snd]. unfold rhsHalf. rewrite Hkeep.
      * rewrite (store_nth _ _ _ _ Est). rewrite Z2Nat.id.
        -- rewrite Nat.add_0_r, <- Htib, Z.eqb_refl. reflexivity.
        -- destruct Hpar as [[H1 H2]|[H1 H2]]; rewrite ?H1, ?H2; lia.
      * left. rewrite Z2Nat.id; [lia|]. destruct Hpar as [[H1 H2]|[H1 H2]]; rewrite ?H1, ?H2; lia.
    + cbn [rowsOf map matTimes nth fst snd]. cbn [length] in Hi.
      replace (first + S i)%nat with (S first + i)%nat by lia.
      apply Hcells. lia.
Qed.

(** *** Vectors as lists *)

Lemma length_addVec x y : length y = length x -> length (addVec x y) = length x.
Proof.
  intros H. unfold addVec. rewrite length_map, length_combine. lia.
Qed.

Lemma nth_addVec x : forall y i,
  length y = length x -> nth i (addVec x y) 0 = nth i x 0 + nth i y 0.
Proof.
  induction x as [|a x IH]; intros [|b y] i H; try discriminate H.
  - destruct i; cbn; ring.
  - destruct i as [|i]; [reflexivity|]. cbn [addVec combine map nth].
    apply (IH y i). injection H as H. exact H.
Qed.

Lemma addVec_assoc x : forall y z, addVec x (addVec y z) = addVec (addVec x y) z.
Proof.
  induction x as [|a x IH]; intros [|b y] [|c z]; try reflexivity.
  cbn [addVec combine map fst snd]. f_equal; [ring|]. apply (IH y z).
Qed.

Lemma length_matTimes d rows x : length (matTimes d rows x) = length rows.
Proof. apply length_map. Qed.

Lemma rowTimes_same d row x y :
  (forall p, x p = y p) -> rowTimes d row x = rowTimes d row y.
Proof.
  intros Hxy. unfold rowTimes. apply fold_left_ext_in. intros a n _.
  unfold coupling. cbv zeta. rewrite Hxy. reflexivity.
Qed.

Lemma matTimes_plus d rows x y :
  length y = length x ->
  matTimes d rows (vecOf (addVec x y))
  = addVec (matTimes d rows (vecOf x)) (matTimes d rows (vecOf y)).
Proof.
  intros Hlen. induction rows as [|row rows IH]; [reflexivity|].
  cbn [matTimes map addVec combine fst snd]. f_equal; [|exact IH].
  rewrite <- rowTimes_plus. apply rowTimes_same. intros p. unfold vecOf.
  apply nth_addVec. exact Hlen.
Qed.

Lemma length_neumannTerm d rows b k :
  length b = length rows -> length (neumannTerm d rows b k) = length rows.
Proof.
  intros Hb. destruct k; [exact Hb | apply length_matTimes].
Qed.

Lemma length_neumann d rows b k :
  length b = length rows -> length (neumann d rows b k) = length rows.
Proof.
  intros Hb. destruct k; [exact Hb|]. cbn [neumann].
  rewrite length_addVec; [exact Hb | rewrite length_matTimes; auto].
Qed.

(** The recurrence adds one term of the series at a time. *)
Lemma neumann_succ d rows b k :
  length b = length rows ->
  neumann d rows b (S k) = addVec (neumann d rows b k) (neumannTerm d rows b (S k)).
Proof.
  intros Hb. induction k as [|k IH]; [reflexivity|].
  change (neumann d rows b (S (S k)))
    with (addVec b (matTimes d rows (vecOf (neumann d rows b (S k))))).
  rewrite IH at 1. rewrite matTimes_plus.
  - rewrite addVec_assoc. reflexivity.
  - rewrite length_neumannTerm, length_neumann; auto.
Qed.

Lemma length_rowsOf ths : length (rowsOf ths) = length ths.
Proof. apply length_map. Qed.

Lemma rowsOf_length ths ths' : rowsOf ths' = rowsOf ths -> length ths' = length ths.
Proof.
  intros H. rewrite <- (length_rowsOf ths'), H. apply length_rowsOf.
Qed.

Lemma tibsFrom_rows first ths ths' :
  rowsOf ths' = rowsOf ths -> tibsFrom first ths -> tibsFrom first ths'.
Proof.
  unfold tibsFrom. intros Hrows Htibs.
  assert (Hmap : forall l, map tibOf l = map (fun row => threadInBlock (fst row)) (rowsOf l)).
  { intros l. unfold rowsOf. rewrite map_map. reflexivity. }
  pose proof (rowsOf_length _ _ Hrows) as Hlen.
  rewrite Hmap, Hrows, <- Hmap, Hlen. exact Htibs.
Qed.

(** With [2 * c_threadsPerBlock] elements in [sm_rhs], the loop over [rec]
    returns, and [sol] is the value [s_expansionOrder] of the recurrence. *)
Lemma expandMatrix_neumann ths m :
  haveCoupledConstraints = true -> (0 < c_threadsPerBlock)%Z ->
  tibsFrom 0 ths -> length ths = Z.to_nat c_threadsPerBlock ->
  Forall (coupledInside (dev m)) (rowsOf ths) ->
  length (sm_rhs (loc m)) = Z.to_nat (2 * c_threadsPerBlock) ->
  (forall p, (0 <= p < c_threadsPerBlock)%Z ->
             rhsHalf (sm_rhs (loc m)) 0 p = vecOf (map solOf ths) p) ->
  exists ths' m',
    expandMatrix (ths, m) = Some (ths', m')
    /\ rowsOf ths' = rowsOf ths /\ dev m' = dev m
    /\ map solOf ths'
       = neumann (dev m) (rowsOf ths) (map solOf ths) (Z.to_nat expansionOrder).
Proof.
  intros Hc HT Htibs Hlen Hin Hroom Hb.
  set (rows := rowsOf ths). set (b := map solOf ths). set (d := dev m).
  assert (Hbl : length b = length rows).
  { unfold b, rows, rowsOf. rewrite !length_map. reflexivity. }
  pose (Inv := fun (j : nat) (s : list Thread * Memory) =>
                 rowsOf (fst s) = rows /\ dev (snd s) = d
                 /\ length (sm_rhs (loc (snd s))) = Z.to_nat (2 * c_threadsPerBlock)
                 /\ map solOf (fst s) = neumann d rows b j
                 /\ forall p, (0 <= p < c_threadsPerBlock)%Z ->
                      rhsHalf (sm_rhs (loc (snd s))) (Z.rem (Z.of_nat j) 2) p
                      = vecOf (neumannTerm d rows b j) p).
  destruct (forLoop_steps Inv
              (fun rec '(ths, m) => forThreads (expansionStep rec) ths m))
    with (count := Z.to_nat (expansionOrder - 0)) (j := 0%nat) (s := (ths, m))
    as ([ths' m'] & E & Hr & Hd & _ & Hs & _).
  - intros j [thsj mj] (Hr & Hd & Hl & Hs & Hcells). cbn [fst snd] in *.
    destruct (expansionPass (Z.of_nat j) thsj 0 mj) as
      (ths' & m' & E & Hd' & Hl' & Hr' & Hs' & _ & Hc'); try lia.
    + rewrite Hd, Hr. exact Hin.
    + apply (tibsFrom_rows 0 ths); [exact Hr | exact Htibs].
    + rewrite (rowsOf_length ths thsj Hr). lia.
    + assert (Hterm : matTimes (dev mj) (rowsOf thsj)
                        (rhsHalf (sm_rhs (loc mj)) (Z.rem (Z.of_nat j) 2))
                      = neumannTerm d rows b (S j)).
      { rewrite Hd, Hr. cbn [neumannTerm]. apply matTimes_ext; [exact Hin | exact Hcells]. }
      rewrite Hterm in Hs', Hc'.
      exists (ths', m'). split; [exact E|]. unfold Inv. cbn [fst snd].
      split; [rewrite Hr'; exact Hr|]. split; [rewrite Hd'; exact Hd|].
      split; [rewrite Hl'; exact Hl|].
      split.
      * rewrite Hs', Hs. symmetry. apply neumann_succ. exact Hbl.
      * intros p Hp. specialize (Hc' (Z.to_nat p)).
        replace (Z.of_nat (S j)) with (Z.of_nat j + 1)%Z by lia.
        cbn [Nat.add] in Hc'. rewrite Z2Nat.id in Hc' by lia.
        rewrite Hc'; [reflexivity|].
        rewrite (rowsOf_length ths thsj Hr). lia.
  - unfold Inv. cbn [fst snd neumann neumannTerm]. repeat (split; [reflexivity|]).
    split; [exact Hroom|]. split; [reflexivity|]. exact Hb.
  - exists ths', m'. cbn [fst snd] in *. unfold expandMatrix, forRange. rewrite Hc.
    split; [exact E|]. split; [exact Hr|]. split; [exact Hd|].
    rewrite Hs. cbn [Nat.add]. rewrite Z.sub_0_r. reflexivity.
Qed.

(** ** The kernel as a whole *)

Lemma lincsKernel_trace d d' :
  lincsKernel d = Some d' -> exists ths, lincsKernelTrace d = Some (ths, d').
Proof.
  unfold lincsKernel. destruct (lincsKernelTrace d) as [[ths d2]|]; simpl; intros H;
    [injection H as <-; exists ths; reflexivity | discriminate].
Qed.

Lemma totalCorrection_nonDummy ths n :
  Forall wfThread ths -> totalCorrection (filter nonDummy ths) n = totalCorrection ths n.
Proof.
  induction 1 as [|[c v] rest [Hwf _] _ IH]; simpl; [reflexivity|].
  unfold nonDummy at 1. simpl. simpl in Hwf.
  destruct (isDummyThread c) eqn:Hd; simpl; rewrite IH; [|reflexivity].
  rewrite (unitCorrection_dummy c n Hwf Hd). ring.
Qed.

Lemma dot3_scale s v : dot3 (scale s v) (scale s v) = s * s * dot3 v v.
Proof.
  unfold dot3, scale. cbn [comp f3x f3y f3z]. ring.
Qed.

(** The direction [rc] of a constraint is the displacement between its atoms at
    the positions [a_x], divided by its length. *)
Lemma describes_normalized d c :
  describes d c -> isDummyThread c = false ->
  exists pi pj,
    load (a_x d) (atom_i c) = Some pi /\ load (a_x d) (atom_j c) = Some pj
    /\ rc c = scale (/ sqrt (dot3 (pbcDxAiucSycl pbcAiuc pi pj)
                                  (pbcDxAiucSycl pbcAiuc pi pj)))
                    (pbcDxAiucSycl pbcAiuc pi pj)
    /\ dot3 (rc c) (rc c) = 1.
Proof.
  intros (_ & _ & _ & Hreal) Hd.
  destruct (Hreal Hd) as (_ & _ & _ & _ & pi & pj & rlen & Hi & Hj & Hr & Hrc).
  apply rsqrt_Some in Hr as [Hpos ->].
  exists pi, pj. repeat (split; [assumption|]).
  rewrite Hrc, dot3_scale.
  set (x := dot3 (pbcDxAiucSycl pbcAiuc pi pj) (pbcDxAiucSycl pbcAiuc pi pj)) in *.
  assert (Hs : 0 < sqrt x) by (apply sqrt_lt_R0; exact Hpos).
  rewrite <- (sqrt_sqrt x) at 3 by lra. field. lra.
Qed.

(** C2.  A correction adds [- inverseMassi * tmp] to the cells of atom i and
    [+ inverseMassj * tmp] to the cells of atom j, for the same vector [tmp]
    (the multiplier times the direction of the constraint): when the inverse masses
    are the inverses of the masses, the mass-weighted sums of the positions and
    of the velocities over all the atoms are the same before and after a run
    of the kernel. *)
Theorem lincsKernel_center_of_mass (masses : list R) d d' dd :
  length masses = length (a_inverseMasses d) ->
  (forall k, (k < length masses)%nat -> nth k masses 0 * nth k (a_inverseMasses d) 0 = 1) ->
  lincsKernel d = Some d' ->
  (forall a c tmp a' k e,
      addCorrection a c tmp = Some a' ->
      nth (cellOf k e) a' 0
      = nth (cellOf k e) a 0
        + (if (Z.of_nat k =? atom_i c)%Z then - tmp.[e] * inverseMassi c else 0)
        + (if (Z.of_nat k =? atom_j c)%Z then tmp.[e] * inverseMassj c else 0))
  /\ massWeightedSum masses (a_xp d') dd = massWeightedSum masses (a_xp d) dd
  /\ massWeightedSum masses (a_v d') dd = massWeightedSum masses (a_v d) dd.
Proof.
  intros Hlen Hm H. apply lincsKernel_trace in H as [ths H].
  apply lincsKernelTrace_spec in H as (Hd & _ & Hk & Hx & Hv).
  split.
  { intros a c tmp a' k e Ha. apply addCorrection_Some in Ha as (_ & Ha & _).
    rewrite Ha, corrOf_cellOf. ring. }
  split.
  - apply (massWeightedSum_moved masses d ths _ _ dd 1 Hlen Hm Hd).
    intros n. rewrite Hx. ring.
  - destruct updateVelocities.
    + apply (massWeightedSum_moved masses d ths _ _ dd invdt Hlen Hm Hd).
      intros n. apply Hv. reflexivity.
    + destruct Hk as (_ & _ & _ & Hkv & _). rewrite (Hkv eq_refl). reflexivity.
Qed.

(** C10.  A run of the kernel writes the positions [a_xp], the matrix
    [a_matrixA] when there are coupled constraints, the velocities [a_v] when
    they are updated and the virial [a_virialScaled] when it is computed, and
    nothing else: [a_x], the constraints, their target lengths, the counts and
    indices of the coupled constraints, the mass factors and the inverse masses
    are what they were. *)
Theorem lincsKernel_frame d d' :
  lincsKernel d = Some d' ->
  a_x d' = a_x d
  /\ a_constraints d' = a_constraints d
  /\ a_constraintsTargetLengths d' = a_constraintsTargetLengths d
  /\ a_coupledConstraintsCounts d' = a_coupledConstraintsCounts d
  /\ a_coupledConstraintsIndices d' = a_coupledConstraintsIndices d
  /\ a_massFactors d' = a_massFactors d
  /\ a_inverseMasses d' = a_inverseMasses d
  /\ (haveCoupledConstraints = false -> a_matrixA d' = a_matrixA d)
  /\ (updateVelocities = false -> a_v d' = a_v d)
  /\ (computeVirial = false -> a_virialScaled d' = a_virialScaled d).
Proof.
  intros H. apply lincsKernel_trace in H as [ths H].
  apply lincsKernelTrace_spec in H as (_ & _ & Hk & _).
  unfold keeps, readOnlyKept in Hk. tauto.
Qed.

(** C3.  With coupled constraints, the loop of the matrix expansion saves the
    product of its first pass at [sm_rhs[threadInBlock + c_threadsPerBlock]],
    past the [c_threadsPerBlock] elements of the accessor: a launch with a
    positive expansion order has no defined result, and so no value of [sol]
    to compare with the recurrence. *)
Theorem expansion_overruns_sm_rhs d :
  haveCoupledConstraints = true ->
  (0 < expansionOrder)%Z ->
  (0 < c_threadsPerBlock <= numConstraintsThreads)%Z ->
  lincsKernel d = None.
Proof.
  intros Hc He [HT HN]. unfold lincsKernel, lincsKernelTrace.
  destruct launchable; [|reflexivity].
  unfold forRange.
  destruct (Z.to_nat (Z.quot numConstraintsThreads c_threadsPerBlock - 0)) as [|k] eqn:Hk.
  - exfalso. assert (1 <= Z.quot numConstraintsThreads c_threadsPerBlock)%Z; [|lia].
    rewrite Z.quot_div_nonneg by lia. apply Z.div_le_lower_bound; lia.
  - simpl. rewrite workGroup_overrun by assumption. reflexivity.
Qed.

(** ** The launch from the host *)

Lemma length_reinterpretFloat b : length (reinterpretFloat b) = (3 * length b)%nat.
Proof.
  induction b as [|p b IH]; [reflexivity|].
  cbn [reinterpretFloat flat_map app length] in *. unfold reinterpretFloat in IH. lia.
Qed.

Lemma viewFloat3_reinterpretFloat b : viewFloat3 (reinterpretFloat b) = b.
Proof.
  induction b as [|[x y z] b IH]; [reflexivity|].
  cbn [reinterpretFloat flat_map app viewFloat3 comp f3x f3y f3z].
  f_equal. exact IH.
Qed.

Lemma reinterpretFloat_viewFloat3 n :
  forall a, length a = (3 * n)%nat -> reinterpretFloat (viewFloat3 a) = a.
Proof.
  induction n as [|n IH]; intros a Hlen.
  - destruct a; [reflexivity | discriminate].
  - destruct a as [|x [|y [|z rest]]]; try (cbn [length] in Hlen; lia).
    cbn [viewFloat3 reinterpretFloat flat_map app comp f3x f3y f3z].
    do 3 f_equal. apply IH. cbn [length] in Hlen. lia.
Qed.

Lemma length_viewFloat3 n :
  forall a, length a = (3 * n)%nat -> length (viewFloat3 a) = n.
Proof.
  induction n as [|n IH]; intros a Hlen.
  - destruct a; [reflexivity | discriminate].
  - destruct a as [|x [|y [|z rest]]]; try (cbn [length] in Hlen; lia).
    cbn [viewFloat3 length]. f_equal. apply IH. cbn [length] in Hlen. lia.
Qed.

(** The float of the component [dd] of the element [k]. *)
Lemma nth_reinterpretFloat b :
  forall k dd, nth (cellOf k dd) (reinterpretFloat b) 0 = (nth k b zero3).[dd].
Proof.
  induction b as [|p b IH]; intros k dd.
  - destruct k, dd; reflexivity.
  - destruct k as [|k].
    + destruct dd; reflexivity.
    + specialize (IH k dd). unfold cellOf in *.
      replace (S k * 3 + Z.to_nat (dimIndex dd))%nat
        with (S (S (S (k * 3 + Z.to_nat (dimIndex dd))))) by lia.
      cbn [reinterpretFloat flat_map app nth]. exact IH.
Qed.

Lemma kernelArguments_eta d n m :
  length (a_xp d) = (3 * n)%nat -> length (a_v d) = (3 * m)%nat ->
  kernelArguments
    {| d_constraints := a_constraints d;
       d_constraintsTargetLengths := a_constraintsTargetLengths d;
       d_coupledConstraintsCounts := a_coupledConstraintsCounts d;
       d_coupledConstraintsIndices := a_coupledConstraintsIndices d;
       d_massFactors := a_massFactors d;
       d_matrixA := a_matrixA d;
       d_inverseMasses := a_inverseMasses d;
       d_virialScaled := a_virialScaled d |}
    (a_x d) (viewFloat3 (a_xp d)) (viewFloat3 (a_v d))
  = d.
Proof.
  intros Hxp Hv. destruct d. unfold kernelArguments. cbn in *.
  rewrite (reinterpretFloat_viewFloat3 n), (reinterpretFloat_viewFloat3 m) by assumption.
  reflexivity.
Qed.

(** X4.  The launch runs the kernel on the floats of [d_xp] and [d_v]: the
    buffers it leaves, seen as floats again, are the result of the kernel, no
    element of [d_xp] or [d_v] is added or lost, the component [dd] of the
    position of the atom [k] has moved by the corrections of the cell
    [k * 3 + dd], and the velocities are those before the launch when they are
    not updated. *)
Theorem launchLincsGpuKernel_buffers kernelParams d_x d_xp d_v kernelParams' d_xp' d_v' :
  launchLincsGpuKernel kernelParams d_x d_xp d_v = Some (kernelParams', d_xp', d_v') ->
  lincsKernel (kernelArguments kernelParams d_x d_xp d_v)
  = Some (kernelArguments kernelParams' d_x d_xp' d_v')
  /\ length d_xp' = length d_xp /\ length d_v' = length d_v
  /\ (forall k dd,
        (nth k d_xp' zero3).[dd]
        = (nth k d_xp zero3).[dd]
          + totalCorrection (threadsOf (kernelArguments kernelParams d_x d_xp d_v))
              (cellOf k dd))
  /\ (updateVelocities = true ->
      forall k dd,
        (nth k d_v' zero3).[dd]
        = (nth k d_v zero3).[dd]
          + invdt * totalCorrection (threadsOf (kernelArguments kernelParams d_x d_xp d_v))
                      (cellOf k dd))
  /\ (updateVelocities = false -> d_v' = d_v).
Proof.
  unfold launchLincsGpuKernel. intros H.
  destruct (lincsKernel (kernelArguments kernelParams d_x d_xp d_v)) as [d'|] eqn:E;
    [|discriminate].
  cbn [bind] in H. injection H as <- <- <-.
  destruct (lincsKernel_trace _ _ E) as [ths Ht].
  assert (Hths : threadsOf (kernelArguments kernelParams d_x d_xp d_v) = ths)
    by (unfold threadsOf; rewrite Ht; reflexivity).
  rewrite Hths.
  apply lincsKernelTrace_spec in Ht as (_ & _ & Hk & Hx & Hv).
  destruct Hk as (Hro & _ & _ & Hkv & _ & _ & Lxp & Lv & _).
  destruct Hro as (_ & _ & _ & _ & _ & _ & Hax).
  cbn [kernelArguments a_xp a_v a_x] in Lxp, Lv, Hx, Hv, Hkv, Hax.
  rewrite length_reinterpretFloat in Lxp, Lv.
  split.
  { rewrite <- Hax. rewrite (kernelArguments_eta d' _ _ Lxp Lv). reflexivity. }
  split; [apply length_viewFloat3; exact Lxp|].
  split; [apply length_viewFloat3; exact Lv|].
  split.
  { intros k dd. rewrite <- !nth_reinterpretFloat.
    rewrite (reinterpretFloat_viewFloat3 _ _ Lxp). apply Hx. }
  split.
  { intros Hu k dd. rewrite <- !nth_reinterpretFloat.
    rewrite (reinterpretFloat_viewFloat3 _ _ Lv). apply Hv. exact Hu. }
  intros Hu. rewrite (Hkv Hu). apply viewFloat3_reinterpretFloat.
Qed.

(** ** Launches with and without a result *)

(** X1.  A launch of one work-group without coupled constraints has a result
    when every entry of the constraints is a dummy or a pair of atoms with
    inverse masses of positive sum, apart at the positions [a_x], and when
    [a_xp] (and [a_v], [a_virialScaled] where they are written) have the
    extents of the atoms: no access falls outside of a buffer and no
    reciprocal square root is taken of a number that is not positive. *)
Theorem lincsKernel_returns d :
  haveCoupledConstraints = false -> (0 < c_threadsPerBlock)%Z ->
  numConstraintsThreads = c_threadsPerBlock ->
  Forall (fun id => constraintReady d (fst id)) (workItems 0) ->
  length (a_xp d) = (3 * length (a_x d))%nat ->
  (updateVelocities = true -> length (a_v d) = (3 * length (a_x d))%nat) ->
  (computeVirial = true -> (6 <= length (a_virialScaled d))%nat) ->
  lincsKernel d <> None.
Proof.
  intros Hc HT HN Hready Hxp Hv Hvir.
  destruct (lincsKernelTrace_returns d Hc HT HN Hready Hxp Hv Hvir) as (ths & d' & H & _).
  unfold lincsKernel. rewrite H. discriminate.
Qed.

(** X2.  [sm_r] has [c_threadsPerBlock] elements and is written at
    [threadIndex], the index of the work-item in the whole grid: a launch of
    two work-groups or more has no result, whatever the buffers. *)
Theorem second_work_group_overruns_sm_r d :
  (0 < c_threadsPerBlock)%Z -> (2 * c_threadsPerBlock <= numConstraintsThreads)%Z ->
  lincsKernel d = None.
Proof.
  intros HT HN. unfold lincsKernel.
  rewrite (lincsKernelTrace_second_group d HT HN). reflexivity.
Qed.

(** X3.  On a work-group whose [sm_rhs] has [2 * c_threadsPerBlock] elements
    and holds the right-hand sides [sol] in its first half, the loop of the
    expansion returns, and the values [sol] after it are [s_expansionOrder] of
    [s_0 = b], [s_(k+1) = b + A s_k], for the matrix [A] of [a_matrixA] and
    [a_coupledConstraintsIndices]. *)
Theorem expandMatrix_recurrence ths m :
  haveCoupledConstraints = true -> (0 < c_threadsPerBlock)%Z ->
  tibsFrom 0 ths -> length ths = Z.to_nat c_threadsPerBlock ->
  Forall (coupledInside (dev m)) (rowsOf ths) ->
  length (sm_rhs (loc m)) = Z.to_nat (2 * c_threadsPerBlock) ->
  (forall p, (0 <= p < c_threadsPerBlock)%Z ->
             rhsHalf (sm_rhs (loc m)) 0 p = vecOf (map solOf ths) p) ->
  option_map (fun s => map solOf (fst s)) (expandMatrix (ths, m))
  = Some (neumann (dev m) (rowsOf ths) (map solOf ths) (Z.to_nat expansionOrder)).
Proof.
  intros Hc HT Htibs Hlen Hin Hroom Hb.
  destruct (expandMatrix_neumann ths m Hc HT Htibs Hlen Hin Hroom Hb)
    as (ths' & m' & E & _ & _ & Hs).
  rewrite E. cbn [option_map fst]. rewrite Hs. reflexivity.
Qed.

(** ** Constraints without common atoms and without periodic images

    When [pbcDxAiucSycl] is the difference of its arguments, the displacement
    of a constraint that shares no atom is known in closed form after the
    projection and after each centripetal correction. *)

Section NoImages.
Hypothesis Hfree :
  forall a b, pbcDxAiucSycl pbcAiuc a b
              = mkFloat3 (a.[XX] - b.[XX]) (a.[YY] - b.[YY]) (a.[ZZ] - b.[ZZ]).

Lemma dxAt_free xp0 c lam :
  dxAt xp0 c lam
  = mkFloat3
      ((dxAt xp0 c 0).[XX] - lam * (inverseMassi c + inverseMassj c) * (rc c).[XX])
      ((dxAt xp0 c 0).[YY] - lam * (inverseMassi c + inverseMassj c) * (rc c).[YY])
      ((dxAt xp0 c 0).[ZZ] - lam * (inverseMassi c + inverseMassj c) * (rc c).[ZZ]).
Proof.
  unfold dxAt. rewrite !Hfree. unfold endI, endJ. cbn [comp f3x f3y f3z].
  f_equal; ring.
Qed.

Lemma dxAt_dots xp0 c lam k :
  dot3 (rc c) (rc c) = 1 ->
  lam * (inverseMassi c + inverseMassj c) = k ->
  dot3 (rc c) (dxAt xp0 c lam) = dot3 (rc c) (dxAt xp0 c 0) - k
  /\ dot3 (dxAt xp0 c lam) (dxAt xp0 c lam)
     = dot3 (dxAt xp0 c 0) (dxAt xp0 c 0) - 2 * k * dot3 (rc c) (dxAt xp0 c 0) + k * k.
Proof.
  intros Hu Hk. rewrite (dxAt_free xp0 c lam), Hk.
  set (D := dxAt xp0 c 0). set (u := rc c) in *.
  split.
  - transitivity (dot3 u D - k * dot3 u u); [|rewrite Hu; ring].
    unfold dot3. cbn [comp f3x f3y f3z]. ring.
  - transitivity (dot3 D D - 2 * k * dot3 u D + k * k * dot3 u u); [|rewrite Hu; ring].
    unfold dot3. cbn [comp f3x f3y f3z]. ring.
Qed.

(** The constants of a constraint that the closed forms use. *)
Lemma describes_unit d c :
  describes d c -> isDummyThread c = false ->
  dot3 (rc c) (rc c) = 1
  /\ sqrtReducedMass c * sqrtReducedMass c * (inverseMassi c + inverseMassj c) = 1.
Proof.
  intros Hdesc Hd.
  destruct (describes_normalized d c Hdesc Hd) as (_ & _ & _ & _ & _ & Hu).
  split; [exact Hu|].
  destruct Hdesc as (_ & _ & _ & Hreal).
  destruct (Hreal Hd) as (_ & _ & _ & Hs & _).
  apply rsqrt_Some in Hs as [Hpos ->].
  assert (0 < sqrt (inverseMassi c + inverseMassj c)) by (apply sqrt_lt_R0; exact Hpos).
  rewrite <- (sqrt_sqrt (inverseMassi c + inverseMassj c)) at 3 by lra.
  field. lra.
Qed.

Lemma lamAfter_projection xp0 c :
  dot3 (rc c) (rc c) = 1 ->
  sqrtReducedMass c * sqrtReducedMass c * (inverseMassi c + inverseMassj c) = 1 ->
  lamAfter xp0 c 0 * (inverseMassi c + inverseMassj c)
  = dot3 (rc c) (dxAt xp0 c 0) - targetLength c.
Proof.
  intros Hu Hs. cbn [lamAfter].
  transitivity (sqrtReducedMass c * sqrtReducedMass c * (inverseMassi c + inverseMassj c)
                * (dot3 (rc c) (dxAt xp0 c 0) - targetLength c)); [ring|].
  rewrite Hs. ring.
Qed.

Lemma lamAfter_first xp0 c :
  dot3 (rc c) (rc c) = 1 ->
  sqrtReducedMass c * sqrtReducedMass c * (inverseMassi c + inverseMassj c) = 1 ->
  lamAfter xp0 c 1 * (inverseMassi c + inverseMassj c)
  = dot3 (rc c) (dxAt xp0 c 0)
    - sqrt (targetLength c * targetLength c
            - (dot3 (dxAt xp0 c 0) (dxAt xp0 c 0)
               - dot3 (rc c) (dxAt xp0 c 0) * dot3 (rc c) (dxAt xp0 c 0))).
Proof.
  intros Hu Hs. pose proof (lamAfter_projection xp0 c Hu Hs) as H0.
  destruct (dxAt_dots xp0 c _ _ Hu H0) as [_ Hq].
  cbn [lamAfter] in *. unfold projAt. rewrite Hq.
  set (W := inverseMassi c + inverseMassj c) in *.
  set (a := dot3 (rc c) (dxAt xp0 c 0)) in *.
  set (q := dot3 (dxAt xp0 c 0) (dxAt xp0 c 0)) in *.
  set (r0 := targetLength c) in *. set (s := sqrtReducedMass c) in *.
  replace (2 * (r0 * r0) - (q - 2 * (a - r0) * a + (a - r0) * (a - r0)))
    with (r0 * r0 - (q - a * a)) by ring.
  set (sigma := sqrt (r0 * r0 - (q - a * a))).
  rewrite Rmult_plus_distr_r, H0.
  transitivity (a - r0 + s * s * W * (r0 - sigma)); [ring|]. rewrite Hs. ring.
Qed.

Lemma lamAfter_settled xp0 c n :
  dot3 (rc c) (rc c) = 1 ->
  sqrtReducedMass c * sqrtReducedMass c * (inverseMassi c + inverseMassj c) = 1 ->
  0 <= targetLength c ->
  dot3 (dxAt xp0 c 0) (dxAt xp0 c 0)
  - dot3 (rc c) (dxAt xp0 c 0) * dot3 (rc c) (dxAt xp0 c 0)
  < targetLength c * targetLength c ->
  lamAfter xp0 c (S n) = lamAfter xp0 c 1.
Proof.
  intros Hu Hs Hr0 Hsmall. induction n as [|n IH]; [reflexivity|].
  change (lamAfter xp0 c (S (S n)))
    with (lamAfter xp0 c (S n)
          + sqrtReducedMass c * projAt xp0 c (lamAfter xp0 c (S n))).
  rewrite IH.
  pose proof (lamAfter_first xp0 c Hu Hs) as H1.
  destruct (dxAt_dots xp0 c _ _ Hu H1) as [_ Hq].
  unfold projAt. rewrite Hq.
  set (a := dot3 (rc c) (dxAt xp0 c 0)) in *.
  set (q := dot3 (dxAt xp0 c 0) (dxAt xp0 c 0)) in *.
  set (r0 := targetLength c) in *.
  set (sigma := sqrt (r0 * r0 - (q - a * a))) in *.
  assert (Hsig : sigma * sigma = r0 * r0 - (q - a * a)) by (apply sqrt_sqrt; lra).
  replace (2 * (r0 * r0) - (q - 2 * (a - sigma) * a + (a - sigma) * (a - sigma)))
    with (r0 * r0) by nra.
  rewrite sqrt_square by exact Hr0. ring.
Qed.

Lemma final_displacement d ths d' t :
  haveCoupledConstraints = false ->
  lincsKernelTrace d = Some (ths, d') -> exclusive ths ->
  In t ths -> isDummyThread (fst t) = false ->
  pbcDxAiucSycl pbcAiuc (atomAt (a_xp d') (atom_i (fst t)))
    (atomAt (a_xp d') (atom_j (fst t)))
  = dxAt (a_xp d) (fst t) (lamAfter (a_xp d) (fst t) (Z.to_nat numIterations))
  /\ pbcDxAiucSycl pbcAiuc (atomAt (a_xp d) (atom_i (fst t)))
       (atomAt (a_xp d) (atom_j (fst t)))
     = dxAt (a_xp d) (fst t) 0
  /\ describes d (fst t).
Proof.
  intros Hc H Hex Hin Hd.
  pose proof (lincsKernelTrace_onTrack d ths d' Hc H Hex) as Htrack.
  apply lincsKernelTrace_spec in H as (Hdesc & Hwf & _ & Hx & _).
  pose proof (placed_of_cells _ _ ths d Hx Hwf Hex Hdesc) as Hplaced.
  rewrite Forall_forall in Htrack, Hdesc, Hplaced.
  destruct (Hplaced _ Hin Hd) as [Hpi Hpj]. rewrite Hpi, Hpj, (Htrack _ Hin Hd).
  split; [reflexivity|]. split; [|apply Hdesc; exact Hin].
  unfold dxAt. rewrite endI_0, endJ_0. reflexivity.
Qed.

(** X5.  Without coupled constraints, without periodic images and without
    centripetal corrections ([numIterations <= 0]), a constraint that shares
    no atom ends with the component of its displacement along the direction
    [rc] equal to its target length; what the displacement had across [rc] is
    kept, so that the constraint ends longer than its target length by just
    that. *)
Theorem projection_sets_component d ths d' :
  haveCoupledConstraints = false -> (numIterations <= 0)%Z ->
  lincsKernelTrace d = Some (ths, d') -> exclusive ths ->
  forall t, In t ths -> isDummyThread (fst t) = false ->
    let before := pbcDxAiucSycl pbcAiuc (atomAt (a_xp d) (atom_i (fst t)))
                    (atomAt (a_xp d) (atom_j (fst t))) in
    let after := pbcDxAiucSycl pbcAiuc (atomAt (a_xp d') (atom_i (fst t)))
                   (atomAt (a_xp d') (atom_j (fst t))) in
    dot3 (rc (fst t)) after = targetLength (fst t)
    /\ dot3 after after
       = targetLength (fst t) * targetLength (fst t)
         + (dot3 before before - dot3 (rc (fst t)) before * dot3 (rc (fst t)) before).
Proof.
  intros Hc Hn H Hex t Hin Hd. cbv zeta.
  destruct (final_displacement d ths d' t Hc H Hex Hin Hd) as (-> & -> & Hdesc).
  destruct (describes_unit d _ Hdesc Hd) as [Hu Hs].
  replace (Z.to_nat numIterations) with 0%nat by lia.
  pose proof (lamAfter_projection (a_xp d) (fst t) Hu Hs) as H0.
  destruct (dxAt_dots (a_xp d) (fst t) _ _ Hu H0) as [-> ->]. split; ring.
Qed.

Lemma restored_displacement d ths d' :
  haveCoupledConstraints = false -> (1 <= numIterations)%Z ->
  lincsKernelTrace d = Some (ths, d') -> exclusive ths ->
  forall t, In t ths -> isDummyThread (fst t) = false ->
    let before := pbcDxAiucSycl pbcAiuc (atomAt (a_xp d) (atom_i (fst t)))
                    (atomAt (a_xp d) (atom_j (fst t))) in
    let after := pbcDxAiucSycl pbcAiuc (atomAt (a_xp d') (atom_i (fst t)))
                   (atomAt (a_xp d') (atom_j (fst t))) in
    0 <= targetLength (fst t) ->
    dot3 before before - dot3 (rc (fst t)) before * dot3 (rc (fst t)) before
    < targetLength (fst t) * targetLength (fst t) ->
    sqrt (dot3 after after) = targetLength (fst t)
    /\ dot3 (rc (fst t)) after
       = sqrt (targetLength (fst t) * targetLength (fst t)
               - (dot3 before before
                  - dot3 (rc (fst t)) before * dot3 (rc (fst t)) before))
    /\ 0 <= dot3 (pbcDxAiucSycl pbcAiuc
                    (nth (Z.to_nat (atom_i (fst t))) (a_x d) zero3)
                    (nth (Z.to_nat (atom_j (fst t))) (a_x d) zero3))
              after.
Proof.
  intros Hc Hn H Hex t Hin Hd. cbv zeta.
  destruct (final_displacement d ths d' t Hc H Hex Hin Hd) as (-> & -> & Hdesc).
  intros Hr0 Hsmall.
  destruct (describes_unit d _ Hdesc Hd) as [Hu Hs].
  destruct (Z.to_nat numIterations) as [|n] eqn:En; [lia|].
  rewrite (lamAfter_settled (a_xp d) (fst t) n Hu Hs Hr0 Hsmall).
  pose proof (lamAfter_first (a_xp d) (fst t) Hu Hs) as H1.
  destruct (dxAt_dots (a_xp d) (fst t) _ _ Hu H1) as [Ha Hq].
  set (a := dot3 (rc (fst t)) (dxAt (a_xp d) (fst t) 0)) in *.
  set (q := dot3 (dxAt (a_xp d) (fst t) 0) (dxAt (a_xp d) (fst t) 0)) in *.
  set (r0 := targetLength (fst t)) in *.
  set (sigma := sqrt (r0 * r0 - (q - a * a))) in *.
  assert (Hsig : sigma * sigma = r0 * r0 - (q - a * a)) by (apply sqrt_sqrt; lra).
  assert (Hsig0 : 0 <= sigma) by apply sqrt_pos.
  split; [|split].
  - rewrite Hq.
    replace (q - 2 * (a - sigma) * a + (a - sigma) * (a - sigma)) with (r0 * r0)
      by nra.
    apply sqrt_square. exact Hr0.
  - rewrite Ha. ring.
  - destruct (describes_normalized d _ Hdesc Hd) as (pi & pj & Hi & Hj & Hrc & _).
    apply load_Some in Hi as [_ Hi], Hj as [_ Hj].
    rewrite (Hi zero3), (Hj zero3).
    set (dx := pbcDxAiucSycl pbcAiuc pi pj) in *.
    set (D := dxAt (a_xp d) (fst t) (lamAfter (a_xp d) (fst t) 1)) in *.
    assert (Hdot : dot3 (rc (fst t)) D = / sqrt (dot3 dx dx) * dot3 dx D).
    { rewrite Hrc. unfold dot3, scale. cbn [comp f3x f3y f3z]. ring. }
    assert (Hpos : 0 < dot3 dx dx).
    { destruct Hdesc as (_ & _ & _ & Hreal).
      destruct (Hreal Hd) as (_ & _ & _ & _ & pi' & pj' & rlen & Hi' & Hj' & Hr & _).
      apply load_Some in Hi' as [_ Hi'], Hj' as [_ Hj'].
      rewrite <- (Hi' zero3), <- (Hj' zero3), (Hi zero3), (Hj zero3) in Hr.
      apply rsqrt_Some in Hr as [Hr _]. exact Hr. }
    assert (Hs0 : 0 < sqrt (dot3 dx dx)) by (apply sqrt_lt_R0; exact Hpos).
    replace (dot3 dx D) with (sqrt (dot3 dx dx) * dot3 (rc (fst t)) D)
      by (rewrite Hdot; field; lra).
    rewrite Ha. replace (a - (a - sigma)) with sigma by ring.
    apply Rmult_le_pos; lra.
Qed.

(** X6.  Without coupled constraints and without periodic images, with one
    centripetal correction or more, a constraint that shares no atom and whose
    displacement across the direction [rc] is shorter than its target length
    ends at its target length exactly, and on the side of [rc] where the
    positions [a_x] have it. *)
Theorem centripetal_restores_length d ths d' :
  haveCoupledConstraints = false -> (1 <= numIterations)%Z ->
  lincsKernelTrace d = Some (ths, d') -> exclusive ths ->
  forall t, In t ths -> isDummyThread (fst t) = false ->
    let before := pbcDxAiucSycl pbcAiuc (atomAt (a_xp d) (atom_i (fst t)))
                    (atomAt (a_xp d) (atom_j (fst t))) in
    let after := pbcDxAiucSycl pbcAiuc (atomAt (a_xp d') (atom_i (fst t)))
                   (atomAt (a_xp d') (atom_j (fst t))) in
    0 <= targetLength (fst t) ->
    dot3 before before - dot3 (rc (fst t)) before * dot3 (rc (fst t)) before
    < targetLength (fst t) * targetLength (fst t) ->
    sqrt (dot3 after after) = targetLength (fst t)
    /\ dot3 (rc (fst t)) after
       = sqrt (targetLength (fst t) * targetLength (fst t)
               - (dot3 before before
                  - dot3 (rc (fst t)) before * dot3 (rc (fst t)) before))
    /\ 0 <= dot3 (pbcDxAiucSycl pbcAiuc
                    (nth (Z.to_nat (atom_i (fst t))) (a_x d) zero3)
                    (nth (Z.to_nat (atom_j (fst t))) (a_x d) zero3))
              after.
Proof.
  intros Hc Hn H Hex t Hin Hd. exact (restored_displacement d ths d' Hc Hn H Hex t Hin Hd).
Qed.

Lemma settled_multiplier d ths d' :
  haveCoupledConstraints = false -> (1 <= numIterations)%Z ->
  lincsKernelTrace d = Some (ths, d') -> exclusive ths ->
  forall t, In t ths -> isDummyThread (fst t) = false ->
    let before := pbcDxAiucSycl pbcAiuc (atomAt (a_xp d) (atom_i (fst t)))
                    (atomAt (a_xp d) (atom_j (fst t))) in
    0 <= targetLength (fst t) ->
    dot3 before before = targetLength (fst t) * targetLength (fst t) ->
    0 < dot3 (rc (fst t)) before ->
    lagrangeScaled (snd t) = 0.
Proof.
  intros Hc Hn H Hex t Hin Hd. cbv zeta.
  destruct (final_displacement d ths d' t Hc H Hex Hin Hd) as (_ & -> & Hdesc).
  intros Hr0 Hq Ha.
  destruct (describes_unit d _ Hdesc Hd) as [Hu Hs].
  pose proof (lincsKernelTrace_onTrack d ths d' Hc H Hex) as Htrack.
  rewrite Forall_forall in Htrack. specialize (Htrack _ Hin Hd).
  rewrite Htrack.
  destruct (Z.to_nat numIterations) as [|n] eqn:En; [lia|].
  rewrite (lamAfter_settled (a_xp d) (fst t) n Hu Hs Hr0) by (rewrite Hq; nra).
  pose proof (lamAfter_first (a_xp d) (fst t) Hu Hs) as H1.
  rewrite Hq in H1.
  replace (targetLength (fst t) * targetLength (fst t)
           - (targetLength (fst t) * targetLength (fst t)
              - dot3 (rc (fst t)) (dxAt (a_xp d) (fst t) 0)
                * dot3 (rc (fst t)) (dxAt (a_xp d) (fst t) 0)))
    with (dot3 (rc (fst t)) (dxAt (a_xp d) (fst t) 0)
          * dot3 (rc (fst t)) (dxAt (a_xp d) (fst t) 0)) in H1 by ring.
  rewrite sqrt_square in H1 by lra.
  assert (HW : inverseMassi (fst t) + inverseMassj (fst t) <> 0).
  { intros HW. rewrite HW in Hs. lra. }
  apply (Rmult_eq_reg_r (inverseMassi (fst t) + inverseMassj (fst t))); [|exact HW].
  rewrite H1. ring.
Qed.

(** X10.  Without coupled constraints and without periodic images, with one
    centripetal correction or more, a constraint that shares no atom and is
    already at its target length in [a_xp], on the side of [rc], gets a
    multiplier of zero: its two atoms stay where they are. *)
Theorem satisfied_constraint_is_kept d ths d' :
  haveCoupledConstraints = false -> (1 <= numIterations)%Z ->
  lincsKernelTrace d = Some (ths, d') -> exclusive ths ->
  forall t, In t ths -> isDummyThread (fst t) = false ->
    let before := pbcDxAiucSycl pbcAiuc (atomAt (a_xp d) (atom_i (fst t)))
                    (atomAt (a_xp d) (atom_j (fst t))) in
    0 <= targetLength (fst t) ->
    dot3 before before = targetLength (fst t) * targetLength (fst t) ->
    0 < dot3 (rc (fst t)) before ->
    lagrangeScaled (snd t) = 0
    /\ atomAt (a_xp d') (atom_i (fst t)) = atomAt (a_xp d) (atom_i (fst t))
    /\ atomAt (a_xp d') (atom_j (fst t)) = atomAt (a_xp d) (atom_j (fst t)).
Proof.
  intros Hc Hn H Hex t Hin Hd. cbv zeta. intros Hr0 Hq Ha.
  pose proof (settled_multiplier d ths d' Hc Hn H Hex t Hin Hd Hr0 Hq Ha) as Hzero.
  apply lincsKernelTrace_spec in H as (Hdescs & Hwf & _ & Hx & _).
  pose proof (placed_of_cells _ _ ths d Hx Hwf Hex Hdescs) as Hplaced.
  rewrite Forall_forall in Hplaced.
  destruct (Hplaced _ Hin Hd) as [Hpi Hpj].
  split; [exact Hzero|].
  rewrite Hpi, Hpj, Hzero, endI_0, endJ_0. split; reflexivity.
Qed.

End NoImages.

(** A displacement along its own direction has nothing across it. *)
Lemma aligned_across (D : Float3) :
  0 < dot3 D D ->
  dot3 (scale (/ sqrt (dot3 D D)) D) D = sqrt (dot3 D D)
  /\ dot3 D D - dot3 (scale (/ sqrt (dot3 D D)) D) D * dot3 (scale (/ sqrt (dot3 D D)) D) D
     = 0.
Proof.
  intros Hq. assert (Hs : 0 < sqrt (dot3 D D)) by (apply sqrt_lt_R0; exact Hq).
  assert (Hss : sqrt (dot3 D D) * sqrt (dot3 D D) = dot3 D D) by (apply sqrt_sqrt; lra).
  assert (Hd : dot3 (scale (/ sqrt (dot3 D D)) D) D = sqrt (dot3 D D)).
  { transitivity (/ sqrt (dot3 D D) * dot3 D D).
    - unfold dot3, scale. cbn [comp f3x f3y f3z]. ring.
    - rewrite <- Hss at 2. field. lra. }
  split; [exact Hd|]. rewrite Hd, Hss. ring.
Qed.

(** ** The checks of the test on the buffers that a launch leaves *)

Lemma launch_spec kernelParams d_x d_xp d_v kernelParams' d_xp' d_v' :
  launchLincsGpuKernel kernelParams d_x d_xp d_v = Some (kernelParams', d_xp', d_v') ->
  exists ths d',
    lincsKernelTrace (kernelArguments kernelParams d_x d_xp d_v) = Some (ths, d')
    /\ threadsOf (kernelArguments kernelParams d_x d_xp d_v) = ths
    /\ reinterpretFloat d_xp' = a_xp d' /\ reinterpretFloat d_v' = a_v d'
    /\ length d_xp' = length d_xp /\ length d_v' = length d_v.
Proof.
  unfold launchLincsGpuKernel. intros H.
  destruct (lincsKernel (kernelArguments kernelParams d_x d_xp d_v)) as [d'|] eqn:E;
    [|discriminate].
  cbn [bind] in H. injection H as <- <- <-.
  destruct (lincsKernel_trace _ _ E) as [ths Ht]. exists ths, d'.
  split; [exact Ht|]. split; [unfold threadsOf; rewrite Ht; reflexivity|].
  apply lincsKernelTrace_spec in Ht as (_ & _ & Hk & _).
  destruct Hk as (_ & _ & _ & _ & _ & _ & Lxp & Lv & _).
  cbn [kernelArguments a_xp a_v] in Lxp, Lv. rewrite length_reinterpretFloat in Lxp, Lv.
  rewrite (reinterpretFloat_viewFloat3 _ _ Lxp), (reinterpretFloat_viewFloat3 _ _ Lv).
  rewrite (length_viewFloat3 _ _ Lxp), (length_viewFloat3 _ _ Lv). auto.
Qed.

Lemma forLoop_steps_below {St : Type} (Inv : nat -> St -> Prop)
      (body : Z -> St -> option St) (n : nat) :
  (forall j s, (j < n)%nat -> Inv j s ->
               exists s', body (Z.of_nat j) s = Some s' /\ Inv (S j) s') ->
  forall count j s,
    (j + count <= n)%nat -> Inv j s ->
    exists s', forLoop body count (Z.of_nat j) s = Some s' /\ Inv (j + count)%nat s'.
Proof.
  intros Hbody. induction count as [|count IH]; intros j s Hn HI.
  - exists s. rewrite Nat.add_0_r. split; [reflexivity | exact HI].
  - destruct (Hbody j s ltac:(lia) HI) as (s1 & E1 & HI1).
    destruct (IH (S j) s1 ltac:(lia) HI1) as (s2 & E2 & HI2).
    exists s2. cbn [forLoop]. rewrite E1. cbn [bind].
    replace (Z.of_nat j + 1)%Z with (Z.of_nat (S j)) by lia.
    rewrite Nat.add_succ_r. auto.
Qed.

Lemma weightedMeans_value (n : nat) masses before after :
  (n <= length masses)%nat -> (n <= length before)%nat -> (n <= length after)%nat ->
  weightedMeans (Z.of_nat n) masses before after
  = Some (times (weightedSum n masses before) (/ IZR (Z.of_nat n)),
          times (weightedSum n masses after) (/ IZR (Z.of_nat n))).
Proof.
  intros Hm Hb Ha. unfold weightedMeans, forRange. rewrite Z.sub_0_r, Nat2Z.id.
  destruct (forLoop_steps_below
              (fun j s => s = (weightedSum j masses before, weightedSum j masses after))
              (fun i '(com0, com) =>
                 m <- load masses i ;;
                 p0 <- load before i ;;
                 p <- load after i ;;
                 Some (rvec_inc com0 (scale m p0), rvec_inc com (scale m p)))
              n) with (count := n) (j := 0%nat) (s := (zero3, zero3))
    as (s' & E & Hs'); [| lia | reflexivity |].
  - intros j s Hj ->.
    rewrite (load_inRange masses _ 0), (load_inRange before _ zero3),
            (load_inRange after _ zero3) by lia.
    cbn [bind]. rewrite Nat2Z.id. eexists. split; [reflexivity|].
    unfold weightedSum, rvec_inc, scale. cbn [sumBelow comp f3x f3y f3z]. reflexivity.
  - change (Z.of_nat 0) with 0%Z in E. rewrite E. cbn [bind]. rewrite Hs'.
    reflexivity.
Qed.

Lemma weightedSum_cells masses a dd :
  (weightedSum (length masses) masses a).[dd]
  = massWeightedSum masses (reinterpretFloat a) dd.
Proof.
  unfold massWeightedSum.
  rewrite (sumBelow_ext _ _ (fun k => nth k masses 0 * (nth k a zero3).[dd]))
    by (intros k _; rewrite nth_reinterpretFloat; reflexivity).
  destruct dd; reflexivity.
Qed.

Lemma Float3_ext (a b : Float3) : (forall dd, a.[dd] = b.[dd]) -> a = b.
Proof.
  intros H. destruct a, b.
  pose proof (H XX) as Hx. pose proof (H YY) as Hy. pose proof (H ZZ) as Hz.
  cbn [comp f3x f3y f3z] in Hx, Hy, Hz. subst. reflexivity.
Qed.

Lemma weightedSum_eq masses a b :
  (forall dd, massWeightedSum masses (reinterpretFloat a) dd
              = massWeightedSum masses (reinterpretFloat b) dd) ->
  weightedSum (length masses) masses a = weightedSum (length masses) masses b.
Proof.
  intros H. apply Float3_ext. intros dd. rewrite !weightedSum_cells. apply H.
Qed.

Section ChecksOfTheTest.
Variable FloatingPointTolerance : Type.
Variable withinTolerance : FloatingPointTolerance -> R -> R -> bool.

(** X7.  When the masses of the test are the inverses of the inverse masses
    of the kernel, and the positions and velocities of the test after the
    constraints are the buffers that a launch leaves, the centre of mass and
    its velocity that the test computes are the same before and after: the
    checks of both are met with every tolerance that accepts equal values. *)
Theorem checkCOM_after_launch tolerance testData kernelParams kernelParams' :
  (forall a, withinTolerance tolerance a a = true) ->
  numAtoms_ testData = Z.of_nat (length (masses_ testData)) ->
  length (xPrime0_ testData) = length (masses_ testData) ->
  length (v0_ testData) = length (masses_ testData) ->
  length (masses_ testData) = length (d_inverseMasses kernelParams) ->
  (forall k, (k < length (masses_ testData))%nat ->
             nth k (masses_ testData) 0 * nth k (d_inverseMasses kernelParams) 0 = 1) ->
  launchLincsGpuKernel kernelParams (x_ testData) (xPrime0_ testData) (v0_ testData)
  = Some (kernelParams', xPrime_ testData, v_ testData) ->
  checkCOMCoordinates FloatingPointTolerance withinTolerance tolerance testData = Some true
  /\ checkCOMVelocity FloatingPointTolerance withinTolerance tolerance testData = Some true.
Proof.
  intros Hrefl Hn Lx Lv Lm Hm H.
  destruct (launch_spec _ _ _ _ _ _ _ H) as (ths & d' & Ht & _ & Exp & Ev & Lx' & Lv').
  apply lincsKernelTrace_spec in Ht as (Hd & _ & Hk & Hx & Hvel).
  set (d := kernelArguments kernelParams (x_ testData) (xPrime0_ testData) (v0_ testData))
    in *.
  assert (Hpos : weightedSum (length (masses_ testData)) (masses_ testData) (xPrime_ testData)
                 = weightedSum (length (masses_ testData)) (masses_ testData)
                     (xPrime0_ testData)).
  { apply weightedSum_eq. intros dd. rewrite Exp.
    apply (massWeightedSum_moved _ d ths (a_xp d) _ dd 1 Lm Hm Hd).
    intros n. rewrite Hx. ring. }
  assert (Hv : weightedSum (length (masses_ testData)) (masses_ testData) (v_ testData)
               = weightedSum (length (masses_ testData)) (masses_ testData) (v0_ testData)).
  { apply weightedSum_eq. intros dd. rewrite Ev.
    destruct updateVelocities eqn:Hu.
    - apply (massWeightedSum_moved _ d ths (a_v d) _ dd invdt Lm Hm Hd).
      intros n. apply Hvel. reflexivity.
    - destruct Hk as (_ & _ & _ & Hkv & _). rewrite (Hkv eq_refl). reflexivity. }
  unfold checkCOMCoordinates, checkCOMVelocity. rewrite Hn.
  rewrite !weightedMeans_value by lia. cbn [bind]. rewrite Hpos, Hv, !Hrefl.
  split; reflexivity.
Qed.
End ChecksOfTheTest.

(** ** The lengths and the directions that the test checks *)

Lemma trace_one_group d ths d' :
  lincsKernelTrace d = Some (ths, d') -> (0 < numConstraintsThreads)%Z ->
  numConstraintsThreads = c_threadsPerBlock /\ workGroup 0 d = Some (ths, d').
Proof.
  intros H HN.
  destruct (Z_lt_le_dec 0 c_threadsPerBlock) as [HT|HT].
  2:{ unfold lincsKernelTrace, launchable in H.
      replace (0 <? c_threadsPerBlock)%Z with false in H
        by (symmetry; apply Z.ltb_ge; exact HT).
      discriminate. }
  destruct (Z_lt_le_dec numConstraintsThreads (2 * c_threadsPerBlock)) as [Hlt|Hge].
  2:{ rewrite (lincsKernelTrace_second_group d HT Hge) in H. discriminate. }
  unfold lincsKernelTrace in H. destruct launchable eqn:Hl; [|discriminate].
  unfold launchable in Hl. apply andb_true_iff in Hl as [_ Hrem].
  apply Z.eqb_eq in Hrem.
  pose proof (Z.quot_rem' numConstraintsThreads c_threadsPerBlock) as Hq.
  assert (Hone : Z.quot numConstraintsThreads c_threadsPerBlock = 1%Z).
  { rewrite Hrem in Hq.
    assert (0 < Z.quot numConstraintsThreads c_threadsPerBlock)%Z by nia.
    nia. }
  split; [rewrite Hone in Hq; lia|].
  rewrite Hone in H. unfold forRange in H. change (Z.to_nat (1 - 0)) with 1%nat in H.
  cbn [forLoop] in H. destruct (workGroup 0 d) as [[ths1 d1]|]; [|discriminate].
  cbn [bind app] in H. exact H.
Qed.

Lemma trace_entry d ths d' c :
  lincsKernelTrace d = Some (ths, d') -> (0 <= c < numConstraintsThreads)%Z ->
  exists t, In t ths /\ threadIndex (fst t) = c /\ describes d (fst t).
Proof.
  intros H Hc. destruct (trace_one_group d ths d' H ltac:(lia)) as [HN Hw].
  pose proof (lincsKernelTrace_spec _ _ _ H) as (Hdesc & _).
  apply workGroup_spec in Hw as [Hids _].
  assert (Hin : In (c, c) (workItems 0)).
  { unfold workItems. apply in_map_iff. exists (Z.to_nat c).
    split; [f_equal; lia | apply in_seq; lia]. }
  rewrite <- Hids in Hin. apply in_map_iff in Hin as (t & Hid & Hin).
  exists t. split; [exact Hin|]. split.
  - unfold idOf in Hid. injection Hid as Hid _. exact Hid.
  - rewrite Forall_forall in Hdesc. apply Hdesc. exact Hin.
Qed.

Lemma atomAt_reinterpretFloat b k :
  (0 <= k)%Z -> atomAt (reinterpretFloat b) k = nth (Z.to_nat k) b zero3.
Proof.
  intros Hk. unfold atomAt. rewrite !cellOf_atom by exact Hk.
  rewrite !nth_reinterpretFloat. destruct (nth (Z.to_nat k) b zero3). reflexivity.
Qed.

Section LengthsOfTheTest.
Variable FloatingPointTolerance : Type.
Variable withinTolerance : FloatingPointTolerance -> R -> R -> bool.
Variable t_pbc : Type.
Variable pbcTypeIsXyz : t_pbc -> bool.
Variable pbc_dx_aiuc : t_pbc -> Float3 -> Float3 -> Float3.
Hypothesis Hfree :
  forall a b, pbcDxAiucSycl pbcAiuc a b
              = mkFloat3 (a.[XX] - b.[XX]) (a.[YY] - b.[YY]) (a.[ZZ] - b.[ZZ]).

(** What the launch leaves for one constraint of the test. *)
Lemma constraint_after_launch testData kernelParams kernelParams' c i j r0 :
  haveCoupledConstraints = false -> (1 <= numIterations)%Z ->
  length (xPrime0_ testData) = length (x_ testData) ->
  launchLincsGpuKernel kernelParams (x_ testData) (xPrime0_ testData) (v0_ testData)
  = Some (kernelParams', xPrime_ testData, v_ testData) ->
  exclusive (threadsOf (kernelArguments kernelParams (x_ testData) (xPrime0_ testData)
                          (v0_ testData))) ->
  (0 <= c < numConstraintsThreads)%Z ->
  load (d_constraints kernelParams) c = Some (mkAtomPair i j) ->
  load (d_constraintsTargetLengths kernelParams) c = Some r0 ->
  i <> (-1)%Z -> 0 <= r0 ->
  (let dx := rvec_sub (nth (Z.to_nat i) (x_ testData) zero3)
                      (nth (Z.to_nat j) (x_ testData) zero3) in
   let d0 := rvec_sub (nth (Z.to_nat i) (xPrime0_ testData) zero3)
                      (nth (Z.to_nat j) (xPrime0_ testData) zero3) in
   dot3 d0 d0 * dot3 dx dx - dot3 dx d0 * dot3 dx d0 < r0 * r0 * dot3 dx dx) ->
  exists xi xj xPrimei xPrimej,
    load (x_ testData) i = Some xi /\ load (x_ testData) j = Some xj
    /\ load (xPrime_ testData) i = Some xPrimei
    /\ load (xPrime_ testData) j = Some xPrimej
    /\ norm (rvec_sub xPrimei xPrimej) = r0
    /\ 0 <= dot3 (rvec_sub xi xj) (rvec_sub xPrimei xPrimej).
Proof.
  intros Hc Hn Lx H Hex Hcn Hpair Hlen Hi Hr0 Hsmall.
  destruct (launch_spec _ _ _ _ _ _ _ H) as (ths & d' & Ht & Hths & Exp & _ & Lx' & _).
  rewrite Hths in Hex.
  set (d := kernelArguments kernelParams (x_ testData) (xPrime0_ testData) (v0_ testData))
    in *.
  destruct (trace_entry d ths d' c Ht Hcn) as ([k v] & Hin & Hidx & Hdesc).
  cbn [fst] in Hidx, Hdesc.
  pose proof Hdesc as (Hp & Hdum & _ & Hreal). rewrite Hidx in Hp.
  change (a_constraints d) with (d_constraints kernelParams) in Hp.
  rewrite Hpair in Hp. injection Hp as Hai Haj.
  assert (Hd : isDummyThread k = false).
  { rewrite Hdum, <- Hai. apply Z.eqb_neq. exact Hi. }
  destruct (Hreal Hd) as (Htl & _ & _ & _ & pi & pj & rlen & Hpi & Hpj & Hrl & Hrc).
  rewrite Hidx in Htl.
  change (a_constraintsTargetLengths d) with (d_constraintsTargetLengths kernelParams)
    in Htl.
  rewrite Hlen in Htl. injection Htl as Htl.
  change (a_x d) with (x_ testData) in Hpi, Hpj. rewrite <- Hai in Hpi. rewrite <- Haj in Hpj.
  pose proof (load_Some _ _ _ Hpi) as [Ri Vi]. pose proof (load_Some _ _ _ Hpj) as [Rj Vj].
  exists pi, pj, (nth (Z.to_nat i) (xPrime_ testData) zero3),
         (nth (Z.to_nat j) (xPrime_ testData) zero3).
  split; [exact Hpi|]. split; [exact Hpj|].
  split; [apply load_inRange; lia|]. split; [apply load_inRange; lia|].
  pose proof (restored_displacement Hfree d ths d' Hc Hn Ht Hex (k, v) Hin Hd) as Hres.
  cbv zeta in Hres. cbn [fst] in Hres. rewrite <- Hai, <- Haj, <- Htl in Hres.
  rewrite !Hfree in Hres. rewrite <- Exp in Hres.
  change (a_xp d) with (reinterpretFloat (xPrime0_ testData)) in Hres.
  change (a_x d) with (x_ testData) in Hres.
  rewrite !atomAt_reinterpretFloat in Hres by lia.
  rewrite (Vi zero3), (Vj zero3) in Hres.
  fold (rvec_sub (nth (Z.to_nat i) (xPrime_ testData) zero3)
                 (nth (Z.to_nat j) (xPrime_ testData) zero3)) in Hres.
  fold (rvec_sub (nth (Z.to_nat i) (xPrime0_ testData) zero3)
                 (nth (Z.to_nat j) (xPrime0_ testData) zero3)) in Hres.
  fold (rvec_sub pi pj) in Hres.
  cbv zeta in Hsmall. rewrite (Vi zero3), (Vj zero3) in Hsmall.
  set (dx := rvec_sub pi pj) in *.
  set (d0 := rvec_sub (nth (Z.to_nat i) (xPrime0_ testData) zero3)
                      (nth (Z.to_nat j) (xPrime0_ testData) zero3)) in *.
  assert (Hq : 0 < dot3 dx dx).
  { apply rsqrt_Some in Hrl as [Hq _]. rewrite Hfree in Hq. exact Hq. }
  assert (Hs : 0 < sqrt (dot3 dx dx)) by (apply sqrt_lt_R0; exact Hq).
  assert (Hss : sqrt (dot3 dx dx) * sqrt (dot3 dx dx) = dot3 dx dx)
    by (apply sqrt_sqrt; lra).
  assert (Hrd : dot3 (rc k) d0 = dot3 dx d0 * / sqrt (dot3 dx dx)).
  { rewrite Hrc. apply rsqrt_Some in Hrl as [_ ->]. rewrite Hfree. fold (rvec_sub pi pj).
    fold dx. unfold dot3, scale. cbn [comp f3x f3y f3z]. ring. }
  destruct Hres as (Hnorm & _ & Hdir); [exact Hr0 | | split; [exact Hnorm | exact Hdir]].
  rewrite Hrd.
  set (A := dot3 dx d0) in *. set (q := dot3 dx dx) in *. set (s := sqrt q) in *.
  set (y := A * / s * (A * / s)).
  assert (Hy : y * q = A * A).
  { unfold y. rewrite <- Hss. field. lra. }
  nra.
Qed.

(** X8.  Without coupled constraints and without periodic images, with one
    centripetal correction or more: when the constraints of the test are the
    entries of the kernel, none of them shares an atom with another, and the
    positions before the constraints put each of them at less than its target
    length across its direction at the positions [x], the positions that a
    launch leaves meet the check of the lengths, with every tolerance that
    accepts equal values, and the check of the directions. *)
Theorem checkConstrains_after_launch tolerance testData pbc kernelParams kernelParams' :
  haveCoupledConstraints = false -> (1 <= numIterations)%Z ->
  pbcTypeIsXyz pbc = false ->
  (forall a, withinTolerance tolerance a a = true) ->
  length (xPrime0_ testData) = length (x_ testData) ->
  launchLincsGpuKernel kernelParams (x_ testData) (xPrime0_ testData) (v0_ testData)
  = Some (kernelParams', xPrime_ testData, v_ testData) ->
  exclusive (threadsOf (kernelArguments kernelParams (x_ testData) (xPrime0_ testData)
                          (v0_ testData))) ->
  (forall c, (0 <= c < Z.quot (Z.of_nat (length (constraints_ testData))) 3)%Z ->
     exists type i j r0,
       load (constraints_ testData) (3 * c) = Some type
       /\ load (constraintsR0_ testData) type = Some r0
       /\ load (constraints_ testData) (3 * c + 1) = Some i
       /\ load (constraints_ testData) (3 * c + 2) = Some j
       /\ (c < numConstraintsThreads)%Z
       /\ load (d_constraints kernelParams) c = Some (mkAtomPair i j)
       /\ load (d_constraintsTargetLengths kernelParams) c = Some r0
       /\ i <> (-1)%Z /\ 0 <= r0
       /\ (let dx := rvec_sub (nth (Z.to_nat i) (x_ testData) zero3)
                              (nth (Z.to_nat j) (x_ testData) zero3) in
           let d0 := rvec_sub (nth (Z.to_nat i) (xPrime0_ testData) zero3)
                              (nth (Z.to_nat j) (xPrime0_ testData) zero3) in
           dot3 d0 d0 * dot3 dx dx - dot3 dx d0 * dot3 dx d0 < r0 * r0 * dot3 dx dx)) ->
  checkConstrainsLength FloatingPointTolerance withinTolerance t_pbc pbcTypeIsXyz
    pbc_dx_aiuc tolerance testData pbc = Some true
  /\ checkConstrainsDirection t_pbc pbcTypeIsXyz pbc_dx_aiuc testData pbc = Some true.
Proof.
  intros Hc Hn Hxyz Hrefl Lx H Hex Hmap.
  unfold checkConstrainsLength, checkConstrainsDirection, forRange.
  rewrite Z.sub_0_r.
  set (n := Z.to_nat (Z.quot (Z.of_nat (length (constraints_ testData))) 3)).
  assert (Hstep : forall k, (k < n)%nat ->
            exists type i j r0 xi xj xPrimei xPrimej,
              load (constraints_ testData) (3 * Z.of_nat k) = Some type
              /\ load (constraintsR0_ testData) type = Some r0
              /\ load (constraints_ testData) (3 * Z.of_nat k + 1) = Some i
              /\ load (constraints_ testData) (3 * Z.of_nat k + 2) = Some j
              /\ load (x_ testData) i = Some xi /\ load (x_ testData) j = Some xj
              /\ load (xPrime_ testData) i = Some xPrimei
              /\ load (xPrime_ testData) j = Some xPrimej
              /\ norm (rvec_sub xPrimei xPrimej) = r0
              /\ 0 <= dot3 (rvec_sub xi xj) (rvec_sub xPrimei xPrimej)).
  { intros k Hk.
    destruct (Hmap (Z.of_nat k) ltac:(unfold n in Hk; lia))
      as (type & i & j & r0 & L0 & LR & L1 & L2 & HcN & Hp & Hl & Hi & Hr0 & Hsmall).
    destruct (constraint_after_launch testData kernelParams kernelParams' (Z.of_nat k)
                i j r0 Hc Hn Lx H Hex ltac:(lia) Hp Hl Hi Hr0 Hsmall)
      as (xi & xj & xPi & xPj & A1 & A2 & A3 & A4 & A5 & A6).
    exists type, i, j, r0, xi, xj, xPi, xPj. auto 12. }
  split.
  - destruct (forLoop_steps_below (fun _ ok => ok = true)
                (fun c ok =>
                   type <- load (constraints_ testData) (3 * c)%Z ;;
                   r0 <- load (constraintsR0_ testData) type ;;
                   i <- load (constraints_ testData) (3 * c + 1)%Z ;;
                   j <- load (constraints_ testData) (3 * c + 2)%Z ;;
                   xi <- load (x_ testData) i ;;
                   xj <- load (x_ testData) j ;;
                   xPrimei <- load (xPrime_ testData) i ;;
                   xPrimej <- load (xPrime_ testData) j ;;
                   Some (ok && withinTolerance tolerance r0
                                 (norm (displacement t_pbc pbcTypeIsXyz pbc_dx_aiuc pbc
                                          xPrimei xPrimej))))
                n) with (count := n) (j := 0%nat) (s := true)
      as (ok & E & Hok); [| lia | reflexivity |].
    + intros k ok' Hk ->.
      destruct (Hstep k Hk)
        as (type & i & j & r0 & xi & xj & xPi & xPj & L0 & LR & L1 & L2 & A1 & A2 & A3
            & A4 & A5 & _).
      rewrite L0. cbn [bind]. rewrite LR. cbn [bind]. rewrite L1. cbn [bind].
      rewrite L2. cbn [bind]. rewrite A1. cbn [bind]. rewrite A2. cbn [bind].
      rewrite A3. cbn [bind]. rewrite A4. cbn [bind].
      unfold displacement. rewrite Hxyz, A5, Hrefl. eexists. split; reflexivity.
    + change (Z.of_nat 0) with 0%Z in E. rewrite Hok in E. exact E.
  - destruct (forLoop_steps_below (fun _ ok => ok = true)
                (fun c ok =>
                   i <- load (constraints_ testData) (3 * c + 1)%Z ;;
                   j <- load (constraints_ testData) (3 * c + 2)%Z ;;
                   xi <- load (x_ testData) i ;;
                   xj <- load (x_ testData) j ;;
                   xPrimei <- load (xPrime_ testData) i ;;
                   xPrimej <- load (xPrime_ testData) j ;;
                   Some (ok && (if Rge_dec
                                     (dot3 (displacement t_pbc pbcTypeIsXyz pbc_dx_aiuc pbc
                                              xi xj)
                                           (displacement t_pbc pbcTypeIsXyz pbc_dx_aiuc pbc
                                              xPrimei xPrimej)) 0
                                then true else false)))
                n) with (count := n) (j := 0%nat) (s := true)
      as (ok & E & Hok); [| lia | reflexivity |].
    + intros k ok' Hk ->.
      destruct (Hstep k Hk)
        as (type & i & j & r0 & xi & xj & xPi & xPj & L0 & LR & L1 & L2 & A1 & A2 & A3
            & A4 & _ & A6).
      rewrite L1. cbn [bind]. rewrite L2. cbn [bind]. rewrite A1. cbn [bind].
      rewrite A2. cbn [bind]. rewrite A3. cbn [bind]. rewrite A4. cbn [bind].
      unfold displacement. rewrite Hxyz.
      destruct (Rge_dec (dot3 (rvec_sub xi xj) (rvec_sub xPi xPj)) 0) as [_|Hneg];
        [|exfalso; lra].
      eexists. split; reflexivity.
    + change (Z.of_nat 0) with 0%Z in E. rewrite Hok in E. exact E.
Qed.
End LengthsOfTheTest.

(** The work-item of the entry [c], by its place in the list. *)
Lemma trace_thread d ths d' c (dflt : Thread) :
  lincsKernelTrace d = Some (ths, d') -> (0 <= c < numConstraintsThreads)%Z ->
  In (nth (Z.to_nat c) ths dflt) ths
  /\ threadIndex (fst (nth (Z.to_nat c) ths dflt)) = c
  /\ describes d (fst (nth (Z.to_nat c) ths dflt)).
Proof.
  intros H Hc. destruct (trace_one_group d ths d' H ltac:(lia)) as [HN Hw].
  pose proof (lincsKernelTrace_spec _ _ _ H) as (Hdesc & _).
  apply workGroup_spec in Hw as [Hids _].
  assert (Hlen : length ths = Z.to_nat c_threadsPerBlock).
  { rewrite <- (length_map idOf ths), Hids. unfold workItems.
    rewrite length_map, length_seq. reflexivity. }
  assert (Hin : In (nth (Z.to_nat c) ths dflt) ths) by (apply nth_In; lia).
  split; [exact Hin|]. split.
  - assert (Hid : idOf (nth (Z.to_nat c) ths dflt) = (c, c)).
    { rewrite <- (map_nth idOf), Hids. unfold workItems.
      rewrite (nth_indep _ _ ((fun t => ((0 * c_threadsPerBlock + Z.of_nat t)%Z,
                                         Z.of_nat t)) 0%nat))
        by (rewrite length_map, length_seq; lia).
      rewrite (map_nth (fun t => ((0 * c_threadsPerBlock + Z.of_nat t)%Z, Z.of_nat t))).
      rewrite seq_nth by lia. f_equal; lia. }
    unfold idOf in Hid. injection Hid as Hid _. exact Hid.
  - rewrite Forall_forall in Hdesc. apply Hdesc. exact Hin.
Qed.

(** Each work-item of a launch has its entry of the constraints. *)
Lemma trace_member d ths d' t :
  lincsKernelTrace d = Some (ths, d') -> (0 < numConstraintsThreads)%Z -> In t ths ->
  (0 <= threadIndex (fst t) < numConstraintsThreads)%Z /\ describes d (fst t).
Proof.
  intros H HN Hin. destruct (trace_one_group d ths d' H HN) as [HNT Hw].
  pose proof (lincsKernelTrace_spec _ _ _ H) as (Hdesc & _).
  apply workGroup_spec in Hw as [Hids _].
  rewrite Forall_forall in Hdesc. split; [|apply Hdesc; exact Hin].
  pose proof (in_map idOf _ _ Hin) as Hid. rewrite Hids in Hid.
  unfold workItems in Hid. apply in_map_iff in Hid as (k & Hid & Hk).
  apply in_seq in Hk. unfold idOf in Hid. injection Hid as Hid _. lia.
Qed.

(** ** A launch on the result of a launch *)

Lemma describes_same d c c' :
  describes d c -> describes d c' -> threadIndex c = threadIndex c' ->
  atom_i c = atom_i c' /\ atom_j c = atom_j c' /\ isDummyThread c = isDummyThread c'
  /\ (isDummyThread c = false -> targetLength c = targetLength c' /\ rc c = rc c').
Proof.
  intros (Hp & Hdum & _ & Hreal) (Hp' & Hdum' & _ & Hreal') Hidx.
  rewrite Hidx, Hp' in Hp. injection Hp as Hi Hj.
  assert (Hd : isDummyThread c = isDummyThread c')
    by (rewrite Hdum, Hdum', Hi; reflexivity).
  split; [symmetry; exact Hi|]. split; [symmetry; exact Hj|]. split; [exact Hd|].
  intros Hnd.
  destruct (Hreal Hnd) as (Htl & _ & _ & _ & pi & pj & rlen & Hpi & Hpj & Hr & Hrc).
  rewrite Hd in Hnd.
  destruct (Hreal' Hnd)
    as (Htl' & _ & _ & _ & pi' & pj' & rlen' & Hpi' & Hpj' & Hr' & Hrc').
  rewrite Hidx, Htl' in Htl. injection Htl as Htl.
  rewrite <- Hi, Hpi' in Hpi. injection Hpi as Hpi.
  rewrite <- Hj, Hpj' in Hpj. injection Hpj as Hpj.
  subst pi pj. rewrite Hr' in Hr. injection Hr as Hr.
  split; [symmetry; exact Htl|]. rewrite Hrc, Hrc', Hr. reflexivity.
Qed.

Lemma trace_ready d ths d' :
  lincsKernelTrace d = Some (ths, d') ->
  forall c, (0 <= c < numConstraintsThreads)%Z -> constraintReady d c.
Proof.
  intros H c Hc.
  destruct (trace_entry d ths d' c H Hc) as ([k v] & _ & Hidx & Hdesc).
  cbn [fst] in Hidx, Hdesc. destruct Hdesc as (Hp & Hdum & _ & Hreal).
  rewrite Hidx in Hp, Hreal. unfold constraintReady. rewrite Hp. cbn [pair_i pair_j].
  rewrite <- Hdum. destruct (isDummyThread k); [exact I|].
  destruct (Hreal eq_refl) as (Htl & Hwi & Hwj & Hs & pi & pj & rlen & Hpi & Hpj & Hr & _).
  rewrite Htl, Hwi, Hwj, Hpi, Hpj.
  apply rsqrt_Some in Hs as [Hs _], Hr as [Hr _]. split; assumption.
Qed.

Lemma constraintReady_kept d d' c :
  readOnlyKept d d' -> constraintReady d c -> constraintReady d' c.
Proof.
  intros (H1 & H2 & _ & _ & _ & H6 & H7). unfold constraintReady.
  rewrite H1, H2, H6, H7. tauto.
Qed.

Lemma trace_atoms d ths d' :
  lincsKernelTrace d = Some (ths, d') ->
  map atomsOf ths = map (fun id => atomsAt d (fst id)) (map idOf ths).
Proof.
  intros H. apply lincsKernelTrace_spec in H as (Hdesc & _).
  rewrite map_map. apply map_ext_in. intros t Hin.
  rewrite Forall_forall in Hdesc. destruct (Hdesc t Hin) as (Hp & Hdum & _).
  unfold atomsOf, atomsAt, idOf. cbn [fst]. rewrite Hp, Hdum. reflexivity.
Qed.

Lemma totalCorrection_idle ths n :
  Forall (fun t : Thread => lagrangeScaled (snd t) = 0) ths -> totalCorrection ths n = 0.
Proof.
  induction 1 as [|[c v] rest Hl _ IH]; simpl; [reflexivity|].
  simpl in Hl. rewrite Hl, IH. ring.
Qed.

Lemma virialSum_idle ths k :
  Forall (fun t : Thread => lagrangeScaled (snd t) = 0) ths -> virialSum ths k = 0.
Proof.
  induction 1 as [|t rest Hl _ IH]; simpl; [reflexivity|].
  unfold threadVirial. rewrite Hl, IH. ring.
Qed.

Lemma trace_without_threads d ths d' :
  lincsKernelTrace d = Some (ths, d') -> (numConstraintsThreads <= 0)%Z ->
  ths = [] /\ d' = d /\ forall e, lincsKernelTrace e = Some ([], e).
Proof.
  unfold lincsKernelTrace. destruct launchable eqn:Hl; [|discriminate].
  intros H HN. unfold launchable in Hl.
  apply andb_true_iff in Hl as [Hl _]. apply andb_true_iff in Hl as [HT Hl].
  apply Z.leb_le in Hl. apply Z.ltb_lt in HT.
  assert (H0 : numConstraintsThreads = 0%Z) by lia.
  rewrite H0 in *. rewrite Z.quot_0_l in * by lia. unfold forRange in *.
  change (Z.to_nat (0 - 0)) with 0%nat in *. cbn [forLoop] in *.
  injection H as <- <-. auto.
Qed.

Lemma DeviceBuffers_ext (d e : DeviceBuffers) :
  readOnlyKept d e -> a_matrixA e = a_matrixA d -> a_xp e = a_xp d -> a_v e = a_v d ->
  a_virialScaled e = a_virialScaled d -> e = d.
Proof.
  intros (H1 & H2 & H3 & H4 & H5 & H6 & H7) HA Hxp Hv Hvir.
  destruct d, e. cbn in *. congruence.
Qed.

Section Twice.
Hypothesis Hfree :
  forall a b, pbcDxAiucSycl pbcAiuc a b
              = mkFloat3 (a.[XX] - b.[XX]) (a.[YY] - b.[YY]) (a.[ZZ] - b.[ZZ]).

(** X11.  In exact arithmetic (the numbers are reals, every operation
    without rounding): without coupled constraints and without periodic
    images, with one centripetal correction or more and buffers of the
    extents of the atoms, when no constraint shares an atom and each one is,
    across its direction, shorter than its target length, the buffers that a
    launch leaves are a fixed point of the kernel: a second launch on them has
    a result, and the result is the same buffers (positions, velocities and
    virial).  With the rounding of binary32 the second launch can find a
    multiplier of the size of the rounding of the first one; the last section
    of the file has an example. *)
Theorem relaunch_changes_nothing (r : nat) d ths d' :
  haveCoupledConstraints = false -> (1 <= numIterations)%Z ->
  lincsKernelTrace d = Some (ths, d') -> exclusive ths ->
  length (a_xp d) = (3 * length (a_x d))%nat ->
  (updateVelocities = true -> length (a_v d) = (3 * length (a_x d))%nat) ->
  (computeVirial = true ->
   (6 <= length (a_virialScaled d))%nat
   /\ c_threadsPerBlock = (2 ^ Z.of_nat r)%Z /\ (6 <= c_threadsPerBlock)%Z) ->
  (forall t, In t ths -> isDummyThread (fst t) = false ->
     let before := pbcDxAiucSycl pbcAiuc (atomAt (a_xp d) (atom_i (fst t)))
                     (atomAt (a_xp d) (atom_j (fst t))) in
     0 <= targetLength (fst t)
     /\ dot3 before before - dot3 (rc (fst t)) before * dot3 (rc (fst t)) before
        < targetLength (fst t) * targetLength (fst t)) ->
  lincsKernel d' = Some d'.
Proof.
  intros Hc Hn H Hex Hxp Hv Hvir Hsmall.
  destruct (Z_lt_le_dec 0 numConstraintsThreads) as [HN|HN].
  2:{ destruct (trace_without_threads d ths d' H HN) as (_ & _ & He).
      unfold lincsKernel. rewrite He. reflexivity. }
  destruct (trace_one_group d ths d' H HN) as [HNT Hw].
  assert (HT : (0 < c_threadsPerBlock)%Z) by lia.
  pose proof (lincsKernelTrace_spec _ _ _ H) as (Hdesc & Hwf & Hk & Hx & Hvel).
  destruct Hk as (Hro & HA & _ & HkV & HkVir & LA & Lxp & Lv & Lvir).
  assert (Hax : a_x d' = a_x d) by apply Hro.
  destruct (lincsKernelTrace_returns d' Hc HT HNT) as (ths2 & d2 & H2 & _).
  { apply Forall_forall. intros id Hin. apply (constraintReady_kept d d' _ Hro).
    apply (trace_ready d ths d' H). unfold workItems in Hin.
    apply in_map_iff in Hin as (k & <- & Hk). apply in_seq in Hk. cbn [fst]. lia. }
  { rewrite Lxp, Hax. exact Hxp. }
  { intros Hu. rewrite Lv, Hax. exact (Hv Hu). }
  { intros Hu. rewrite Lvir. apply (Hvir Hu). }
  pose proof (lincsKernelTrace_spec _ _ _ H2) as (Hdesc2 & Hwf2 & Hk2 & Hx2 & Hvel2).
  destruct Hk2 as (Hro2 & HA2 & _ & HkV2 & HkVir2 & LA2 & Lxp2 & Lv2 & Lvir2).
  destruct (trace_one_group d' ths2 d2 H2 HN) as [_ Hw2].
  apply workGroup_spec in Hw as [Hids _]. apply workGroup_spec in Hw2 as [Hids2 _].
  assert (Hex2 : exclusive ths2).
  { unfold exclusive. rewrite (trace_atoms d' ths2 d2 H2), Hids2, <- Hids.
    replace (map (fun id => atomsAt d' (fst id)) (map idOf ths))
      with (map (fun id => atomsAt d (fst id)) (map idOf ths)).
    - rewrite <- (trace_atoms d ths d' H). exact Hex.
    - apply map_ext. intros id. unfold atomsAt.
      destruct Hro as (-> & _). reflexivity. }
  assert (Hidle : Forall (fun t : Thread => lagrangeScaled (snd t) = 0) ths2).
  { apply Forall_forall. intros t2 Hin2.
    rewrite Forall_forall in Hwf2, Hdesc2.
    destruct (isDummyThread (fst t2)) eqn:Hd2; [apply (Hwf2 t2 Hin2); exact Hd2|].
    assert (Hc2 : (0 <= threadIndex (fst t2) < numConstraintsThreads)%Z).
    { pose proof (in_map idOf _ _ Hin2) as Hid. rewrite Hids2 in Hid.
      unfold workItems in Hid. apply in_map_iff in Hid as (k & Hid & Hk).
      apply in_seq in Hk. unfold idOf in Hid. injection Hid as Hid _. lia. }
    destruct (trace_entry d ths d' _ H Hc2) as (t1 & Hin1 & Hidx1 & Hdesc1).
    pose proof (describes_kept d' d _ (readOnlyKept_sym _ _ Hro) (Hdesc2 t2 Hin2))
      as Hdesc2'.
    destruct (describes_same d (fst t1) (fst t2) Hdesc1 Hdesc2' Hidx1)
      as (Hi & Hj & Hdum & Hsame).
    assert (Hd1 : isDummyThread (fst t1) = false) by (rewrite Hdum; exact Hd2).
    destruct (Hsame Hd1) as [Htl Hrc].
    destruct (Hsmall t1 Hin1 Hd1) as [Hr0 Hsm].
    destruct (restored_displacement Hfree d ths d' Hc Hn H Hex t1 Hin1 Hd1 Hr0 Hsm)
      as (Hlen & Hcomp & _).
    rewrite Hi, Hj, Htl in Hlen. rewrite Hi, Hj, Htl, Hrc in Hcomp.
    apply (settled_multiplier Hfree d' ths2 d2 Hc Hn H2 Hex2 t2 Hin2 Hd2).
    - rewrite <- Htl. exact Hr0.
    - rewrite <- Hlen. symmetry. apply sqrt_sqrt.
      unfold dot3. nra.
    - rewrite Hcomp. apply sqrt_lt_R0. rewrite Hi, Hj, Htl, Hrc in Hsm. lra. }
  unfold lincsKernel. rewrite H2. cbn [option_map snd]. f_equal.
  apply DeviceBuffers_ext.
  - exact Hro2.
  - apply HA2. exact Hc.
  - apply (nth_ext _ _ 0 0); [exact Lxp2|]. intros n _.
    rewrite Hx2, (totalCorrection_idle ths2 n Hidle). ring.
  - destruct (Bool.bool_dec updateVelocities true) as [Eu|Eu].
    + apply (nth_ext _ _ 0 0); [exact Lv2|]. intros n _.
      rewrite (Hvel2 Eu), (totalCorrection_idle ths2 n Hidle). ring.
    + apply HkV2. apply Bool.not_true_is_false. exact Eu.
  - destruct (Bool.bool_dec computeVirial true) as [Eu|Eu].
    + destruct (Hvir Eu) as (_ & Hpow & H6).
      apply (nth_ext _ _ 0 0); [exact Lvir2|]. intros n _.
      rewrite (lincsKernelTrace_virial r d' ths2 d2 Eu Hpow H6 H2 n).
      rewrite (virialSum_idle ths2 n Hidle). destruct (n <? 6)%nat; ring.
    + apply HkVir2. apply Bool.not_true_is_false. exact Eu.
Qed.
End Twice.

(** ** The coupling matrix *)

Lemma forLoop_upto {St : Type} (Inv : nat -> St -> Prop) (body : Z -> St -> option St) :
  (forall j s s', Inv j s -> body (Z.of_nat j) s = Some s' -> Inv (S j) s') ->
  forall count j s s',
    Inv j s -> forLoop body count (Z.of_nat j) s = Some s' -> Inv (j + count)%nat s'.
Proof.
  intros Hbody. induction count as [|count IH]; intros j s s' HI H.
  - simpl in H. injection H as <-. rewrite Nat.add_0_r. exact HI.
  - simpl in H. monad_inv H. rewrite Nat.add_succ_r.
    replace (Z.of_nat j + 1)%Z with (Z.of_nat (S j)) in H by lia.
    apply (IH (S j) _ _ (Hbody _ _ _ HI E) H).
Qed.

(** The direction of a work-item is in [sm_r] at its index; the other
    elements stay. *)
Lemma collectData_sm_r tIndex tInBlock m c v m' :
  collectData tIndex tInBlock m = Some ((c, v), m') ->
  nth (Z.to_nat tIndex) (sm_r (loc m')) zero3 = rc c
  /\ (0 <= tIndex < Z.of_nat (length (sm_r (loc m))))%Z
  /\ forall k, (0 <= k)%Z -> k <> tIndex ->
       nth (Z.to_nat k) (sm_r (loc m')) zero3 = nth (Z.to_nat k) (sm_r (loc m)) zero3.
Proof.
  unfold collectData. intros H. monad_inv H. subst t t0 m'. cbn [loc set_sm_r sm_r].
  apply store_Some in E1 as [Hr ->]. split; [|split; [exact Hr|]].
  - rewrite nth_update, Nat.eqb_refl.
    replace (Z.to_nat tIndex <? length (sm_r (loc m)))%nat with true
      by (symmetry; apply Nat.ltb_lt; lia).
    reflexivity.
  - intros k Hk Hne. rewrite nth_update.
    replace (Z.to_nat k =? Z.to_nat tIndex)%nat with false
      by (symmetry; apply Nat.eqb_neq; lia).
    reflexivity.
Qed.

Lemma collectAll_sm_r ids : forall m ths m',
  collectAll ids m = Some (ths, m') -> NoDup (map fst ids) ->
  Forall (fun t : Thread =>
            nth (Z.to_nat (threadIndex (fst t))) (sm_r (loc m')) zero3 = rc (fst t)) ths
  /\ forall k, (0 <= k)%Z -> ~ In k (map fst ids) ->
       nth (Z.to_nat k) (sm_r (loc m')) zero3 = nth (Z.to_nat k) (sm_r (loc m)) zero3.
Proof.
  induction ids as [|[ti tb] rest IH]; intros m ths m' H Hnd.
  - simpl in H. injection H as <- <-. split; [constructor | reflexivity].
  - simpl in H. monad_inv H. destruct t as [c v]. subst ths m'.
    inversion Hnd as [|? ? Hnotin Hnd']; subst. cbn [map fst] in Hnotin.
    pose proof (collectData_spec _ _ _ _ _ _ E) as (_ & Hidx & _).
    destruct (collectData_sm_r _ _ _ _ _ _ E) as (Hown & Hr & Hother).
    destruct (IH _ _ _ E0 Hnd') as [Hrest Hframe].
    split.
    + constructor; [|exact Hrest]. cbn [fst]. rewrite Hidx.
      rewrite (Hframe ti ltac:(lia) Hnotin). exact Hown.
    + intros k Hk Hnot. cbn [map fst] in Hnot.
      rewrite (Hframe k Hk) by (intros Hin; apply Hnot; right; exact Hin).
      apply (Hother k Hk).
      intros ->. apply Hnot. left. reflexivity.
Qed.

(** Lines 239-247: the entries of the row of a work-item hold the mass factor
    times the product of its direction with the direction, in [sm_r], of the
    coupled constraint; the other elements of [a_matrixA] stay. *)
Lemma constructMatrixA_entries c count m m' :
  constructMatrixA c count m = Some m' ->
  (0 < numConstraintsThreads)%Z -> (0 <= threadIndex c)%Z ->
  (forall n, (0 <= n < count)%Z ->
     let index := Z.to_nat (n * numConstraintsThreads + threadIndex c) in
     nth index (a_matrixA (dev m')) 0
     = nth index (a_massFactors (dev m)) 0
       * dot3 (rc c)
           (nth (Z.to_nat (nth index (a_coupledConstraintsIndices (dev m)) 0%Z))
              (sm_r (loc m)) zero3))
  /\ (forall k, (0 <= k)%Z ->
        (forall n, (0 <= n < count)%Z -> k <> (n * numConstraintsThreads + threadIndex c)%Z) ->
        nth (Z.to_nat k) (a_matrixA (dev m')) 0 = nth (Z.to_nat k) (a_matrixA (dev m)) 0).
Proof.
  unfold constructMatrixA, forRange. intros H HN Hti.
  set (idx := fun n : nat => (Z.of_nat n * numConstraintsThreads + threadIndex c)%Z).
  apply (forLoop_upto
           (fun j s =>
              loc s = loc m
              /\ a_massFactors (dev s) = a_massFactors (dev m)
              /\ a_coupledConstraintsIndices (dev s) = a_coupledConstraintsIndices (dev m)
              /\ (forall n, (n < j)%nat ->
                    nth (Z.to_nat (idx n)) (a_matrixA (dev s)) 0
                    = nth (Z.to_nat (idx n)) (a_massFactors (dev m)) 0
                      * dot3 (rc c)
                          (nth (Z.to_nat (nth (Z.to_nat (idx n))
                                            (a_coupledConstraintsIndices (dev m)) 0%Z))
                             (sm_r (loc m)) zero3))
              /\ (forall k, (0 <= k)%Z -> (forall n, (n < j)%nat -> k <> idx n) ->
                    nth (Z.to_nat k) (a_matrixA (dev s)) 0
                    = nth (Z.to_nat k) (a_matrixA (dev m)) 0))
           _ ) with (j := 0%nat) in H.
  - destruct H as (_ & _ & _ & Hent & Hframe). rewrite Nat.add_0_l in Hent, Hframe.
    split.
    + intros n Hn. cbv zeta.
      replace (n * numConstraintsThreads + threadIndex c)%Z with (idx (Z.to_nat n))
        by (unfold idx; lia).
      apply Hent. lia.
    + intros k Hk Hne. apply (Hframe k Hk). intros n Hn. unfold idx. apply Hne. lia.
  - clear H. intros j s s' (HL & Hmf & Hci & Hent & Hframe) Hb.
    monad_inv Hb. subst s'. cbn [loc dev set_dev set_matrixA a_massFactors
                                   a_coupledConstraintsIndices a_matrixA].
    fold (idx j) in E, E1, E2.
    apply store_Some in E2 as [Hr ->].
    apply load_Some in E as [_ Hc1], E0 as [_ Hrc1], E1 as [_ Hm].
    split; [exact HL|]. split; [exact Hmf|]. split; [exact Hci|]. split.
    + intros n Hn. rewrite nth_update.
      destruct (Nat.eq_dec n j) as [->|Hne].
      * rewrite Nat.eqb_refl.
        replace (Z.to_nat (idx j) <? length (a_matrixA (dev s)))%nat with true
          by (symmetry; apply Nat.ltb_lt; lia).
        cbn [andb]. rewrite <- Hmf, <- Hci, <- HL, (Hm 0), (Hc1 0%Z), (Hrc1 zero3).
        unfold dot3. reflexivity.
      * replace (Z.to_nat (idx n) =? Z.to_nat (idx j))%nat with false
          by (symmetry; apply Nat.eqb_neq; unfold idx; nia).
        cbn [andb]. apply Hent. lia.
    + intros k Hk Hne. rewrite nth_update.
      replace (Z.to_nat k =? Z.to_nat (idx j))%nat with false
        by (symmetry; apply Nat.eqb_neq; specialize (Hne j ltac:(lia)); unfold idx in *; lia).
      cbn [andb]. apply Hframe; [exact Hk|]. intros n Hn. apply Hne. lia.
  - repeat split; auto; intros n Hn; lia.
Qed.

Lemma constructMatrixA_ok d numAtoms c count m :
  rowsWritable d numAtoms m -> couplingReady d (threadIndex c) ->
  load (a_coupledConstraintsCounts (dev m)) (threadIndex c) = Some count ->
  exists m', constructMatrixA c count m = Some m' /\ rowsWritable d numAtoms m'.
Proof.
  intros Hw Hready Hcount. unfold constructMatrixA, forRange.
  assert (Hcounts : a_coupledConstraintsCounts (dev m) = a_coupledConstraintsCounts d)
    by apply Hw.
  unfold couplingReady in Hready. rewrite <- Hcounts, Hcount in Hready.
  destruct (forLoop_steps_below (fun _ s => rowsWritable d numAtoms s)
              (fun n m =>
                 let index := (n * numConstraintsThreads + threadIndex c)%Z in
                 c1 <- load (a_coupledConstraintsIndices (dev m)) index ;;
                 rc1 <- load (sm_r (loc m)) c1 ;;
                 mf <- load (a_massFactors (dev m)) index ;;
                 a <- store (a_matrixA (dev m)) index
                        (mf * ((rc c).[XX] * rc1.[XX] + (rc c).[YY] * rc1.[YY]
                               + (rc c).[ZZ] * rc1.[ZZ])) ;;
                 Some (set_dev m (set_matrixA (dev m) a)))
              (Z.to_nat (count - 0))) with (count := Z.to_nat (count - 0)) (j := 0%nat) (s := m)
    as (m' & E & Hw'); [| lia | exact Hw |].
  - intros j s Hj (Hro & HA & Hxp & Hr & Hrhs). cbv zeta.
    destruct (Hready (Z.of_nat j) ltac:(lia)) as (Hmf & Hma & c1 & Hc1 & Hin).
    destruct Hro as (R1 & R2 & R3 & R4 & R5 & R6 & R7).
    rewrite R4, Hc1. cbn [bind].
    pose proof (load_Some _ _ _ Hc1) as [Hidx _].
    destruct (load_ok (sm_r (loc s)) c1) as (rc1 & ->); [lia|]. cbn [bind].
    destruct (load_ok (a_massFactors (dev s)) (Z.of_nat j * numConstraintsThreads
                                               + threadIndex c)) as (mf & ->);
      [rewrite R5; lia|]. cbn [bind].
    destruct (store_ok (a_matrixA (dev s))
                (Z.of_nat j * numConstraintsThreads + threadIndex c)
                (mf * ((rc c).[XX] * rc1.[XX] + (rc c).[YY] * rc1.[YY]
                       + (rc c).[ZZ] * rc1.[ZZ]))) as (a & -> & Ha); [lia|].
    cbn [bind]. eexists. split; [reflexivity|].
    unfold rowsWritable, readOnlyKept. destruct s as [ls ds], ds. cbn in *.
    repeat split; auto. congruence.
  - exists m'. split; [exact E | exact Hw'].
Qed.

Lemma projectionStep_coupled_ok d numAtoms c v m :
  haveCoupledConstraints = true ->
  rowsWritable d numAtoms m -> inside numAtoms c -> couplingReady d (threadIndex c) ->
  exists v' m', projectionStep c v m = Some (v', m') /\ rowsWritable d numAtoms m'.
Proof.
  intros Hc Hw [Htib Hin] Hready. unfold projectionStep. rewrite Hc.
  assert (Hcounts : a_coupledConstraintsCounts (dev m) = a_coupledConstraintsCounts d)
    by apply Hw.
  pose proof Hready as Hready'. unfold couplingReady in Hready'.
  rewrite <- Hcounts in Hready'.
  destruct (load (a_coupledConstraintsCounts (dev m)) (threadIndex c)) as [count|] eqn:Ecount;
    [|contradiction].
  cbn [bind].
  destruct (constructMatrixA_ok d numAtoms c count m Hw Hready Ecount) as (m1 & -> & Hw1).
  cbn [bind]. cbv beta iota.
  assert (Hends : exists p, loadEndPoints c v m1 = Some p).
  { unfold loadEndPoints. destruct (isDummyThread c); [eexists; reflexivity|].
    destruct (Hin eq_refl) as [Hi Hj]. destruct Hw1 as (_ & _ & Hxp & _).
    destruct (loadAtom_ok (a_xp (dev m1)) (atom_i c)) as (pi & ->);
      [lia | unfold DIM; lia|].
    destruct (loadAtom_ok (a_xp (dev m1)) (atom_j c)) as (pj & ->);
      [lia | unfold DIM; lia|].
    cbn [bind]. eexists. reflexivity. }
  destruct Hends as ([pi pj] & ->). cbn [bind]. cbv beta iota.
  destruct (store_ok (sm_rhs (loc m1)) (threadInBlock c)
              (sqrtReducedMass c
               * ((rc c).[XX] * (pbcDxAiucSycl pbcAiuc pi pj).[XX]
                  + (rc c).[YY] * (pbcDxAiucSycl pbcAiuc pi pj).[YY]
                  + (rc c).[ZZ] * (pbcDxAiucSycl pbcAiuc pi pj).[ZZ] - targetLength c)))
    as (rhs & -> & HL).
  { destruct Hw1 as (_ & _ & _ & _ & Hrhs). lia. }
  cbn [bind]. do 2 eexists. split; [reflexivity|].
  destruct Hw1 as (Hro & HA & Hxp & Hr & Hrhs).
  unfold rowsWritable. cbn [dev loc set_sm_rhs sm_r sm_rhs]. repeat split; try apply Hro; auto.
  congruence.
Qed.

Lemma projectionStep_row c v m v' m' :
  haveCoupledConstraints = true -> projectionStep c v m = Some (v', m') ->
  (0 < numConstraintsThreads)%Z -> (0 <= threadIndex c)%Z ->
  exists count,
    load (a_coupledConstraintsCounts (dev m)) (threadIndex c) = Some count
    /\ (forall n, (0 <= n < count)%Z ->
          nth (Z.to_nat (n * numConstraintsThreads + threadIndex c)) (a_matrixA (dev m')) 0
          = matrixEntry (dev m) (sm_r (loc m)) c n)
    /\ (forall k, (0 <= k)%Z ->
          (forall n, (0 <= n < count)%Z ->
                     k <> (n * numConstraintsThreads + threadIndex c)%Z) ->
          nth (Z.to_nat k) (a_matrixA (dev m')) 0 = nth (Z.to_nat k) (a_matrixA (dev m)) 0).
Proof.
  intros Hc H HN Hti. unfold projectionStep in H. rewrite Hc in H.
  monad_inv H. subst v' m'. monad_inv E. subst.
  eexists. split; [reflexivity|].
  cbn [dev set_sm_rhs].
  match goal with
  | Hm : constructMatrixA _ _ _ = Some _ |- _ =>
      exact (constructMatrixA_entries _ _ _ _ Hm HN Hti)
  end.
Qed.

Lemma projection_rows ths : forall m ths' m',
  haveCoupledConstraints = true -> (0 < numConstraintsThreads)%Z ->
  forThreads projectionStep ths m = Some (ths', m') ->
  NoDup (map (fun t : Thread => threadIndex (fst t)) ths) ->
  Forall (fun t : Thread => (0 <= threadIndex (fst t) < numConstraintsThreads)%Z) ths ->
  (forall t count n,
      In t ths ->
      load (a_coupledConstraintsCounts (dev m)) (threadIndex (fst t)) = Some count ->
      (0 <= n < count)%Z ->
      nth (Z.to_nat (n * numConstraintsThreads + threadIndex (fst t))) (a_matrixA (dev m')) 0
      = matrixEntry (dev m) (sm_r (loc m)) (fst t) n)
  /\ (forall k, (0 <= k)%Z ->
        (forall t n, In t ths -> (0 <= n)%Z ->
                     k <> (n * numConstraintsThreads + threadIndex (fst t))%Z) ->
        nth (Z.to_nat k) (a_matrixA (dev m')) 0 = nth (Z.to_nat k) (a_matrixA (dev m)) 0).
Proof.
  induction ths as [|[c v] rest IH]; intros m ths' m' Hc HN H Hnd Hrange.
  - simpl in H. injection H as <- <-. split; [intros t count n []|reflexivity].
  - simpl in H. monad_inv H. subst ths' m'.
    inversion Hnd as [|? ? Hnotin Hnd']; subst.
    inversion Hrange as [|? ? Hti Hrange']; subst. cbn [fst] in Hti.
    pose proof (projectionStep_spec _ _ _ _ _ E) as (_ & Hk & Hr & _).
    destruct Hk as ((_ & _ & R3 & R4 & R5 & _) & _).
    destruct (projectionStep_row _ _ _ _ _ Hc E HN ltac:(lia)) as (count0 & Hcount0 & Hent0 & Hfr0).
    destruct (IH _ _ _ Hc HN E0 Hnd' Hrange') as [Hent Hfr].
    assert (Hapart : forall t' n n', In t' rest -> (0 <= n)%Z -> (0 <= n')%Z ->
                       (n * numConstraintsThreads + threadIndex c)%Z
                       <> (n' * numConstraintsThreads + threadIndex (fst t'))%Z).
    { intros t' n n' Hin Hn Hn' Heq.
      rewrite Forall_forall in Hrange'. specialize (Hrange' _ Hin).
      assert (n = n') by nia. subst n'.
      apply Hnotin. apply in_map_iff. exists t'. split; [lia | exact Hin]. }
    split.
    + intros u count n [<-|Hin] Hcount Hn.
      * cbn [fst] in *. rewrite Hcount0 in Hcount. injection Hcount as <-.
        rewrite Hfr; [apply Hent0; exact Hn | lia |].
        intros t' n' Hin' Hn'. apply Hapart; [exact Hin' | lia | exact Hn'].
      * rewrite <- R3 in Hcount. rewrite (Hent u count n Hin Hcount Hn).
        unfold matrixEntry. rewrite R4, R5, Hr. reflexivity.
    + intros k Hk Hne. rewrite Hfr.
      * apply Hfr0; [exact Hk|]. intros n Hn. apply (Hne (c, v)); [left; reflexivity | lia].
      * exact Hk.
      * intros u n Hin Hn. apply Hne; [right; exact Hin | exact Hn].
Qed.

Lemma dot3_bound (a b : Float3) :
  dot3 a a <= 1 -> dot3 b b <= 1 -> Rabs (dot3 a b) <= 1.
Proof.
  destruct a as [ax ay az], b as [bx by' bz]. unfold dot3. cbn [comp f3x f3y f3z].
  intros Ha Hb. apply Rabs_le.
  pose proof (pow2_ge_0 (ax * by' - ay * bx)) as H1.
  pose proof (pow2_ge_0 (ax * bz - az * bx)) as H2.
  pose proof (pow2_ge_0 (ay * bz - az * by')) as H3.
  assert (Hcs : (ax * bx + ay * by' + az * bz) * (ax * bx + ay * by' + az * bz)
                <= (ax * ax + ay * ay + az * az) * (bx * bx + by' * by' + bz * bz))
    by nra.
  assert (Hone : (ax * ax + ay * ay + az * az) * (bx * bx + by' * by' + bz * bz) <= 1)
    by nra.
  split; nra.
Qed.

Lemma describes_bound d c : describes d c -> dot3 (rc c) (rc c) <= 1.
Proof.
  intros Hdesc. destruct (isDummyThread c) eqn:Hd.
  - destruct Hdesc as (_ & _ & Hwf & _). destruct (Hwf Hd) as (_ & _ & _ & _ & _ & ->).
    unfold dot3, zero3. cbn [comp f3x f3y f3z]. lra.
  - destruct (describes_normalized d c Hdesc Hd) as (_ & _ & _ & _ & _ & ->). lra.
Qed.

Lemma NoDup_map_injective {A B : Type} (f : A -> B) (l : list A) :
  (forall a b, f a = f b -> a = b) -> NoDup l -> NoDup (map f l).
Proof.
  intros Hf. induction 1 as [|x l Hx _ IH]; simpl; constructor; [|exact IH].
  intros Hin. apply in_map_iff in Hin as (y & Hy & Hin). apply Hf in Hy. subst y.
  exact (Hx Hin).
Qed.

Lemma workItems_indices :
  NoDup (map fst (workItems 0))
  /\ forall id, In id (workItems 0) ->
       (0 <= fst id < c_threadsPerBlock)%Z /\ snd id = fst id.
Proof.
  unfold workItems. split.
  - rewrite map_map. cbn [fst]. apply NoDup_map_injective; [|apply seq_NoDup].
    intros a b Hab. lia.
  - intros id Hin. apply in_map_iff in Hin as (t & <- & Ht). apply in_seq in Ht.
    cbn [fst snd]. lia.
Qed.

(** X12.  With coupled constraints, when the entries of the constraints of
    the first work-group can be collected and their rows of the coupling
    matrix are inside the buffers, the collection and the projection (lines
    174-271) have a result, and every entry of every row of [a_matrixA] then
    holds the mass factor times the product of the direction of the constraint
    with the direction of the coupled constraint: no work-item writes in the row
    of another.  The directions have length one (zero for a dummy), so that
    the entry is at most the mass factor in absolute value. *)
Theorem projection_builds_matrix d :
  haveCoupledConstraints = true ->
  (0 < c_threadsPerBlock)%Z -> (c_threadsPerBlock <= numConstraintsThreads)%Z ->
  Forall (fun id => constraintReady d (fst id) /\ couplingReady d (fst id)) (workItems 0) ->
  length (a_xp d) = (3 * length (a_x d))%nat ->
  exists ths m ths' m',
    collectAll (workItems 0) (mkMemory localAccessors d) = Some (ths, m)
    /\ forThreads projectionStep ths m = Some (ths', m')
    /\ Forall (fun t : Thread => describes d (fst t)) ths
    /\ forall t count n,
         In t ths ->
         load (a_coupledConstraintsCounts d) (threadIndex (fst t)) = Some count ->
         (0 <= n < count)%Z ->
         let index := (n * numConstraintsThreads + threadIndex (fst t))%Z in
         exists c1 t1 mf,
           load (a_coupledConstraintsIndices d) index = Some c1
           /\ In t1 ths /\ threadIndex (fst t1) = c1
           /\ load (a_massFactors d) index = Some mf
           /\ load (a_matrixA (dev m')) index
              = Some (mf * dot3 (rc (fst t)) (rc (fst t1)))
           /\ Rabs (mf * dot3 (rc (fst t)) (rc (fst t1))) <= Rabs mf.
Proof.
  intros Hc HT HN Hready Hxp.
  destruct workItems_indices as [Hnd Hitems].
  destruct (collectAll_ok (workItems 0) (mkMemory localAccessors d)) as (ths & m & E0).
  { apply Forall_forall. intros id Hin. rewrite Forall_forall in Hready.
    cbn [dev loc]. split; [apply (Hready id Hin)|].
    unfold localAccessors. cbn [sm_r]. rewrite repeat_length.
    destruct (Hitems id Hin) as [Hid _]. lia. }
  pose proof (collectAll_spec _ _ _ _ E0) as (Hd0 & Hids & _ & Hdesc & Hr & Hrhs & _).
  cbn [dev loc] in Hd0, Hdesc, Hr, Hrhs.
  destruct (collectAll_sm_r _ _ _ _ E0 Hnd) as [Hsm _].
  assert (Hid : forall t, In t ths -> In (idOf t) (workItems 0))
    by (intros t Hin; rewrite <- Hids; apply in_map; exact Hin).
  assert (Hw : rowsWritable d (length (a_x d)) m).
  { unfold rowsWritable, readOnlyKept. rewrite Hd0, Hr, Hrhs.
    unfold localAccessors. cbn [sm_r sm_rhs]. rewrite !repeat_length.
    repeat split; auto. }
  assert (HP : Forall (fun t : Thread =>
                         inside (length (a_x d)) (fst t)
                         /\ couplingReady d (threadIndex (fst t))) ths).
  { apply Forall_forall. intros t Hin.
    destruct (Hitems _ (Hid t Hin)) as [Hrange Htib]. unfold idOf in Hrange, Htib.
    cbn [fst snd] in Hrange, Htib.
    rewrite Forall_forall in Hdesc, Hready. split; [split|].
    - lia.
    - intros Hdum. destruct (Hdesc t Hin) as (_ & _ & _ & Hreal).
      destruct (Hreal Hdum) as (_ & _ & _ & _ & pi & pj & rlen & Hi & Hj & _).
      apply load_Some in Hi as [Hi _], Hj as [Hj _]. lia.
    - apply (Hready (idOf t) (Hid t Hin)). }
  destruct (forThreads_ok (rowsWritable d (length (a_x d)))
              (fun c => inside (length (a_x d)) c /\ couplingReady d (threadIndex c))
              projectionStep) with (ths := ths) (m := m)
    as (ths' & m' & E1 & Hw' & _); [|exact HP | exact Hw|].
  { intros c v m0 [Hin Hcr] Hw0.
    exact (projectionStep_coupled_ok d (length (a_x d)) c v m0 Hc Hw0 Hin Hcr). }
  exists ths, m, ths', m'.
  split; [exact E0|]. split; [exact E1|]. split; [exact Hdesc|].
  destruct (projection_rows ths m ths' m' Hc ltac:(lia) E1) as [Hent _].
  { replace (map (fun t : Thread => threadIndex (fst t)) ths) with (map fst (map idOf ths))
      by (rewrite map_map; reflexivity).
    rewrite Hids. exact Hnd. }
  { apply Forall_forall. intros t Hin. destruct (Hitems _ (Hid t Hin)) as [Hrange _].
    unfold idOf in Hrange. cbn [fst] in Hrange. lia. }
  intros t count n Hin Hcount Hn. cbv zeta.
  rewrite Forall_forall in HP, Hsm, Hdesc.
  destruct (HP t Hin) as [_ Hcr]. unfold couplingReady in Hcr. rewrite Hcount in Hcr.
  destruct (Hcr n Hn) as (Hmf & Hma & c1 & Hc1 & Hc1r).
  pose proof (load_Some _ _ _ Hc1) as [Hidx Hc1n].
  assert (Hin1 : In (c1, c1) (workItems 0)).
  { unfold workItems. apply in_map_iff. exists (Z.to_nat c1).
    split; [f_equal; lia | apply in_seq; lia]. }
  rewrite <- Hids in Hin1. apply in_map_iff in Hin1 as (t1 & Hid1 & Hin1).
  unfold idOf in Hid1. injection Hid1 as Hid1 _.
  destruct (load_ok (a_massFactors d) (n * numConstraintsThreads + threadIndex (fst t)))
    as (mf & Hmfl); [lia|].
  pose proof (load_Some _ _ _ Hmfl) as [_ Hmfn].
  exists c1, t1, mf.
  split; [exact Hc1|]. split; [exact Hin1|]. split; [exact Hid1|]. split; [exact Hmfl|].
  split.
  - rewrite (load_inRange _ _ 0).
    + rewrite (Hent t count n Hin) by (rewrite ?Hd0; assumption).
      unfold matrixEntry. rewrite Hd0, (Hmfn 0), (Hc1n 0%Z), <- Hid1, (Hsm t1 Hin1).
      reflexivity.
    + destruct Hw' as (_ & HA & _). rewrite HA. lia.
  - rewrite Rabs_mult. rewrite <- (Rmult_1_r (Rabs mf)) at 2.
    apply Rmult_le_compat_l; [apply Rabs_pos|].
    apply dot3_bound; apply (describes_bound d); apply Hdesc; assumption.
Qed.

(** ** The result of a launch, read off its buffers *)

Lemma entries_workItems :
  numConstraintsThreads = c_threadsPerBlock -> map fst (workItems 0) = entries.
Proof.
  intros H. unfold workItems, entries. rewrite H, map_map. apply map_ext.
  intros t. cbn [fst]. lia.
Qed.

Lemma in_entries k : In k entries <-> (0 <= k < numConstraintsThreads)%Z.
Proof.
  unfold entries. rewrite in_map_iff. split.
  - intros (t & <- & Ht). apply in_seq in Ht. lia.
  - intros Hk. exists (Z.to_nat k). split; [lia | apply in_seq; lia].
Qed.

Lemma describes_constAt d c k :
  describes d c -> threadIndex c = k -> threadInBlock c = k -> c = constAt d k.
Proof.
  intros (Hp & Hdum & Hwf & Hreal) Hidx Htib.
  unfold wfConst in Hwf.
  destruct c as [ti tb i j dum tl imi imj srm r]. cbn [threadIndex threadInBlock atom_i
    atom_j isDummyThread targetLength inverseMassi inverseMassj sqrtReducedMass rc] in *.
  subst ti tb. apply load_Some in Hp as [_ Hp].
  unfold constAt. rewrite (Hp (mkAtomPair (-1) (-1))). cbn [pair_i pair_j].
  destruct (i =? -1)%Z eqn:Hi.
  - subst dum. destruct (Hwf eq_refl) as (_ & -> & -> & -> & -> & ->). reflexivity.
  - subst dum.
    destruct (Hreal eq_refl)
      as (Htl & Hwi & Hwj & Hs & pi & pj & rlen & Hpi & Hpj & Hr & ->).
    apply load_Some in Htl as [_ Htl], Hwi as [_ Hwi], Hwj as [_ Hwj],
                       Hpi as [_ Hpi], Hpj as [_ Hpj].
    apply rsqrt_Some in Hs as [_ ->], Hr as [_ ->].
    rewrite (Htl 0), (Hwi 0), (Hwj 0), (Hpi zero3), (Hpj zero3). reflexivity.
Qed.

Lemma constAt_index d k : threadIndex (constAt d k) = k.
Proof. unfold constAt. destruct (_ =? _)%Z; reflexivity. Qed.

(** The work-items of a launch are those of the entries, one each and in
    their order, with the multipliers of the closed form. *)
Lemma launch_closed_form d :
  haveCoupledConstraints = false -> (0 < c_threadsPerBlock)%Z ->
  numConstraintsThreads = c_threadsPerBlock ->
  Forall (fun k => constraintReady d k) entries ->
  length (a_xp d) = (3 * length (a_x d))%nat ->
  (updateVelocities = true -> length (a_v d) = (3 * length (a_x d))%nat) ->
  (computeVirial = true -> (6 <= length (a_virialScaled d))%nat) ->
  exclusiveAt d ->
  exists ths d',
    lincsKernelTrace d = Some (ths, d')
    /\ exclusive ths
    /\ map fst ths = map (constAt d) entries
    /\ Forall (fun t : Thread =>
                 lagrangeScaled (snd t) = multiplierAt d (threadIndex (fst t))) ths.
Proof.
  intros Hc HT HN Hready Hxp Hv Hvir Hex.
  pose proof (entries_workItems HN) as Hent.
  destruct (lincsKernelTrace_returns d Hc HT HN) as (ths & d' & H & Hat); auto.
  { rewrite Forall_forall in *. intros id Hin. apply Hready. rewrite <- Hent.
    apply in_map. exact Hin. }
  exists ths, d'. split; [exact H|].
  assert (Hexc : exclusive ths).
  { unfold exclusive. rewrite Hat, Hent. exact Hex. }
  split; [exact Hexc|].
  destruct (trace_one_group d ths d' H ltac:(lia)) as [_ Hw].
  pose proof (lincsKernelTrace_onTrack d ths d' Hc H Hexc) as Htrack.
  pose proof (lincsKernelTrace_spec _ _ _ H) as (Hdesc & Hwf & _).
  apply workGroup_spec in Hw as [Hids _].
  assert (Hconst : forall t, In t ths -> fst t = constAt d (threadIndex (fst t))).
  { intros t Hin. rewrite Forall_forall in Hdesc.
    apply describes_constAt; [apply Hdesc; exact Hin | reflexivity|].
    pose proof (in_map idOf _ _ Hin) as Hid. rewrite Hids in Hid.
    unfold workItems in Hid. apply in_map_iff in Hid as (p & Hid & _).
    unfold idOf in Hid. injection Hid as H1 H2. lia. }
  split.
  - rewrite <- Hent, <- Hids, !map_map. apply map_ext_in.
    intros t Hin. unfold idOf. cbn [fst]. apply Hconst. exact Hin.
  - apply Forall_forall. intros t Hin.
    rewrite Forall_forall in Htrack, Hwf. unfold multiplierAt.
    rewrite <- (Hconst t Hin).
    destruct (isDummyThread (fst t)) eqn:Hd.
    + apply (Hwf t Hin). exact Hd.
    + apply (Htrack t Hin). exact Hd.
Qed.

Lemma totalCorrection_entries d n ths : forall ks,
  map fst ths = map (constAt d) ks ->
  Forall (fun t : Thread =>
            lagrangeScaled (snd t) = multiplierAt d (threadIndex (fst t))) ths ->
  totalCorrection ths n
  = fold_right Rplus 0
      (map (fun k => multiplierAt d k * unitCorrection (constAt d k) n) ks).
Proof.
  induction ths as [|[c v] rest IH]; intros [|k ks] Hm Hl; try discriminate Hm.
  - reflexivity.
  - cbn [map fst] in Hm. injection Hm as Hc Hm.
    inversion Hl as [|? ? Hv Hl']; subst. cbn [fst snd] in Hv.
    cbn [totalCorrection map fold_right]. rewrite (IH ks Hm Hl'), Hv, constAt_index.
    reflexivity.
Qed.

Lemma virialSum_entries d n ths : forall ks,
  map fst ths = map (constAt d) ks ->
  Forall (fun t : Thread =>
            lagrangeScaled (snd t) = multiplierAt d (threadIndex (fst t))) ths ->
  virialSum ths n
  = fold_right Rplus 0
      (map (fun c => targetLength (constAt d c) * multiplierAt d c
                     * (rc (constAt d c)).[fst (virialComponent n)]
                     * (rc (constAt d c)).[snd (virialComponent n)]) ks).
Proof.
  induction ths as [|[c v] rest IH]; intros [|k ks] Hm Hl; try discriminate Hm.
  - reflexivity.
  - cbn [map fst] in Hm. injection Hm as Hc Hm.
    inversion Hl as [|? ? Hv Hl']; subst. cbn [fst snd] in Hv.
    cbn [virialSum map fold_right]. rewrite (IH ks Hm Hl'). unfold threadVirial.
    cbn [fst snd]. rewrite Hv, constAt_index. reflexivity.
Qed.

(** ** What a launch without coupled constraints gives *)

Lemma entry_thread d ths k :
  map fst ths = map (constAt d) entries -> (0 <= k < numConstraintsThreads)%Z ->
  exists t : Thread, In t ths /\ fst t = constAt d k.
Proof.
  intros Hm Hk.
  assert (Hin : In (constAt d k) (map fst ths)).
  { rewrite Hm. apply in_map. apply in_entries. exact Hk. }
  apply in_map_iff in Hin as (t & Ht & Hin). exists t. split; assumption.
Qed.



(** X13.  In a launch of one work-group without coupled constraints that
    computes the virial (the work-group size a power of two of at least six),
    on buffers of the extents of the atoms where no atom is in two
    constraints, the kernel has a result, and each of the six components of
    [a_virialScaled] has grown by the sum over the entries of the constraints
    of [targetLength * lambda * rc[a] * rc[b]], with the target length, the
    direction and the multiplier of the entry as the buffers at the launch
    give them; the elements after the sixth are not written. *)
Theorem lincsKernel_virial_of_input (r : nat) d :
  computeVirial = true ->
  c_threadsPerBlock = (2 ^ Z.of_nat r)%Z -> (6 <= c_threadsPerBlock)%Z ->
  haveCoupledConstraints = false ->
  numConstraintsThreads = c_threadsPerBlock ->
  Forall (fun k => constraintReady d k) entries ->
  length (a_xp d) = (3 * length (a_x d))%nat ->
  (updateVelocities = true -> length (a_v d) = (3 * length (a_x d))%nat) ->
  (6 <= length (a_virialScaled d))%nat ->
  exclusiveAt d ->
  exists d',
    lincsKernel d = Some d'
    /\ length (a_virialScaled d') = length (a_virialScaled d)
    /\ (forall k, (k < 6)%nat ->
          nth k (a_virialScaled d') 0 = nth k (a_virialScaled d) 0 + virialOf d k)
    /\ (forall n, (6 <= n)%nat ->
          nth n (a_virialScaled d') 0 = nth n (a_virialScaled d) 0)
    /\ (forall k a b, virialComponent k = (a, b) ->
          virialOf d k
          = fold_right Rplus 0
              (map (fun c => targetLength (constAt d c) * multiplierAt d c
                             * (rc (constAt d c)).[a] * (rc (constAt d c)).[b])
                 entries)).
Proof.
  intros Hvir HT H6 Hc HN Hready Hxp Hv Hlen Hex.
  destruct (launch_closed_form d Hc ltac:(lia) HN Hready Hxp Hv (fun _ => Hlen) Hex)
    as (ths & d' & H & Hexc & Hm & Hl).
  pose proof (lincsKernelTrace_virial r d ths d' Hvir HT H6 H) as Hsum.
  pose proof (lincsKernelTrace_spec _ _ _ H) as (_ & _ & Hk & _).
  exists d'. split; [unfold lincsKernel; rewrite H; reflexivity|].
  split; [apply Hk|]. split; [|split].
  - intros k Hk6. rewrite Hsum.
    replace (k <? 6)%nat with true by (symmetry; apply Nat.ltb_lt; lia).
    unfold virialOf. rewrite (virialSum_entries d k ths entries Hm Hl). reflexivity.
  - intros n Hn. rewrite Hsum.
    replace (n <? 6)%nat with false by (symmetry; apply Nat.ltb_ge; lia). ring.
  - intros k a b Hab. unfold virialOf. rewrite Hab. reflexivity.
Qed.

(** X14.  In a launch of one work-group without coupled constraints, on
    buffers of the extents of the atoms where no atom is in two constraints,
    the kernel has a result, and for every entry of the constraints that is
    not a dummy the positions of its two atoms after the launch, and its
    multiplier, are those of the closed-form solution of the single pair with
    the same number of centripetal corrections; the atoms that are in no
    constraint stay where they are. *)
Theorem uncoupled_launch_is_naive d :
  haveCoupledConstraints = false -> (0 < c_threadsPerBlock)%Z ->
  numConstraintsThreads = c_threadsPerBlock ->
  Forall (fun k => constraintReady d k) entries ->
  length (a_xp d) = (3 * length (a_x d))%nat ->
  (updateVelocities = true -> length (a_v d) = (3 * length (a_x d))%nat) ->
  (computeVirial = true -> (6 <= length (a_virialScaled d))%nat) ->
  exclusiveAt d ->
  exists d',
    lincsKernel d = Some d'
    /\ (forall k i j,
          (0 <= k < numConstraintsThreads)%Z ->
          load (a_constraints d) k = Some (mkAtomPair i j) -> i <> (-1)%Z ->
          exists wi wj r0 x_i x_j,
            load (a_inverseMasses d) i = Some wi
            /\ load (a_inverseMasses d) j = Some wj
            /\ load (a_constraintsTargetLengths d) k = Some r0
            /\ load (a_x d) i = Some x_i
            /\ load (a_x d) j = Some x_j
            /\ naiveSinglePairSolve wi wj r0 x_i x_j
                 (atomAt (a_xp d) i, atomAt (a_xp d) j)
               = ((atomAt (a_xp d') i, atomAt (a_xp d') j), multiplierAt d k))
    /\ (forall a, (0 <= a)%Z -> ~ In a (concat (map (atomsAt d) entries)) ->
          atomAt (a_xp d') a = atomAt (a_xp d) a).
Proof.
  intros Hc HT HN Hready Hxp Hv Hvir Hex.
  destruct (launch_closed_form d Hc HT HN Hready Hxp Hv Hvir Hex)
    as (ths & d' & H & Hexc & Hm & Hl).
  pose proof (lincsKernelTrace_spec _ _ _ H) as (Hdesc & Hwf & _ & Hx & _).
  pose proof (placed_of_cells _ _ ths d Hx Hwf Hexc Hdesc) as Hplaced.
  exists d'. split; [unfold lincsKernel; rewrite H; reflexivity|]. split.
  - intros k i j Hk Hpair Hi.
    destruct (entry_thread d ths k Hm Hk) as ([c v] & Hin & Ht). cbn [fst] in Ht.
    rewrite Forall_forall in Hplaced, Hl, Hdesc.
    pose proof (Hl _ Hin) as Hlam. cbn [fst snd] in Hlam.
    rewrite Ht, constAt_index in Hlam.
    destruct (Hdesc _ Hin) as (Hp & Hdum & _ & Hreal). cbn [fst] in Hp, Hdum, Hreal.
    assert (Hidx : threadIndex c = k) by (rewrite Ht; apply constAt_index).
    rewrite Hidx, Hpair in Hp. injection Hp as Hci Hcj. subst i j.
    assert (Hd : isDummyThread c = false).
    { rewrite Hdum. apply Z.eqb_neq. exact Hi. }
    destruct (Hreal Hd)
      as (Hr0 & Hwi & Hwj & Hmu & x_i & x_j & rlen & Hxi & Hxj & Hrlen & Hrc).
    destruct (Hplaced _ Hin Hd) as [Hpi Hpj]. cbn [fst snd] in Hpi, Hpj.
    rewrite Hidx in Hr0.
    exists (inverseMassi c), (inverseMassj c), (targetLength c), x_i, x_j.
    repeat (split; [assumption|]).
    apply rsqrt_Some in Hmu as [_ Hmu], Hrlen as [_ Hrlen].
    unfold naiveSinglePairSolve.
    rewrite (naive_is_lamAfter (a_xp d) c _ _ _ x_i x_j (Z.to_nat numIterations));
      try reflexivity.
    + rewrite Hpi, Hpj, Hlam. unfold multiplierAt. rewrite <- Ht, Hd. reflexivity.
    + unfold reducedMass. rewrite sqrt_inv. exact Hmu.
    + rewrite Hrc, Hrlen. reflexivity.
  - intros a Ha Hnot.
    apply (atomAt_absent (a_xp d) (a_xp d') ths a Hx Hwf Ha).
    pose proof (trace_atoms d ths d' H) as Hat.
    destruct (trace_one_group d ths d' H ltac:(lia)) as [_ Hw].
    apply workGroup_spec in Hw as [Hids _].
    rewrite Hat, Hids. rewrite <- (entries_workItems HN), map_map in Hnot.
    exact Hnot.
Qed.

Lemma sum_filter (f : Z -> R) (p : Z -> bool) (l : list Z) :
  (forall k, p k = false -> f k = 0) ->
  fold_right Rplus 0 (map f l) = fold_right Rplus 0 (map f (filter p l)).
Proof.
  intros Hz. induction l as [|k l IH]; [reflexivity|].
  cbn [map fold_right filter]. destruct (p k) eqn:Hp.
  - cbn [map fold_right]. rewrite IH. reflexivity.
  - rewrite (Hz k Hp), IH. ring.
Qed.

Lemma multiplierAt_dummy d k : isDummyThread (constAt d k) = true -> multiplierAt d k = 0.
Proof. intros H. unfold multiplierAt. rewrite H. reflexivity. Qed.

(** X15.  In a launch of one work-group without coupled constraints, on
    buffers of the extents of the atoms where no atom is in two constraints,
    the dummy entries (atom index -1) add nothing: the positions, the
    velocities and the six components of the virial after the launch are
    those that the entries that are not dummies account for, whatever the
    place and the number of the dummies among the entries. *)
Theorem dummy_entries_add_nothing (r : nat) d :
  haveCoupledConstraints = false -> (0 < c_threadsPerBlock)%Z ->
  numConstraintsThreads = c_threadsPerBlock ->
  Forall (fun k => constraintReady d k) entries ->
  length (a_xp d) = (3 * length (a_x d))%nat ->
  (updateVelocities = true -> length (a_v d) = (3 * length (a_x d))%nat) ->
  (computeVirial = true ->
   (6 <= length (a_virialScaled d))%nat
   /\ c_threadsPerBlock = (2 ^ Z.of_nat r)%Z /\ (6 <= c_threadsPerBlock)%Z) ->
  exclusiveAt d ->
  exists d',
    lincsKernel d = Some d'
    /\ (forall n,
          nth n (a_xp d') 0
          = nth n (a_xp d) 0
            + fold_right Rplus 0
                (map (fun k => multiplierAt d k * unitCorrection (constAt d k) n)
                   (realEntries d)))
    /\ (updateVelocities = true ->
        forall n,
          nth n (a_v d') 0
          = nth n (a_v d) 0
            + invdt * fold_right Rplus 0
                        (map (fun k => multiplierAt d k * unitCorrection (constAt d k) n)
                           (realEntries d)))
    /\ (computeVirial = true ->
        forall k, (k < 6)%nat ->
          nth k (a_virialScaled d') 0
          = nth k (a_virialScaled d) 0
            + fold_right Rplus 0
                (map (fun c => targetLength (constAt d c) * multiplierAt d c
                               * (rc (constAt d c)).[fst (virialComponent k)]
                               * (rc (constAt d c)).[snd (virialComponent k)])
                   (realEntries d)))
    /\ (forall k j, (0 <= k < numConstraintsThreads)%Z ->
          load (a_constraints d) k = Some (mkAtomPair (-1) j) ->
          ~ In k (realEntries d)).
Proof.
  intros Hc HT HN Hready Hxp Hv Hvir Hex.
  destruct (launch_closed_form d Hc HT HN Hready Hxp Hv
              (fun Hu => proj1 (Hvir Hu)) Hex)
    as (ths & d' & H & Hexc & Hm & Hl).
  pose proof (lincsKernelTrace_spec _ _ _ H) as (_ & _ & _ & Hx & Hvel).
  exists d'. split; [unfold lincsKernel; rewrite H; reflexivity|].
  assert (Hmove : forall n,
             totalCorrection ths n
             = fold_right Rplus 0
                 (map (fun k => multiplierAt d k * unitCorrection (constAt d k) n)
                    (realEntries d))).
  { intros n. rewrite (totalCorrection_entries d n ths entries Hm Hl).
    unfold realEntries. apply sum_filter. intros k Hk.
    apply negb_false_iff in Hk. rewrite (multiplierAt_dummy d k Hk). ring. }
  split; [intros n; rewrite Hx, Hmove; reflexivity|].
  split; [intros Hu n; rewrite (Hvel Hu), Hmove; reflexivity|].
  split.
  - intros Hu k Hk6. destruct (Hvir Hu) as (_ & Hpow & H6).
    rewrite (lincsKernelTrace_virial r d ths d' Hu Hpow H6 H).
    replace (k <? 6)%nat with true by (symmetry; apply Nat.ltb_lt; lia).
    rewrite (virialSum_entries d k ths entries Hm Hl).
    unfold realEntries. f_equal. apply sum_filter. intros c Hcd.
    apply negb_false_iff in Hcd. rewrite (multiplierAt_dummy d c Hcd). ring.
  - intros k j Hk Hpair Hin. unfold realEntries in Hin.
    apply filter_In in Hin as [_ Hin]. apply negb_true_iff in Hin.
    apply load_Some in Hpair as [_ Hpair]. unfold constAt in Hin.
    rewrite (Hpair (mkAtomPair (-1) (-1))) in Hin. cbn in Hin. discriminate Hin.
Qed.

(** ** Launches with coupled constraints *)


End Kernel.

(** * The test system [two disjoint constraints], run

    One work-group of eight work-items, one centripetal correction, velocities
    and virial on, time step 0.001. *)

Local Abbreviation atTest f :=
  (f 8%Z true true false 8%Z 1%Z 4%Z 1000 unit noPbcDx tt) (only parsing).

Local Abbreviation atCoupledTest f :=
  (f 8%Z true true true 8%Z 1%Z 4%Z 1000 unit noPbcDx tt) (only parsing).

Lemma twoDisjointConstraints_ready :
  Forall (fun id => constraintReady unit noPbcDx tt twoDisjointConstraints (fst id))
         (workItems 8 0).
Proof.
  let l := eval vm_compute in (workItems 8 0) in change (workItems 8 0) with l.
  repeat constructor; cbn; try lra; unfold dot3, noPbcDx; cbn; lra.
Qed.

Lemma twoDisjointConstraints_trace :
  atTest lincsKernelTrace twoDisjointConstraints
  = Some (atTest threadsOf twoDisjointConstraints,
          atTest buffersAfter twoDisjointConstraints).
Proof.
  destruct (atTest lincsKernelTrace_returns twoDisjointConstraints)
    as (ths & d' & H & _);
    try reflexivity; try lia; try (intros _; cbn; lia).
  - exact twoDisjointConstraints_ready.
  - unfold threadsOf, buffersAfter, lincsKernel. rewrite H. reflexivity.
Qed.

Lemma twoDisjointConstraints_result :
  atTest lincsKernel twoDisjointConstraints
  = Some (atTest buffersAfter twoDisjointConstraints).
Proof.
  unfold lincsKernel. rewrite twoDisjointConstraints_trace. reflexivity.
Qed.

Lemma twoDisjointConstraints_atoms :
  map atomsOf (atTest threadsOf twoDisjointConstraints)
  = [[0; 1]; [2; 3]; []; []; []; []; []; []]%Z.
Proof.
  destruct (atTest lincsKernelTrace_returns twoDisjointConstraints)
    as (ths & d' & H & Hat);
    try reflexivity; try lia; try (intros _; cbn; lia).
  - exact twoDisjointConstraints_ready.
  - unfold threadsOf. rewrite H, Hat. vm_compute. reflexivity.
Qed.

Lemma twoDisjointConstraints_exclusive :
  exclusive (atTest threadsOf twoDisjointConstraints).
Proof.
  unfold exclusive. rewrite twoDisjointConstraints_atoms. cbn [concat app].
  repeat (constructor; [cbn; intuition discriminate|]). constructor.
Qed.

Lemma twoDisjointMasses_inverse k :
  (k < length twoDisjointMasses)%nat ->
  nth k twoDisjointMasses 0 * nth k (a_inverseMasses twoDisjointConstraints) 0 = 1.
Proof.
  cbn [twoDisjointMasses length]. intros Hk.
  do 4 (destruct k as [|k]; [cbn; lra|]). lia.
Qed.

(** C2 on the test system: the sums over the four atoms of mass times position
    and of mass times velocity, along x, are the same after the run. *)
Lemma lincsKernel_center_of_mass_on_test :
  length twoDisjointMasses = length (a_inverseMasses twoDisjointConstraints)
  /\ atTest lincsKernel twoDisjointConstraints
     = Some (atTest buffersAfter twoDisjointConstraints)
  /\ massWeightedSum twoDisjointMasses
       (a_xp (atTest buffersAfter twoDisjointConstraints)) XX
     = massWeightedSum twoDisjointMasses (a_xp twoDisjointConstraints) XX
  /\ massWeightedSum twoDisjointMasses
       (a_v (atTest buffersAfter twoDisjointConstraints)) XX
     = massWeightedSum twoDisjointMasses (a_v twoDisjointConstraints) XX.
Proof.
  split; [reflexivity|]. split; [exact twoDisjointConstraints_result|].
  apply (atTest lincsKernel_center_of_mass twoDisjointMasses twoDisjointConstraints).
  - reflexivity.
  - exact twoDisjointMasses_inverse.
  - exact twoDisjointConstraints_result.
Defined.

(** C3 on the test system, taken with coupled constraints and an expansion of
    order four: the launch has no result. *)
Lemma expansion_overruns_sm_rhs_on_test :
  true = true /\ (0 < 4)%Z /\ (0 < 8 <= 8)%Z
  /\ atCoupledTest lincsKernel twoDisjointConstraints = None.
Proof.
  split; [reflexivity|]. split; [lia|]. split; [lia|].
  apply (atCoupledTest expansion_overruns_sm_rhs twoDisjointConstraints).
  - reflexivity.
  - lia.
  - lia.
Defined.

(** C10 on the test system: the positions [a_x] and the constraints are, after
    the run, what they were. *)
Lemma lincsKernel_frame_on_test :
  atTest lincsKernel twoDisjointConstraints
  = Some (atTest buffersAfter twoDisjointConstraints)
  /\ a_x (atTest buffersAfter twoDisjointConstraints) = a_x twoDisjointConstraints
  /\ a_constraints (atTest buffersAfter twoDisjointConstraints)
     = a_constraints twoDisjointConstraints.
Proof.
  split; [exact twoDisjointConstraints_result|].
  pose proof (atTest lincsKernel_frame twoDisjointConstraints
                (atTest buffersAfter twoDisjointConstraints)
                twoDisjointConstraints_result) as H.
  split; [apply H|apply H].
Defined.

(** * The launch, the lengths and the checks on the test system *)

Local Abbreviation atProjection f :=
  (f 8%Z true true false 8%Z 0%Z 4%Z 1000 unit noPbcDx tt) (only parsing).

Local Abbreviation atTwoGroups f :=
  (f 8%Z true true false 16%Z 1%Z 4%Z 1000 unit noPbcDx tt) (only parsing).

Lemma twoDisjointConstraints_runs numIterations :
  lincsKernelTrace 8 true true false 8 numIterations 4 1000 unit noPbcDx tt
    twoDisjointConstraints
  = Some (threadsOf 8 true true false 8 numIterations 4 1000 unit noPbcDx tt
            twoDisjointConstraints,
          buffersAfter 8 true true false 8 numIterations 4 1000 unit noPbcDx tt
            twoDisjointConstraints)
  /\ exclusive (threadsOf 8 true true false 8 numIterations 4 1000 unit noPbcDx tt
                  twoDisjointConstraints).
Proof.
  destruct (lincsKernelTrace_returns 8 true true false 8 numIterations 4 1000 unit
              noPbcDx tt twoDisjointConstraints)
    as (ths & d' & H & Hat);
    try reflexivity; try lia; try (intros _; cbn; lia).
  - exact twoDisjointConstraints_ready.
  - unfold threadsOf, buffersAfter, lincsKernel. rewrite H. cbn [option_map snd].
    split; [reflexivity|].
    unfold exclusive. rewrite Hat.
    let l := eval vm_compute in (map (atomsAt twoDisjointConstraints)
                                   (map fst (workItems 8 0))) in
    change (map (atomsAt twoDisjointConstraints) (map fst (workItems 8 0))) with l.
    cbn [concat app].
    repeat (constructor; [cbn; intuition discriminate|]). constructor.
Qed.

Lemma twoDisjoint_arguments :
  kernelArguments twoDisjointParameters twoDisjointX twoDisjointXPrime twoDisjointV
  = twoDisjointConstraints.
Proof. reflexivity. Qed.

Lemma twoDisjoint_launched :
  atTest launchLincsGpuKernel twoDisjointParameters twoDisjointX twoDisjointXPrime
    twoDisjointV
  = Some (atTest launched twoDisjointParameters twoDisjointX twoDisjointXPrime
            twoDisjointV).
Proof.
  unfold launched, launchLincsGpuKernel. rewrite twoDisjoint_arguments.
  rewrite twoDisjointConstraints_result. reflexivity.
Qed.

Lemma twoDisjoint_afterLaunch :
  atTest launchLincsGpuKernel twoDisjointParameters
    (x_ (atTest afterLaunch twoDisjointTestData twoDisjointParameters))
    (xPrime0_ (atTest afterLaunch twoDisjointTestData twoDisjointParameters))
    (v0_ (atTest afterLaunch twoDisjointTestData twoDisjointParameters))
  = Some (fst (fst (atTest launched twoDisjointParameters twoDisjointX twoDisjointXPrime
                      twoDisjointV)),
          xPrime_ (atTest afterLaunch twoDisjointTestData twoDisjointParameters),
          v_ (atTest afterLaunch twoDisjointTestData twoDisjointParameters)).
Proof.
  cbn [afterLaunch x_ xPrime_ xPrime0_ v_ v0_ twoDisjointTestData].
  rewrite twoDisjoint_launched. rewrite <- !surjective_pairing. reflexivity.
Qed.

Lemma withinAbsolute_refl tolerance a :
  0 <= tolerance -> withinAbsolute tolerance a a = true.
Proof.
  intros H. unfold withinAbsolute.
  destruct (Rle_dec (Rabs (a - a)) tolerance) as [_|Hn]; [reflexivity|].
  exfalso. apply Hn. rewrite Rminus_diag, Rabs_R0. exact H.
Qed.

(** X1 on the test system. *)
Lemma lincsKernel_returns_on_test :
  Forall (fun id => constraintReady unit noPbcDx tt twoDisjointConstraints (fst id))
         (workItems 8 0)
  /\ atTest lincsKernel twoDisjointConstraints <> None.
Proof.
  split; [exact twoDisjointConstraints_ready|].
  apply (atTest lincsKernel_returns twoDisjointConstraints).
  - reflexivity.
  - lia.
  - reflexivity.
  - exact twoDisjointConstraints_ready.
  - reflexivity.
  - intros _. reflexivity.
  - intros _. cbn. lia.
Defined.

(** X2 on the test system, laid out for two work-groups of eight. *)
Lemma second_work_group_overruns_sm_r_on_test :
  (0 < 8)%Z /\ (2 * 8 <= 16)%Z
  /\ atTwoGroups lincsKernel twoDisjointConstraints = None.
Proof.
  split; [lia|]. split; [lia|].
  apply (atTwoGroups second_work_group_overruns_sm_r twoDisjointConstraints); lia.
Defined.

(** X3 on two constraints coupled to each other, for an expansion of order
    two. *)
Lemma expandMatrix_recurrence_on_pair :
  length (sm_rhs (loc coupledPairMemory)) = Z.to_nat (2 * 2)
  /\ option_map (fun s => map solOf (fst s))
       (expandMatrix 2 true 2 2 (coupledPairThreads, coupledPairMemory))
     = Some (neumann 2 (dev coupledPairMemory) (rowsOf coupledPairThreads)
               (map solOf coupledPairThreads) (Z.to_nat 2)).
Proof.
  split; [reflexivity|].
  apply (expandMatrix_recurrence 2 true 2 2 unit noPbcDx tt coupledPairThreads
           coupledPairMemory).
  - reflexivity.
  - lia.
  - reflexivity.
  - reflexivity.
  - apply Forall_cons; [|apply Forall_cons; [|apply Forall_nil]];
      intros n Hn; assert (n = 0%nat) by (cbn in Hn; lia); subst n;
      repeat split; vm_compute; (reflexivity || (intros H; discriminate H)).
  - reflexivity.
  - intros p Hp. assert (Hcases : p = 0%Z \/ p = 1%Z) by lia.
    destruct Hcases as [-> | ->]; reflexivity.
Defined.

(** X4 on the test system: the launch leaves four positions and four
    velocities, the floats of the result of the kernel. *)
Lemma launchLincsGpuKernel_buffers_on_test :
  atTest launchLincsGpuKernel twoDisjointParameters twoDisjointX twoDisjointXPrime
    twoDisjointV
  = Some (atTest launched twoDisjointParameters twoDisjointX twoDisjointXPrime
            twoDisjointV)
  /\ length (snd (fst (atTest launched twoDisjointParameters twoDisjointX
                         twoDisjointXPrime twoDisjointV)))
     = length twoDisjointXPrime
  /\ length (snd (atTest launched twoDisjointParameters twoDisjointX
                    twoDisjointXPrime twoDisjointV))
     = length twoDisjointV.
Proof.
  split; [exact twoDisjoint_launched|].
  pose proof (atTest launchLincsGpuKernel_buffers twoDisjointParameters twoDisjointX
                twoDisjointXPrime twoDisjointV
                (fst (fst (atTest launched twoDisjointParameters twoDisjointX
                             twoDisjointXPrime twoDisjointV)))
                (snd (fst (atTest launched twoDisjointParameters twoDisjointX
                             twoDisjointXPrime twoDisjointV)))
                (snd (atTest launched twoDisjointParameters twoDisjointX
                        twoDisjointXPrime twoDisjointV))) as H.
  rewrite <- !surjective_pairing in H.
  destruct (H twoDisjoint_launched) as (_ & Hxp & Hv & _).
  split; [exact Hxp | exact Hv].
Defined.

(** The first work-item of the test system: the constraint of the atoms 0
    and 1, of target length 2, along the displacement of the two atoms. *)
Lemma twoDisjoint_first numIterations :
  let ths := threadsOf 8 true true false 8 numIterations 4 1000 unit noPbcDx tt
               twoDisjointConstraints in
  let D := noPbcDx tt (nth 0 (a_x twoDisjointConstraints) zero3)
             (nth 1 (a_x twoDisjointConstraints) zero3) in
  In (nth 0 ths noThread) ths
  /\ isDummyThread (fst (nth 0 ths noThread)) = false
  /\ atom_i (fst (nth 0 ths noThread)) = 0%Z
  /\ atom_j (fst (nth 0 ths noThread)) = 1%Z
  /\ targetLength (fst (nth 0 ths noThread)) = 2
  /\ rc (fst (nth 0 ths noThread)) = scale (/ sqrt (dot3 D D)) D.
Proof.
  cbv zeta.
  destruct (trace_thread 8 true true false 8 numIterations 4 1000 unit noPbcDx tt
              twoDisjointConstraints _ _ 0%Z noThread
              (proj1 (twoDisjointConstraints_runs numIterations)) ltac:(lia))
    as (Hin & Hidx & Hdesc).
  change (Z.to_nat 0) with 0%nat in *.
  set (t := nth 0 _ noThread) in *.
  destruct Hdesc as (Hload & Hdum & _ & Hrest). rewrite Hidx in *.
  cbn in Hload. injection Hload as Hi Hj.
  assert (Hd : isDummyThread (fst t) = false) by (rewrite Hdum, <- Hi; reflexivity).
  destruct (Hrest Hd) as (Hr0 & _ & _ & _ & pi & pj & rlen & Hpi & Hpj & Hrs & Hrc).
  rewrite <- Hi in Hpi. rewrite <- Hj in Hpj.
  cbn in Hr0, Hpi, Hpj. injection Hr0 as Hr0. injection Hpi as Hpi. injection Hpj as Hpj.
  subst pi pj. unfold rsqrt in Hrs.
  destruct (Rlt_dec _ _) as [_|]; [|discriminate Hrs]. injection Hrs as Hrs.
  repeat split; auto. rewrite Hrc, <- Hrs. reflexivity.
Qed.

(** X5 on the test system, run without centripetal correction: the constraint
    of the atoms 0 and 1 ends with the component 2 along its direction. *)
Lemma projection_sets_component_on_test :
  let t := nth 0 (atProjection threadsOf twoDisjointConstraints) noThread in
  dot3 (rc (fst t))
    (noPbcDx tt
       (atomAt (a_xp (atProjection buffersAfter twoDisjointConstraints)) 0)
       (atomAt (a_xp (atProjection buffersAfter twoDisjointConstraints)) 1))
  = 2.
Proof.
  cbv zeta.
  destruct (twoDisjoint_first 0) as (Hin & Hd & Hi & Hj & Hr0 & _).
  pose proof (atProjection projection_sets_component (fun a b => eq_refl)
                twoDisjointConstraints
                (atProjection threadsOf twoDisjointConstraints)
                (atProjection buffersAfter twoDisjointConstraints)
                eq_refl ltac:(lia)
                (proj1 (twoDisjointConstraints_runs 0))
                (proj2 (twoDisjointConstraints_runs 0)) _ Hin Hd) as H.
  cbv zeta in H. rewrite Hi, Hj, Hr0 in H. exact (proj1 H).
Defined.

(** X6 on the test system: the atoms 0 and 1, which the positions put at
    the square distance 3.989, end at the distance 2. *)
Lemma centripetal_restores_length_on_test :
  sqrt (dot3
          (noPbcDx tt
             (atomAt (a_xp (atTest buffersAfter twoDisjointConstraints)) 0)
             (atomAt (a_xp (atTest buffersAfter twoDisjointConstraints)) 1))
          (noPbcDx tt
             (atomAt (a_xp (atTest buffersAfter twoDisjointConstraints)) 0)
             (atomAt (a_xp (atTest buffersAfter twoDisjointConstraints)) 1)))
  = 2.
Proof.
  destruct (twoDisjoint_first 1) as (Hin & Hd & Hi & Hj & Hr0 & Hrc).
  pose proof (atTest centripetal_restores_length (fun a b => eq_refl)
                twoDisjointConstraints
                (atTest threadsOf twoDisjointConstraints)
                (atTest buffersAfter twoDisjointConstraints)
                eq_refl ltac:(lia)
                twoDisjointConstraints_trace twoDisjointConstraints_exclusive
                _ Hin Hd) as H.
  cbv zeta in H. rewrite Hi, Hj, Hr0, Hrc in H.
  apply H; [lra|].
  match goal with
  | |- context [scale (/ sqrt (dot3 ?D ?D)) ?D] =>
      destruct (aligned_across D) as [_ Hz]; [unfold dot3, noPbcDx; cbn; lra|];
      change (noPbcDx tt (atomAt (a_xp twoDisjointConstraints) 0)
                (atomAt (a_xp twoDisjointConstraints) 1)) with D;
      rewrite Hz; lra
  end.
Defined.

(** X7 on the test system, for the tolerance 0.0001 of the test on the
    absolute difference. *)
Lemma checkCOM_after_launch_on_test :
  numAtoms_ (atTest afterLaunch twoDisjointTestData twoDisjointParameters) = 4%Z
  /\ checkCOMCoordinates R withinAbsolute (1 / 10000)
       (atTest afterLaunch twoDisjointTestData twoDisjointParameters) = Some true
  /\ checkCOMVelocity R withinAbsolute (1 / 10000)
       (atTest afterLaunch twoDisjointTestData twoDisjointParameters) = Some true.
Proof.
  split; [reflexivity|].
  apply (atTest checkCOM_after_launch R withinAbsolute (1 / 10000)
           (atTest afterLaunch twoDisjointTestData twoDisjointParameters)
           twoDisjointParameters
           (fst (fst (atTest launched twoDisjointParameters twoDisjointX
                        twoDisjointXPrime twoDisjointV)))).
  - intros a. apply withinAbsolute_refl. lra.
  - reflexivity.
  - reflexivity.
  - reflexivity.
  - reflexivity.
  - exact twoDisjointMasses_inverse.
  - exact twoDisjoint_afterLaunch.
Defined.

Ltac twoDisjoint_numbers :=
  change (Z.to_nat 0) with 0%nat; change (Z.to_nat 1) with 1%nat;
  change (Z.to_nat 2) with 2%nat; change (Z.to_nat 3) with 3%nat;
  unfold dot3, rvec_sub; cbn; lra.

Lemma twoDisjoint_entries c :
  (0 <= c < Z.quot (Z.of_nat (length (constraints_ twoDisjointTestData))) 3)%Z ->
  exists type i j r0,
    load (constraints_ twoDisjointTestData) (3 * c) = Some type
    /\ load (constraintsR0_ twoDisjointTestData) type = Some r0
    /\ load (constraints_ twoDisjointTestData) (3 * c + 1) = Some i
    /\ load (constraints_ twoDisjointTestData) (3 * c + 2) = Some j
    /\ (c < 8)%Z
    /\ load (d_constraints twoDisjointParameters) c = Some (mkAtomPair i j)
    /\ load (d_constraintsTargetLengths twoDisjointParameters) c = Some r0
    /\ i <> (-1)%Z /\ 0 <= r0
    /\ (let dx := rvec_sub (nth (Z.to_nat i) (x_ twoDisjointTestData) zero3)
                           (nth (Z.to_nat j) (x_ twoDisjointTestData) zero3) in
        let d0 := rvec_sub (nth (Z.to_nat i) (xPrime0_ twoDisjointTestData) zero3)
                           (nth (Z.to_nat j) (xPrime0_ twoDisjointTestData) zero3) in
        dot3 d0 d0 * dot3 dx dx - dot3 dx d0 * dot3 dx d0 < r0 * r0 * dot3 dx dx).
Proof.
  change (Z.quot (Z.of_nat (length (constraints_ twoDisjointTestData))) 3) with 2%Z.
  intros Hc. assert (Hcases : c = 0%Z \/ c = 1%Z) by lia.
  destruct Hcases as [-> | ->].
  - exists 0%Z, 0%Z, 1%Z, 2.
    repeat (split; [first [reflexivity | lia | lra]|]).
    cbv zeta. twoDisjoint_numbers.
  - exists 1%Z, 2%Z, 3%Z, 1.
    repeat (split; [first [reflexivity | lia | lra]|]).
    cbv zeta. twoDisjoint_numbers.
Qed.

(** X8 on the test system, for the tolerance 0.0002 of the test on the
    absolute difference and without periodic images. *)
Lemma checkConstrains_after_launch_on_test :
  exclusive (atTest threadsOf twoDisjointConstraints)
  /\ checkConstrainsLength R withinAbsolute bool (fun pbc => pbc)
       (fun _ a b => rvec_sub a b) (2 / 10000)
       (atTest afterLaunch twoDisjointTestData twoDisjointParameters) false = Some true
  /\ checkConstrainsDirection bool (fun pbc => pbc) (fun _ a b => rvec_sub a b)
       (atTest afterLaunch twoDisjointTestData twoDisjointParameters) false = Some true.
Proof.
  split; [exact twoDisjointConstraints_exclusive|].
  apply (atTest checkConstrains_after_launch R withinAbsolute bool (fun pbc => pbc)
           (fun _ a b => rvec_sub a b) (fun a b => eq_refl) (2 / 10000)
           (atTest afterLaunch twoDisjointTestData twoDisjointParameters) false
           twoDisjointParameters
           (fst (fst (atTest launched twoDisjointParameters twoDisjointX
                        twoDisjointXPrime twoDisjointV)))).
  - reflexivity.
  - lia.
  - reflexivity.
  - intros a. apply withinAbsolute_refl. lra.
  - reflexivity.
  - exact twoDisjoint_afterLaunch.
  - exact twoDisjointConstraints_exclusive.
  - exact twoDisjoint_entries.
Defined.

(** The pair at rest, run: one work-group of two work-items, one centripetal
    correction. *)
Lemma restingPair_runs :
  lincsKernelTrace 2 true true false 2 1 4 1000 unit noPbcDx tt restingPair
  = Some (threadsOf 2 true true false 2 1 4 1000 unit noPbcDx tt restingPair,
          buffersAfter 2 true true false 2 1 4 1000 unit noPbcDx tt restingPair)
  /\ exclusive (threadsOf 2 true true false 2 1 4 1000 unit noPbcDx tt restingPair).
Proof.
  destruct (lincsKernelTrace_returns 2 true true false 2 1 4 1000 unit
              noPbcDx tt restingPair)
    as (ths & d' & H & Hat);
    try reflexivity; try lia; try (intros _; cbn; lia).
  - let l := eval vm_compute in (workItems 2 0) in change (workItems 2 0) with l.
    repeat constructor; cbn; try lra; unfold dot3, noPbcDx; cbn; lra.
  - unfold threadsOf, buffersAfter, lincsKernel. rewrite H. cbn [option_map snd].
    split; [reflexivity|].
    unfold exclusive. rewrite Hat.
    let l := eval vm_compute in (map (atomsAt restingPair) (map fst (workItems 2 0))) in
    change (map (atomsAt restingPair) (map fst (workItems 2 0))) with l.
    cbn [concat app].
    repeat (constructor; [cbn; intuition discriminate|]). constructor.
Qed.

Lemma restingPair_first :
  let ths := threadsOf 2 true true false 2 1 4 1000 unit noPbcDx tt restingPair in
  let D := noPbcDx tt (nth 0 (a_x restingPair) zero3) (nth 1 (a_x restingPair) zero3) in
  In (nth 0 ths noThread) ths
  /\ isDummyThread (fst (nth 0 ths noThread)) = false
  /\ atom_i (fst (nth 0 ths noThread)) = 0%Z
  /\ atom_j (fst (nth 0 ths noThread)) = 1%Z
  /\ targetLength (fst (nth 0 ths noThread)) = 1
  /\ rc (fst (nth 0 ths noThread)) = scale (/ sqrt (dot3 D D)) D.
Proof.
  cbv zeta.
  destruct (trace_thread 2 true true false 2 1 4 1000 unit noPbcDx tt
              restingPair _ _ 0%Z noThread (proj1 restingPair_runs) ltac:(lia))
    as (Hin & Hidx & Hdesc).
  change (Z.to_nat 0) with 0%nat in *.
  set (t := nth 0 _ noThread) in *.
  destruct Hdesc as (Hload & Hdum & _ & Hrest). rewrite Hidx in *.
  cbn in Hload. injection Hload as Hi Hj.
  assert (Hd : isDummyThread (fst t) = false) by (rewrite Hdum, <- Hi; reflexivity).
  destruct (Hrest Hd) as (Hr0 & _ & _ & _ & pi & pj & rlen & Hpi & Hpj & Hrs & Hrc).
  rewrite <- Hi in Hpi. rewrite <- Hj in Hpj.
  cbn in Hr0, Hpi, Hpj. injection Hr0 as Hr0. injection Hpi as Hpi. injection Hpj as Hpj.
  subst pi pj. unfold rsqrt in Hrs.
  destruct (Rlt_dec _ _) as [_|]; [|discriminate Hrs]. injection Hrs as Hrs.
  repeat split; auto. rewrite Hrc, <- Hrs. reflexivity.
Qed.

(** X10 on two atoms at rest at their target length 1: both stay where they
    are. *)
Lemma satisfied_constraint_is_kept_on_pair :
  atomAt (a_xp (buffersAfter 2 true true false 2 1 4 1000 unit noPbcDx tt restingPair)) 0
  = atomAt (a_xp restingPair) 0
  /\ atomAt (a_xp (buffersAfter 2 true true false 2 1 4 1000 unit noPbcDx tt restingPair)) 1
     = atomAt (a_xp restingPair) 1.
Proof.
  destruct restingPair_first as (Hin & Hd & Hi & Hj & Hr0 & Hrc).
  pose proof (satisfied_constraint_is_kept 2 true true false 2 1 4 1000 unit noPbcDx tt
                (fun a b => eq_refl) restingPair
                (threadsOf 2 true true false 2 1 4 1000 unit noPbcDx tt restingPair)
                (buffersAfter 2 true true false 2 1 4 1000 unit noPbcDx tt restingPair)
                eq_refl ltac:(lia) (proj1 restingPair_runs) (proj2 restingPair_runs)
                _ Hin Hd) as H.
  cbv zeta in H. rewrite Hi, Hj, Hr0, Hrc in H.
  apply H.
  - lra.
  - change (atomAt (a_xp restingPair) 0) with (mkFloat3 1 0 0).
    change (atomAt (a_xp restingPair) 1) with (mkFloat3 0 0 0).
    unfold dot3, noPbcDx. cbn. lra.
  - match goal with
    | |- context [scale (/ sqrt (dot3 ?D ?D)) ?D] =>
        destruct (aligned_across D) as [Hs _]; [unfold dot3, noPbcDx; cbn; lra|];
        change (noPbcDx tt (atomAt (a_xp restingPair) 0) (atomAt (a_xp restingPair) 1))
          with D;
        rewrite Hs; apply sqrt_lt_R0; unfold dot3, noPbcDx; cbn; lra
    end.
Defined.

(** On the test system the positions [a_xp] are those of [a_x]: each of the
    two constraints has nothing across its direction. *)
Lemma twoDisjoint_small t :
  In t (atTest threadsOf twoDisjointConstraints) -> isDummyThread (fst t) = false ->
  0 <= targetLength (fst t)
  /\ dot3 (noPbcDx tt (atomAt (a_xp twoDisjointConstraints) (atom_i (fst t)))
             (atomAt (a_xp twoDisjointConstraints) (atom_j (fst t))))
          (noPbcDx tt (atomAt (a_xp twoDisjointConstraints) (atom_i (fst t)))
             (atomAt (a_xp twoDisjointConstraints) (atom_j (fst t))))
     - dot3 (rc (fst t))
         (noPbcDx tt (atomAt (a_xp twoDisjointConstraints) (atom_i (fst t)))
            (atomAt (a_xp twoDisjointConstraints) (atom_j (fst t))))
       * dot3 (rc (fst t))
           (noPbcDx tt (atomAt (a_xp twoDisjointConstraints) (atom_i (fst t)))
              (atomAt (a_xp twoDisjointConstraints) (atom_j (fst t))))
     < targetLength (fst t) * targetLength (fst t).
Proof.
  intros Hin Hd.
  destruct (atTest trace_member twoDisjointConstraints _ _ t
              twoDisjointConstraints_trace ltac:(lia) Hin)
    as (Hidx & Hload & Hdum & _ & Hrest).
  assert (Hcases : threadIndex (fst t) = 0%Z \/ threadIndex (fst t) = 1%Z
                   \/ (2 <= threadIndex (fst t) < 8)%Z) by lia.
  destruct Hcases as [Hc|[Hc|Hc]].
  3:{ exfalso.
      assert (Hpair : load (a_constraints twoDisjointConstraints) (threadIndex (fst t))
                      = Some (mkAtomPair (-1) (-1))).
      { assert (Hk : threadIndex (fst t) = 2%Z \/ threadIndex (fst t) = 3%Z
                     \/ threadIndex (fst t) = 4%Z \/ threadIndex (fst t) = 5%Z
                     \/ threadIndex (fst t) = 6%Z \/ threadIndex (fst t) = 7%Z) by lia.
        destruct Hk as [Hk|[Hk|[Hk|[Hk|[Hk|Hk]]]]]; rewrite Hk; reflexivity. }
      rewrite Hpair in Hload. injection Hload as Hi _.
      rewrite Hdum, <- Hi in Hd. discriminate Hd. }
  all: rewrite Hc in *; cbn in Hload; injection Hload as Hi Hj;
    destruct (Hrest Hd) as (Hr0 & _ & _ & _ & pi & pj & rlen & Hpi & Hpj & Hrs & Hrc);
    rewrite <- Hi in Hpi; rewrite <- Hj in Hpj;
    cbn in Hr0, Hpi, Hpj; injection Hr0 as Hr0; injection Hpi as Hpi;
    injection Hpj as Hpj; subst pi pj; apply rsqrt_Some in Hrs as [Hpos Hrs];
    rewrite Hrc, Hrs, <- Hi, <- Hj, <- Hr0; (split; [lra|]).
  - change (noPbcDx tt (atomAt (a_xp twoDisjointConstraints) 0)
              (atomAt (a_xp twoDisjointConstraints) 1))
      with (noPbcDx tt (mkFloat3 (5 / 2) (- 31 / 10) (157 / 10))
              (mkFloat3 (51 / 100) (- 151 / 50) (311 / 20))).
    rewrite (proj2 (aligned_across _ Hpos)). lra.
  - change (noPbcDx tt (atomAt (a_xp twoDisjointConstraints) 2)
              (atomAt (a_xp twoDisjointConstraints) 3))
      with (noPbcDx tt (mkFloat3 (- 1 / 2) (- 3) (76 / 5))
              (mkFloat3 (- 151 / 100) (- 59 / 20) (301 / 20))).
    rewrite (proj2 (aligned_across _ Hpos)). lra.
Qed.

(** X11 on the test system: a second launch leaves the buffers of the first. *)
Lemma relaunch_changes_nothing_on_test :
  atTest lincsKernel (atTest buffersAfter twoDisjointConstraints)
  = Some (atTest buffersAfter twoDisjointConstraints).
Proof.
  apply (atTest relaunch_changes_nothing (fun a b => eq_refl) 3%nat
           twoDisjointConstraints
           (atTest threadsOf twoDisjointConstraints)
           (atTest buffersAfter twoDisjointConstraints)
           eq_refl ltac:(lia)
           twoDisjointConstraints_trace twoDisjointConstraints_exclusive).
  - reflexivity.
  - intros _. reflexivity.
  - intros _. split; [cbn; lia|]. split; [reflexivity | lia].
  - exact twoDisjoint_small.
Defined.

Lemma coupledTriple_ready :
  Forall (fun id => constraintReady unit noPbcDx tt coupledTriple (fst id)
                    /\ couplingReady 2 2 coupledTriple (fst id))
         (workItems 2 0).
Proof.
  let l := eval vm_compute in (workItems 2 0) in change (workItems 2 0) with l.
  apply Forall_cons; [|apply Forall_cons; [|apply Forall_nil]]; cbn [fst]; split.
  1, 3: cbn; split; [lra | unfold dot3, noPbcDx; cbn; lra].
  all: unfold couplingReady; cbn; intros n Hn;
    assert (n = 0%Z) by lia; subst n; cbn;
    (split; [lia|]); (split; [lia|]); eexists; (split; [reflexivity | lia]).
Qed.

(** X12 on three atoms in a row: the first entry of the matrix is written,
    and is at most the mass factor 1/2 in absolute value. *)
Lemma projection_builds_matrix_on_triple :
  exists ths m ths' m' a,
    collectAll unit noPbcDx tt (workItems 2 0)
      {| loc := localAccessors 2 true; dev := coupledTriple |} = Some (ths, m)
    /\ forThreads (projectionStep true 2 unit noPbcDx tt) ths m = Some (ths', m')
    /\ load (a_matrixA (dev m')) 0 = Some a
    /\ Rabs a <= Rabs (1 / 2).
Proof.
  destruct (projection_builds_matrix 2 true true 2 unit noPbcDx tt coupledTriple
              eq_refl ltac:(lia) ltac:(lia) coupledTriple_ready eq_refl)
    as (ths & m & ths' & m' & E0 & E1 & _ & Hent).
  pose proof (collectAll_spec _ _ _ _ _ _ _ E0) as (_ & Hids & _).
  destruct ths as [|t0 rest]; [discriminate Hids|].
  cbn [map] in Hids. injection Hids as Hidx _ _. unfold idOf in Hidx. cbn [fst] in Hidx.
  destruct (Hent t0 1%Z 0%Z (or_introl eq_refl)) as (c1 & t1 & mf & _ & _ & _ & Hmf & Ha & Hb).
  - rewrite Hidx. reflexivity.
  - lia.
  - rewrite Hidx in Hmf, Ha. cbn in Hmf. injection Hmf as <-.
    exists (t0 :: rest), m, ths', m', (1 / 2 * dot3 (rc (fst t0)) (rc (fst t1))).
    split; [exact E0|]. split; [exact E1|]. split; [exact Ha | exact Hb].
Defined.

(** * The launch of one work-group on the test system, from its buffers *)

Lemma twoDisjoint_entries_ready :
  Forall (fun k => constraintReady unit noPbcDx tt twoDisjointConstraints k) (entries 8).
Proof.
  let l := eval vm_compute in (entries 8) in change (entries 8) with l.
  repeat constructor; cbn; try lra; unfold dot3, noPbcDx; cbn; lra.
Qed.

Lemma twoDisjoint_exclusiveAt : exclusiveAt 8 twoDisjointConstraints.
Proof.
  unfold exclusiveAt.
  let l := eval vm_compute in (concat (map (atomsAt twoDisjointConstraints) (entries 8))) in
  change (concat (map (atomsAt twoDisjointConstraints) (entries 8))) with l.
  repeat (constructor; [cbn; intuition discriminate|]). constructor.
Qed.








(** X13 on the test system (eight work-items, [8 = 2 ^ 3]): each of the six
    components of the virial has grown by the sum over the eight entries. *)
Lemma lincsKernel_virial_of_input_on_test :
  8%Z = (2 ^ Z.of_nat 3)%Z /\ (6 <= 8)%Z
  /\ Forall (fun k => constraintReady unit noPbcDx tt twoDisjointConstraints k) (entries 8)
  /\ exclusiveAt 8 twoDisjointConstraints
  /\ exists d',
       atTest lincsKernel twoDisjointConstraints = Some d'
       /\ forall k, (k < 6)%nat ->
            nth k (a_virialScaled d') 0
            = nth k (a_virialScaled twoDisjointConstraints) 0
              + virialOf 8 1 unit noPbcDx tt twoDisjointConstraints k.
Proof.
  split; [reflexivity|]. split; [lia|].
  split; [exact twoDisjoint_entries_ready|].
  split; [exact twoDisjoint_exclusiveAt|].
  destruct (atTest lincsKernel_virial_of_input 3%nat twoDisjointConstraints)
    as (d' & Hres & _ & Hvir & _).
  - reflexivity.
  - reflexivity.
  - lia.
  - reflexivity.
  - reflexivity.
  - exact twoDisjoint_entries_ready.
  - reflexivity.
  - intros _. reflexivity.
  - cbn. lia.
  - exact twoDisjoint_exclusiveAt.
  - exists d'. split; [exact Hres | exact Hvir].
Defined.

(** X14 on the test system: the constraint 0-1 ends as the closed-form
    solution of its pair, with one centripetal correction. *)
Lemma uncoupled_launch_is_naive_on_test :
  Forall (fun k => constraintReady unit noPbcDx tt twoDisjointConstraints k) (entries 8)
  /\ exclusiveAt 8 twoDisjointConstraints
  /\ exists d',
       atTest lincsKernel twoDisjointConstraints = Some d'
       /\ exists wi wj r0 x_i x_j,
            load (a_inverseMasses twoDisjointConstraints) 0 = Some wi
            /\ load (a_inverseMasses twoDisjointConstraints) 1 = Some wj
            /\ load (a_constraintsTargetLengths twoDisjointConstraints) 0 = Some r0
            /\ load (a_x twoDisjointConstraints) 0 = Some x_i
            /\ load (a_x twoDisjointConstraints) 1 = Some x_j
            /\ naiveSinglePairSolve 1 unit noPbcDx tt wi wj r0 x_i x_j
                 (atomAt (a_xp twoDisjointConstraints) 0,
                  atomAt (a_xp twoDisjointConstraints) 1)
               = ((atomAt (a_xp d') 0, atomAt (a_xp d') 1),
                  multiplierAt 1 unit noPbcDx tt twoDisjointConstraints 0).
Proof.
  split; [exact twoDisjoint_entries_ready|].
  split; [exact twoDisjoint_exclusiveAt|].
  destruct (atTest uncoupled_launch_is_naive twoDisjointConstraints)
    as (d' & Hres & Hpair & _).
  - reflexivity.
  - lia.
  - reflexivity.
  - exact twoDisjoint_entries_ready.
  - reflexivity.
  - intros _. reflexivity.
  - intros _. cbn. lia.
  - exact twoDisjoint_exclusiveAt.
  - exists d'. split; [exact Hres|].
    apply (Hpair 0%Z 0%Z 1%Z); [lia | reflexivity | lia].
Defined.

(** X15 on the test system: the positions are those that the entries 0 and 1
    account for; the entry 2, a dummy, is not among them. *)
Lemma dummy_entries_add_nothing_on_test :
  Forall (fun k => constraintReady unit noPbcDx tt twoDisjointConstraints k) (entries 8)
  /\ exclusiveAt 8 twoDisjointConstraints
  /\ exists d',
       atTest lincsKernel twoDisjointConstraints = Some d'
       /\ (forall n,
             nth n (a_xp d') 0
             = nth n (a_xp twoDisjointConstraints) 0
               + fold_right Rplus 0
                   (map (fun k =>
                           multiplierAt 1 unit noPbcDx tt twoDisjointConstraints k
                           * unitCorrection
                               (constAt unit noPbcDx tt twoDisjointConstraints k) n)
                      (realEntries 8 unit noPbcDx tt twoDisjointConstraints)))
       /\ ~ In 2%Z (realEntries 8 unit noPbcDx tt twoDisjointConstraints).
Proof.
  split; [exact twoDisjoint_entries_ready|].
  split; [exact twoDisjoint_exclusiveAt|].
  destruct (atTest dummy_entries_add_nothing 3%nat twoDisjointConstraints)
    as (d' & Hres & Hxp & _ & _ & Hdummy).
  - reflexivity.
  - lia.
  - reflexivity.
  - exact twoDisjoint_entries_ready.
  - reflexivity.
  - intros _. reflexivity.
  - intros _. split; [cbn; lia|]. split; [reflexivity | lia].
  - exact twoDisjoint_exclusiveAt.
  - exists d'. split; [exact Hres|]. split; [exact Hxp|].
    apply (Hdummy 2%Z (-1)%Z); [lia | reflexivity].
Defined.

(** * A second launch, in binary32 *)

